(** * lepp2: the smoothing obstacle aggregator

    A shallow embedding of [lepp::SmoothObstacleAggregator]
    (src/lepp2/SmoothObstacleAggregator.hpp) and the properties of its
    per-frame pipeline: matching of the new obstacles to the tracked ones,
    the lost/found counters, dropping, materialisation and blending.

    Conventions of the embedding.
    - A C++ [double] is an IEEE-754 binary64 value, [spec_float] with
      precision 53 and maximal exponent 1024, with the operations of the
      Standard Library's [SpecFloat] (round to nearest, ties to even).
    - An [int] ([model_id_t], the counters, [frame_cnt_]) is a [Z]; signed
      overflow is undefined in C++, so the embedding describes the runs in
      which the counters stay inside the range of [int].
    - A [std::map<model_id_t, T>] is a [gmap Z T]; a range-for over it
      visits the entries by ascending key, which is [elements].
    - An [ObjectModelPtr] is an address into a heap of objects; the tracked
      table, the list of materialised models and the caller's vector of new
      obstacles hold addresses, so that sharing is visible.
    - Dereferencing an address that holds no object, indexing a vector out
      of range and dereferencing [end()] are undefined behaviour: the
      operation then returns [None]. *)

From Stdlib Require Import ZArith Lia SpecFloat.
From stdpp Require Import gmap list sorting.

Local Open Scope Z_scope.
Set Warnings "-register-all,-clear-no-such-hyp".

(** ** Doubles *)

Module Double.
Definition prec : Z := 53.
Definition emax : Z := 1024.

Definition add : spec_float → spec_float → spec_float := SFadd prec emax.
Definition sub : spec_float → spec_float → spec_float := SFsub prec emax.
Definition mul : spec_float → spec_float → spec_float := SFmul prec emax.
Definition div : spec_float → spec_float → spec_float := SFdiv prec emax.
Definition leb : spec_float → spec_float → bool := SFleb.

(** [m * 2^e], rounded; exact whenever [m] has at most 53 bits. *)
Definition dyadic (m e : Z) : spec_float := binary_normalize prec emax m e false.
Definition of_Z (n : Z) : spec_float := dyadic n 0.

Definition nan : spec_float := S754_nan.
Definition infinity : spec_float := S754_infinity false.

(** The value is neither a NaN nor an infinity. *)
Definition is_finite (d : spec_float) : bool :=
  match d with
  | S754_zero _ | S754_finite _ _ _ => true
  | S754_infinity _ | S754_nan => false
  end.
End Double.

Abbreviation double := spec_float.

Arguments Double.add : simpl never.
Arguments Double.sub : simpl never.
Arguments Double.mul : simpl never.
Arguments Double.div : simpl never.
Arguments Double.leb : simpl never.

Declare Scope double_scope.
Delimit Scope double_scope with dbl.
Infix "+" := Double.add : double_scope.
Infix "-" := Double.sub : double_scope.
Infix "*" := Double.mul : double_scope.
Infix "/" := Double.div : double_scope.
Infix "<=?" := Double.leb : double_scope.

(** The literal [0.05]: the double nearest to 1/20, 0x1.999999999999ap-5. *)
Definition tau : double := S754_finite false 7205759403792794 (-57).

(** The literal [1e10], the initial value of [min_dist]. *)
Definition min_dist_init : double := S754_finite false 5242880000000000 (-19).

(** The literal [2] of [/ 2], converted to [double]. *)
Definition two : double := Double.of_Z 2.

(** ** Coordinates *)

(** Modelled from the spec: [Coordinate] (its header is not among the
    sources): "a reference point (3 real coordinates)"; the aggregator
    reads the members [x], [y], [z] as doubles and uses the componentwise
    [+], [-] and the division by a scalar. *)
Module Coord.
Record t := mk { x : double; y : double; z : double }.

Definition add (a b : t) : t :=
  mk (x a + x b)%dbl (y a + y b)%dbl (z a + z b)%dbl.
Definition sub (a b : t) : t :=
  mk (x a - x b)%dbl (y a - y b)%dbl (z a - z b)%dbl.
Definition div (a : t) (k : double) : t :=
  mk (x a / k)%dbl (y a / k)%dbl (z a / k)%dbl.

Definition is_finite (a : t) : bool :=
  Double.is_finite (x a) && Double.is_finite (y a) && Double.is_finite (z a).
End Coord.

Abbreviation Coordinate := Coord.t.

(** ** Object models *)

(** Modelled from the spec: [ObjectModel] and its subclasses (their header
    is not among the sources): "a closed set of shape variants (primitive
    and composite) exposing a reference point, a rigid-translation
    operation, and - for the composite variant - a replaceable ordered
    list of children".  The members are the ones the aggregator and
    [BlendVisitor] use: [set_id] of every model, [center]/[set_center] of a
    sphere, [first]/[second] and their setters of a capsule,
    [models]/[set_models] of a composite.  The children of a composite are
    held by value. *)
Inductive ObjectModel :=
| SphereModel (id : Z) (center : Coordinate)
| CapsuleModel (id : Z) (first second : Coordinate)
| CompositeModel (id : Z) (models : list ObjectModel).

Definition id_of (m : ObjectModel) : Z :=
  match m with
  | SphereModel id _ | CapsuleModel id _ _ | CompositeModel id _ => id
  end.

Definition set_id (id : Z) (m : ObjectModel) : ObjectModel :=
  match m with
  | SphereModel _ c => SphereModel id c
  | CapsuleModel _ a b => CapsuleModel id a b
  | CompositeModel _ ms => CompositeModel id ms
  end.

(** [dynamic_cast<CompositeModel*>]: the children when the model is a
    composite, the null pointer otherwise. *)
Definition as_composite (m : ObjectModel) : option (list ObjectModel) :=
  match m with
  | CompositeModel _ ms => Some ms
  | _ => None
  end.

Definition set_models (ms : list ObjectModel) (m : ObjectModel) : ObjectModel :=
  match m with
  | CompositeModel id _ => CompositeModel id ms
  | _ => m
  end.

(** *** BlendVisitor *)

Definition visitSphere (translation_vec_ : Coordinate)
    (id : Z) (center : Coordinate) : ObjectModel :=
  SphereModel id (Coord.add center translation_vec_).

Definition visitCapsule (translation_vec_ : Coordinate)
    (id : Z) (first second : Coordinate) : ObjectModel :=
  CapsuleModel id (Coord.add first translation_vec_)
                  (Coord.add second translation_vec_).

(** Modelled from the spec: [ObjectModel::accept] (not among the sources):
    "a primitive translates its own reference geometry; a composite
    recursively translates every child".  The primitives dispatch to the
    two visit functions of [BlendVisitor]. *)
Fixpoint accept (blender : Coordinate) (m : ObjectModel) : ObjectModel :=
  match m with
  | SphereModel id c => visitSphere blender id c
  | CapsuleModel id a b => visitCapsule blender id a b
  | CompositeModel id ms => CompositeModel id (map (accept blender) ms)
  end.

(** ** Containers *)

(** Addresses of heap objects ([ObjectModelPtr]) and of list nodes
    ([std::list<ObjectModelPtr>::iterator]). *)
Abbreviation ptr := nat (only parsing).
Abbreviation iter := nat (only parsing).
Abbreviation heap := (gmap nat ObjectModel) (only parsing).

(** The entries of a [std::map] in iteration order: ascending keys. *)
Definition key_le {V} (a b : Z * V) : Prop := a.1 ≤ b.1.

#[global] Instance key_le_dec {V} (a b : Z * V) : Decision (key_le a b) :=
  decide (a.1 ≤ b.1).

Definition elements {V} (m : gmap Z V) : list (Z * V) :=
  merge_sort key_le (map_to_list m).

(** [m[k]] read as an rvalue of a counter map: a missing entry is created
    with the value 0. *)
Definition counter (m : gmap Z Z) (k : Z) : Z := default 0 (m !! k).

(** A loop whose body may be undefined. *)
Fixpoint foldM {A B} (f : A → B → option A) (a : A) (l : list B) : option A :=
  match l with
  | [] => Some a
  | b :: l => a' ← f a b; foldM f a' l
  end.

(** The address of the node that [push_back] allocates: one that no node
    of the list has. *)
Definition fresh_iter (l : list (nat * nat)) : nat :=
  S (foldr Nat.max 0%nat (l.*1)).

(** [std::list::erase(it)]. *)
Definition list_erase (it : nat) (l : list (nat * nat)) : list (nat * nat) :=
  filter (λ n, n.1 ≠ it) l.

(** ** The aggregator *)

Record Aggregator := mkAggregator {
  next_model_id_ : Z;
  tracked_models_ : gmap Z nat;
  frames_found_ : gmap Z Z;
  frames_lost_ : gmap Z Z;
  materialized_models_ : list (nat * nat);
  model_idx_in_list_ : gmap Z nat;
  frame_cnt_ : Z
}.

(** The constructor. *)
Definition SmoothObstacleAggregator : Aggregator :=
  {| next_model_id_ := 0; tracked_models_ := ∅; frames_found_ := ∅;
     frames_lost_ := ∅; materialized_models_ := []; model_idx_in_list_ := ∅;
     frame_cnt_ := 0 |}.

Definition with_next_model_id (n : Z) (s : Aggregator) : Aggregator :=
  {| next_model_id_ := n; tracked_models_ := tracked_models_ s;
     frames_found_ := frames_found_ s; frames_lost_ := frames_lost_ s;
     materialized_models_ := materialized_models_ s;
     model_idx_in_list_ := model_idx_in_list_ s; frame_cnt_ := frame_cnt_ s |}.

Definition with_tracked (t : gmap Z nat) (s : Aggregator) : Aggregator :=
  {| next_model_id_ := next_model_id_ s; tracked_models_ := t;
     frames_found_ := frames_found_ s; frames_lost_ := frames_lost_ s;
     materialized_models_ := materialized_models_ s;
     model_idx_in_list_ := model_idx_in_list_ s; frame_cnt_ := frame_cnt_ s |}.

Definition with_found (f : gmap Z Z) (s : Aggregator) : Aggregator :=
  {| next_model_id_ := next_model_id_ s; tracked_models_ := tracked_models_ s;
     frames_found_ := f; frames_lost_ := frames_lost_ s;
     materialized_models_ := materialized_models_ s;
     model_idx_in_list_ := model_idx_in_list_ s; frame_cnt_ := frame_cnt_ s |}.

Definition with_lost (l : gmap Z Z) (s : Aggregator) : Aggregator :=
  {| next_model_id_ := next_model_id_ s; tracked_models_ := tracked_models_ s;
     frames_found_ := frames_found_ s; frames_lost_ := l;
     materialized_models_ := materialized_models_ s;
     model_idx_in_list_ := model_idx_in_list_ s; frame_cnt_ := frame_cnt_ s |}.

Definition with_materialized (l : list (nat * nat)) (i : gmap Z nat)
    (s : Aggregator) : Aggregator :=
  {| next_model_id_ := next_model_id_ s; tracked_models_ := tracked_models_ s;
     frames_found_ := frames_found_ s; frames_lost_ := frames_lost_ s;
     materialized_models_ := l; model_idx_in_list_ := i;
     frame_cnt_ := frame_cnt_ s |}.

Definition with_frame_cnt (n : Z) (s : Aggregator) : Aggregator :=
  {| next_model_id_ := next_model_id_ s; tracked_models_ := tracked_models_ s;
     frames_found_ := frames_found_ s; frames_lost_ := frames_lost_ s;
     materialized_models_ := materialized_models_ s;
     model_idx_in_list_ := model_idx_in_list_ s; frame_cnt_ := n |}.

(** [nextModelId]: [return next_model_id_++]. *)
Definition nextModelId (s : Aggregator) : Z * Aggregator :=
  (next_model_id_ s, with_next_model_id (next_model_id_ s + 1) s).

(** The squared distance of [getMatchByDistance], summed left to right. *)
Definition sq_dist (p query_point : Coordinate) : double :=
  ((Coord.x p - Coord.x query_point) * (Coord.x p - Coord.x query_point)
   + (Coord.y p - Coord.y query_point) * (Coord.y p - Coord.y query_point)
   + (Coord.z p - Coord.z query_point) * (Coord.z p - Coord.z query_point))%dbl.

(** The locals [found], [min_dist] and [match] of [getMatchByDistance]. *)
Record MatchAcc := mkMatchAcc {
  found : bool;
  min_dist : double;
  match_ : Z
}.

Definition match_init : MatchAcc :=
  {| found := false; min_dist := min_dist_init; match_ := 0 |}.

(** The body of the loop over [tracked_models_], for the entry with key
    [id] whose model has the reference point [p]. *)
Definition match_body (query_point : Coordinate) (acc : MatchAcc)
    (id : Z) (p : Coordinate) : MatchAcc :=
  let dist := sq_dist p query_point in
  if (dist <=? tau)%dbl then
    let min_dist1 := if found acc then min_dist acc else dist in
    if (dist <=? min_dist1)%dbl
    then {| found := true; min_dist := dist; match_ := id |}
    else {| found := true; min_dist := min_dist1; match_ := match_ acc |}
  else acc.

Section Aggregator.
(** [ObjectModel::center_point] is declared in a header that is not among
    the sources and the spec gives no formula for it: the reference point
    is a parameter of the development. *)
Variable center_point : ObjectModel → Coordinate.

Definition match_loop (h : heap) (query_point : Coordinate)
    (tracked : gmap Z nat) : option MatchAcc :=
  foldM (λ acc (elem : Z * nat),
           m ← h !! elem.2;
           Some (match_body query_point acc elem.1 (center_point m)))
        match_init (elements tracked).

Definition getMatchByDistance (h : heap) (s : Aggregator) (model : ptr)
    : option (Z * Aggregator) :=
  m ← h !! model;
  acc ← match_loop h (center_point m) (tracked_models_ s);
  if found acc then Some (match_ acc, s) else Some (nextModelId s).

(** The locals of the first loop of [matchToPrevious]. *)
Record MatchState := mkMatchState {
  ms_agg : Aggregator;
  correspondence : gmap Z nat;
  new_in_frame : list (Z * nat);
  ms_i : nat
}.

Definition match_one (h : heap) (st : MatchState) (new_obstacle : ptr)
    : option MatchState :=
  '(model_id, s') ← getMatchByDistance h (ms_agg st) new_obstacle;
  Some {| ms_agg := s';
          correspondence := <[model_id := ms_i st]> (correspondence st);
          new_in_frame :=
            match tracked_models_ s' !! model_id with
            | None => new_in_frame st ++ [(model_id, ms_i st)]
            | Some _ => new_in_frame st
            end;
          ms_i := S (ms_i st) |}.

(** The body of the second loop: start tracking a new obstacle. *)
Definition insert_new (new_obstacles : list ptr)
    (hs : heap * Aggregator) (elem : Z * nat) : option (heap * Aggregator) :=
  let '(h, s) := hs in
  let model_id := elem.1 in
  p ← new_obstacles !! elem.2;
  m ← h !! p;
  let s1 := with_tracked (<[model_id := p]> (tracked_models_ s)) s in
  let s2 := with_lost (<[model_id := 0]> (frames_lost_ s1)) s1 in
  let s3 := with_found (<[model_id := 0]> (frames_found_ s2)) s2 in
  Some (<[p := set_id model_id m]> h, s3).

Definition matchToPrevious (h : heap) (s : Aggregator)
    (new_obstacles : list ptr) : option (gmap Z nat * heap * Aggregator) :=
  st ← foldM (match_one h)
        {| ms_agg := s; correspondence := ∅; new_in_frame := []; ms_i := 0 |}
        new_obstacles;
  '(h', s') ← foldM (insert_new new_obstacles) (h, ms_agg st) (new_in_frame st);
  Some (correspondence st, h', s').

(** The body of the loop of [adaptTracked]. *)
Definition adapt_one (s : Aggregator) (new_obstacles : list ptr)
    (h : heap) (elem : Z * nat) : option heap :=
  let model_id := elem.1 in
  q ← new_obstacles !! elem.2;
  new_model ← h !! q;
  p ← tracked_models_ s !! model_id;
  tracked ← h !! p;
  let translation_vec :=
    Coord.div (Coord.sub (center_point new_model) (center_point tracked)) two in
  let h1 := <[p := accept translation_vec tracked]> h in
  if decide (Z.rem (frame_cnt_ s) 30 = 0) then
    tracked ← h1 !! p;
    new_model ← h1 !! q;
    match as_composite tracked, as_composite new_model with
    | Some _, Some ms => Some (<[p := set_models ms tracked]> h1)
    | _, _ => Some h1
    end
  else Some h1.

Definition adaptTracked (h : heap) (s : Aggregator)
    (correspondence : gmap Z nat) (new_obstacles : list ptr) : option heap :=
  foldM (adapt_one s new_obstacles) h (elements correspondence).

(** The body of the loop of [updateLostAndFound]. *)
Definition update_one (new_matches : gmap Z nat) (s : Aggregator)
    (elem : Z * nat) : Aggregator :=
  let model_id := elem.1 in
  match new_matches !! model_id with
  | Some _ =>
      let s1 :=
        match model_idx_in_list_ s !! model_id with
        | None =>
            with_found
              (<[model_id := counter (frames_found_ s) model_id + 1]>
                 (frames_found_ s)) s
        | Some _ => s
        end in
      with_lost (<[model_id := 0]> (frames_lost_ s1)) s1
  | None =>
      let s1 :=
        with_lost
          (<[model_id := counter (frames_lost_ s) model_id + 1]>
             (frames_lost_ s)) s in
      with_found (<[model_id := 0]> (frames_found_ s1)) s1
  end.

Definition updateLostAndFound (s : Aggregator) (new_matches : gmap Z nat)
    : Aggregator :=
  foldl (update_one new_matches) s (elements (tracked_models_ s)).

Definition LOST_LIMIT : Z := 10.
Definition FOUND_LIMIT : Z := 5.

(** The body of the loop of [dropLostObjects], at the entry [elem] of
    [frames_lost_].  The loop erases only the entry it stands on, so the
    entries it visits are the ones the map had when the loop began. *)
Definition drop_one (s : Aggregator) (elem : Z * Z) : Aggregator :=
  let model_id := elem.1 in
  if decide (LOST_LIMIT ≤ elem.2) then
    let s1 := with_tracked (delete model_id (tracked_models_ s)) s in
    let s2 :=
      match model_idx_in_list_ s1 !! model_id with
      | Some it =>
          with_materialized (list_erase it (materialized_models_ s1))
                            (delete model_id (model_idx_in_list_ s1)) s1
      | None => s1
      end in
    let s3 := with_found (delete model_id (frames_found_ s2)) s2 in
    with_lost (delete model_id (frames_lost_ s3)) s3
  else s.

Definition dropLostObjects (s : Aggregator) : Aggregator :=
  foldl drop_one s (elements (frames_lost_ s)).

(** The body of the loop of [materializeFoundObjects], at the entry
    [elem] of [frames_found_]. *)
Definition materialize_one (s : Aggregator) (elem : Z * Z)
    : option Aggregator :=
  let model_id := elem.1 in
  let seen_count := elem.2 in
  if decide (FOUND_LIMIT ≤ seen_count) then
    model ← tracked_models_ s !! model_id;
    let pos := fresh_iter (materialized_models_ s) in
    let s1 :=
      with_materialized (materialized_models_ s ++ [(pos, model)])
                        (<[model_id := pos]> (model_idx_in_list_ s)) s in
    Some (with_found (delete model_id (frames_found_ s1)) s1)
  else Some s.

Definition materializeFoundObjects (s : Aggregator) : option Aggregator :=
  foldM materialize_one s (elements (frames_found_ s)).

Definition copyMaterialized (s : Aggregator) : list ptr :=
  (materialized_models_ s).*2.

(** [updateObstacles]: the new heap, the new aggregator and the list
    handed to every attached aggregator by [notifyAggregators]. *)
Definition updateObstacles (h : heap) (s : Aggregator) (obstacles : list ptr)
    : option (heap * Aggregator * list ptr) :=
  let s0 := with_frame_cnt (frame_cnt_ s + 1) s in
  '(correspondence, h1, s1) ← matchToPrevious h s0 obstacles;
  let s2 := updateLostAndFound s1 correspondence in
  h2 ← adaptTracked h1 s2 correspondence obstacles;
  let s3 := dropLostObjects s2 in
  s4 ← materializeFoundObjects s3;
  let smooth_obstacles := copyMaterialized s4 in
  Some (h2, s4, smooth_obstacles).

(** A run over several frames: the lists handed out, frame by frame. *)
Fixpoint run (h : heap) (s : Aggregator) (frames : list (list ptr))
    : option (heap * Aggregator * list (list ptr)) :=
  match frames with
  | [] => Some (h, s, [])
  | obstacles :: frames =>
      '(h1, s1, out) ← updateObstacles h s obstacles;
      '(h2, s2, outs) ← run h1 s1 frames;
      Some (h2, s2, out :: outs)
  end.
End Aggregator.

(** ** Auxiliary notions used by the statements *)

(** A NaN or the positive infinity. *)
Definition unbounded (d : double) : Prop :=
  d = S754_nan ∨ d = S754_infinity false.

(** A NaN or a value whose sign bit is clear. *)
Definition unsigned (d : double) : Prop :=
  match d with
  | S754_nan | S754_zero false | S754_infinity false | S754_finite false _ _ => True
  | _ => False
  end.

(** The counters of a tracked model after its turn in the loop. *)
Definition streaks_updated (new_matches : gmap Z nat) (s s' : Aggregator)
    (id : Z) : Prop :=
  match new_matches !! id with
  | Some _ =>
      frames_lost_ s' !! id = Some 0 ∧
      frames_found_ s' !! id =
        match model_idx_in_list_ s !! id with
        | None => Some (counter (frames_found_ s) id + 1)
        | Some _ => frames_found_ s !! id
        end
  | None =>
      frames_lost_ s' !! id = Some (counter (frames_lost_ s) id + 1) ∧
      frames_found_ s' !! id = Some 0
  end.

(** The members other than the two counter maps. *)
Definition same_tables (s s' : Aggregator) : Prop :=
  next_model_id_ s' = next_model_id_ s ∧
  tracked_models_ s' = tracked_models_ s ∧
  materialized_models_ s' = materialized_models_ s ∧
  model_idx_in_list_ s' = model_idx_in_list_ s ∧
  frame_cnt_ s' = frame_cnt_ s.

(** The nodes of the dropped models among the entries [l] of
    [frames_lost_]. *)
Definition dropped_iters (idx : gmap Z nat) (l : list (Z * Z)) : list nat :=
  omap (λ e, if decide (LOST_LIMIT ≤ e.2) then idx !! e.1 else None) l.

(** The models that the loop materialises among the entries [l] of
    [frames_found_], in the order of the loop. *)
Definition promoted (tracked : gmap Z nat) (l : list (Z * Z)) : list nat :=
  omap (λ e, if decide (FOUND_LIMIT ≤ e.2) then tracked !! e.1 else None) l.

(** Every ID that [materializeFoundObjects] materialises is tracked, so
    that its [find] in [tracked_models_] succeeds. *)
Definition found_tracked (s : Aggregator) : Prop :=
  map_Forall (λ id n, FOUND_LIMIT ≤ n → is_Some (tracked_models_ s !! id))
             (frames_found_ s).

(** The frame is one of those in which the composites are refreshed. *)
Definition refresh_due (s : Aggregator) : bool :=
  bool_decide (Z.rem (frame_cnt_ s) 30 = 0).

(** The refresh of the tracked model from the new one, when it is due. *)
Definition refreshed (due : bool) (tracked new_model : ObjectModel) : ObjectModel :=
  if due then
    match as_composite tracked, as_composite new_model with
    | Some _, Some ms => set_models ms tracked
    | _, _ => tracked
    end
  else tracked.

(** The models that the loop reads exist. *)
Definition adapt_defined (h : heap) (tracked : gmap Z nat) (obs : list ptr)
    (corr : gmap Z nat) : Prop :=
  map_Forall (λ id i, is_Some (tracked !! id ≫= (h !!.)) ∧
                      is_Some (obs !! i ≫= (h !!.))) corr.

(** The tracked model of a matched ID is neither the tracked model nor the
    new obstacle of another matched ID. *)
Definition adapt_separated (tracked : gmap Z nat) (obs : list ptr)
    (corr : gmap Z nat) : Prop :=
  map_Forall (λ id1 i1,
    map_Forall (λ id2 _,
      id1 ≠ id2 → is_Some (tracked !! id2) →
      tracked !! id1 ≠ tracked !! id2 ∧ obs !! i1 ≠ tracked !! id2) corr) corr.


Section Notions.
Variable center_point : ObjectModel → Coordinate.

(** The tracked model [id] is a candidate for the model at [model], at
    the squared distance [d]: [d <= 0.05]. *)
Definition candidate (h : heap) (tracked : gmap Z nat) (model : ptr)
    (id : Z) (d : double) : Prop :=
  ∃ p m q, tracked !! id = Some p ∧ h !! p = Some m ∧ h !! model = Some q ∧
           d = sq_dist (center_point m) (center_point q) ∧
           (d <=? tau)%dbl = true.

(** The outcome of the loop of [getMatchByDistance]: the match, if one
    was found. *)
Definition nearest (h : heap) (tracked : gmap Z nat) (model : ptr)
    : option (option Z) :=
  m ← h !! model;
  acc ← match_loop center_point h (center_point m) tracked;
  Some (if found acc then Some (match_ acc) else None).

(** Every tracked address holds an object. *)
Definition tracked_alive (h : heap) (tracked : gmap Z nat) : Prop :=
  map_Forall (λ _ p, is_Some (h !! p)) tracked.
(** The translation vector of a tracked model towards a new one. *)
Definition translation_vec (tracked new_model : ObjectModel) : Coordinate :=
  Coord.div (Coord.sub (center_point new_model) (center_point tracked)) two.

(** What one turn of the loop leaves at the address of the tracked model;
    [same] tells that the new model is the tracked object itself. *)
Definition blend (due same : bool) (tracked new_model : ObjectModel) : ObjectModel :=
  let t := accept (translation_vec tracked new_model) tracked in
  refreshed due t (if same then t else new_model).


(** Some new obstacle of the frame has the tracked model [id] as its
    match. *)
Definition matched_in (h : heap) (s : Aggregator) (obs : list ptr) (id : Z)
    : Prop :=
  Exists (λ q, nearest h (tracked_models_ s) q = Some (Some id)) obs.

#[global] Instance matched_in_dec (h : heap) (s : Aggregator) (obs : list ptr)
    (id : Z) : Decision (matched_in h s obs id) :=
  Exists_dec _ obs.

(** The number of consecutive frames without a match of the tracked
    model [id], the frame of the new obstacles [obs] included. *)
Definition lost_streak (h : heap) (s : Aggregator) (obs : list ptr) (id : Z)
    : Z :=
  if bool_decide (matched_in h s obs id) then 0
  else counter (frames_lost_ s) id + 1.

(** The number of consecutive frames with a match of the tracked model
    [id], the frame of the new obstacles [obs] included. *)
Definition found_streak (h : heap) (s : Aggregator) (obs : list ptr) (id : Z)
    : Z :=
  if bool_decide (matched_in h s obs id) then counter (frames_found_ s) id + 1
  else 0.
End Notions.

(** Every tracked ID was handed out by the counter: it is below its
    current value. *)
Definition ids_below (s : Aggregator) : Prop :=
  map_Forall (λ id _, id < next_model_id_ s) (tracked_models_ s).

(** The IDs that the first loop of [matchToPrevious] gives to the new
    obstacles, from the outcomes [rs] of their searches and the value [n]
    of the counter: the match, or the next value of the counter. *)
Fixpoint assign (n : Z) (rs : list (option Z)) : list Z :=
  match rs with
  | [] => []
  | Some id :: rs => id :: assign n rs
  | None :: rs => n :: assign (n + 1) rs
  end.

(** The number of searches without a match. *)
Fixpoint fresh_count (rs : list (option Z)) : Z :=
  match rs with
  | [] => 0
  | Some _ :: rs => fresh_count rs
  | None :: rs => 1 + fresh_count rs
  end.

(** The IDs with the index of their obstacle, from the index [i] on. *)
Fixpoint indexed (i : nat) (ids : list Z) : list (Z * nat) :=
  match ids with
  | [] => []
  | id :: ids => (id, i) :: indexed (S i) ids
  end.

(** [correspondence[model_id] = i], entry after entry. *)
Definition record_all (c : gmap Z nat) (l : list (Z * nat)) : gmap Z nat :=
  foldl (λ c e, <[e.1 := e.2]> c) c l.

(** *** Well-formed states

    What the constructor establishes and every frame keeps, given new
    obstacles that are fresh objects. *)
Record wf (h : gmap nat ObjectModel) (s : Aggregator) : Prop := mk_wf {
  wf_below : ids_below s;
  wf_alive : tracked_alive h (tracked_models_ s);
  wf_inj : ∀ id1 id2 p,
    tracked_models_ s !! id1 = Some p → tracked_models_ s !! id2 = Some p →
    id1 = id2;
  wf_found : ∀ id,
    is_Some (frames_found_ s !! id) → is_Some (tracked_models_ s !! id);
  wf_idx : ∀ id it,
    model_idx_in_list_ s !! id = Some it →
    ∃ p, tracked_models_ s !! id = Some p ∧ (it, p) ∈ materialized_models_ s;
  wf_nodes : ∀ it p,
    (it, p) ∈ materialized_models_ s →
    ∃ id, model_idx_in_list_ s !! id = Some it ∧
          tracked_models_ s !! id = Some p;
  wf_iters : NoDup (materialized_models_ s).*1;
  wf_idx_inj : ∀ id1 id2 it,
    model_idx_in_list_ s !! id1 = Some it →
    model_idx_in_list_ s !! id2 = Some it → id1 = id2;
  wf_confirmed : ∀ id,
    is_Some (model_idx_in_list_ s !! id) → counter (frames_found_ s) id = 0
}.

(** The new obstacles of a frame are distinct objects that the aggregator
    does not track yet. *)
Definition fresh_obstacles (h : gmap nat ObjectModel) (s : Aggregator)
    (obs : list nat) : Prop :=
  Forall (λ p, is_Some (h !! p)) obs ∧ NoDup obs ∧
  map_Forall (λ _ p, p ∉ obs) (tracked_models_ s).

#[global] Instance fresh_obstacles_dec (h : gmap nat ObjectModel)
    (s : Aggregator) (obs : list nat) : Decision (fresh_obstacles h s obs) :=
  and_dec (Forall_dec _ obs)
          (and_dec (NoDup_dec obs) (map_Forall_dec _ (tracked_models_ s))).

(** The states of a run: the constructor, frames of fresh obstacles, and
    in between whatever the rest of the program does to the heap, short
    of freeing an object (the tracked table holds shared pointers). *)
Inductive reachable (center_point : ObjectModel → Coordinate)
    : gmap nat ObjectModel → Aggregator → Prop :=
| reach_init h : reachable center_point h SmoothObstacleAggregator
| reach_heap h h' s :
    reachable center_point h s → dom h ⊆ dom h' → reachable center_point h' s
| reach_frame h s obs h' s' out :
    reachable center_point h s → fresh_obstacles h s obs →
    updateObstacles center_point h s obs = Some (h', s', out) →
    reachable center_point h' s'.

(** Between two frames no counter is at its limit. *)
Definition settled (s : Aggregator) : Prop :=
  map_Forall (λ _ n, n < FOUND_LIMIT) (frames_found_ s) ∧
  map_Forall (λ _ n, n < LOST_LIMIT) (frames_lost_ s).

(** Every frame of a run brings fresh obstacles. *)
Fixpoint fresh_run (center_point : ObjectModel → Coordinate)
    (h : gmap nat ObjectModel) (s : Aggregator) (frames : list (list nat))
    : bool :=
  match frames with
  | [] => true
  | obs :: frames =>
      bool_decide (fresh_obstacles h s obs) &&
      match updateObstacles center_point h s obs with
      | Some (h1, s1, _) => fresh_run center_point h1 s1 frames
      | None => false
      end
  end.

(** *** Notions for the properties of a run *)

(** The addresses of the tracked models. *)
Definition tracked_ptrs (s : Aggregator) : list ptr :=
  (map_to_list (tracked_models_ s)).*2.

(** What the counter maps keep between two frames, besides [wf]. *)
Record consistent (s : Aggregator) : Prop := mk_consistent {
  cons_lost : ∀ id,
    is_Some (frames_lost_ s !! id) ↔ is_Some (tracked_models_ s !! id);
  cons_found : ∀ id,
    is_Some (tracked_models_ s !! id) →
    is_Some (frames_found_ s !! id) ∨ is_Some (model_idx_in_list_ s !! id);
  cons_found_nonneg : map_Forall (λ _ n, 0 ≤ n) (frames_found_ s);
  cons_lost_nonneg : map_Forall (λ _ n, 0 ≤ n) (frames_lost_ s);
  cons_exclusive : ∀ id,
    counter (frames_found_ s) id = 0 ∨ counter (frames_lost_ s) id = 0
}.

(** Every tracked object carries the ID under which it is tracked. *)
Definition stamped (h : heap) (s : Aggregator) : Prop :=
  map_Forall (λ id p, id_of <$> h !! p = Some id) (tracked_models_ s).

Section FrameNotions.
Variable center_point : ObjectModel → Coordinate.

(** The new obstacles of a frame without a candidate among the tracked
    models, in the order of the batch. *)
Definition unmatched (h : heap) (s : Aggregator) (obs : list ptr) : list ptr :=
  filter (λ q, nearest center_point h (tracked_models_ s) q = Some None) obs.
End FrameNotions.

(** A condition on every frame of a run, on the state in which the frame
    begins. *)
Fixpoint run_all (center_point : ObjectModel → Coordinate)
    (P : gmap nat ObjectModel → Aggregator → list nat → bool)
    (h : gmap nat ObjectModel) (s : Aggregator) (frames : list (list nat))
    : bool :=
  match frames with
  | [] => true
  | obs :: frames =>
      P h s obs &&
      match updateObstacles center_point h s obs with
      | Some (h1, s1, _) => run_all center_point P h1 s1 frames
      | None => false
      end
  end.

(** The frame has a new obstacle whose match is the tracked model [id]. *)
Definition matched_frame (center_point : ObjectModel → Coordinate) (id : Z)
    (h : gmap nat ObjectModel) (s : Aggregator) (obs : list nat) : bool :=
  bool_decide (matched_in center_point h s obs id).

(** The frame has no new obstacle whose match is the tracked model [id],
    and the object [p] is not among its new obstacles. *)
Definition missed_frame (center_point : ObjectModel → Coordinate) (id : Z)
    (p : nat) (h : gmap nat ObjectModel) (s : Aggregator) (obs : list nat)
    : bool :=
  bool_decide (¬ matched_in center_point h s obs id) && bool_decide (p ∉ obs).

(** ** Worked inputs *)

Definition zero : double := Double.of_Z 0.
Definition origin : Coordinate := Coord.mk zero zero zero.

(** The point [(m * 2^e, 0, 0)]. *)
Definition on_x_axis (m e : Z) : Coordinate :=
  Coord.mk (Double.dyadic m e) zero zero.

(** Modelled from the spec: [center_point] (not among the sources), "the
    representative 3-D point of a geometry", fixed for the worked inputs:
    the centre of a sphere, the midpoint of the two ends of a capsule, the
    mean of the reference points of the children of a composite (the
    origin when it has none). *)
Fixpoint example_center_point (m : ObjectModel) : Coordinate :=
  match m with
  | SphereModel _ c => c
  | CapsuleModel _ a b => Coord.div (Coord.add b a) two
  | CompositeModel _ ms =>
      match ms with
      | [] => origin
      | _ =>
          Coord.div
            (foldl (λ c m, Coord.add c (example_center_point m)) origin ms)
            (Double.of_Z (Z.of_nat (length ms)))
      end
  end.


(** Two tracked spheres at the same squared distance 1/64 from a new
    sphere at the origin. *)
Definition tie_heap : gmap nat ObjectModel :=
  list_to_map [(10%nat, SphereModel 0 (on_x_axis 1 (-3)));
               (11%nat, SphereModel 1 (on_x_axis (-1) (-3)));
               (20%nat, SphereModel 0 origin)].

Definition tie_agg : Aggregator :=
  {| next_model_id_ := 2;
     tracked_models_ := list_to_map [(0, 10%nat); (1, 11%nat)];
     frames_found_ := list_to_map [(0, 1); (1, 1)];
     frames_lost_ := list_to_map [(0, 0); (1, 0)];
     materialized_models_ := []; model_idx_in_list_ := ∅; frame_cnt_ := 1 |}.

(** A tracked sphere at the origin (model 0, at the address 10) and new
    spheres on the x axis at 1/16, 1/8 and 1, and one whose x is a NaN. *)
Definition crowd_heap : gmap nat ObjectModel :=
  list_to_map [(10%nat, SphereModel 0 origin);
               (20%nat, SphereModel 0 (on_x_axis 1 (-4)));
               (21%nat, SphereModel 0 (on_x_axis 1 (-3)));
               (22%nat, SphereModel 0 (on_x_axis 1 0));
               (23%nat, SphereModel 0 (Coord.mk Double.nan zero zero))].

Definition crowd_agg : Aggregator :=
  {| next_model_id_ := 1;
     tracked_models_ := {[0 := 10%nat]};
     frames_found_ := {[0 := 1]};
     frames_lost_ := {[0 := 0]};
     materialized_models_ := []; model_idx_in_list_ := ∅; frame_cnt_ := 1 |}.

(** Scenario A: a sphere at the origin, detected anew in five frames. *)
Definition scenario_heap : gmap nat ObjectModel :=
  list_to_map [(1%nat, SphereModel 0 origin); (2%nat, SphereModel 0 origin);
               (3%nat, SphereModel 0 origin); (4%nat, SphereModel 0 origin);
               (5%nat, SphereModel 0 origin)].

Definition scenario_frames : list (list nat) :=
  [[1%nat]; [2%nat]; [3%nat]; [4%nat]; [5%nat]].

(** The aggregator of scenario A after frame 1. *)
Definition sighted_agg : Aggregator :=
  {| next_model_id_ := 1;
     tracked_models_ := {[0 := 1%nat]};
     frames_found_ := {[0 := 1]};
     frames_lost_ := {[0 := 0]};
     materialized_models_ := []; model_idx_in_list_ := ∅; frame_cnt_ := 1 |}.

(** The aggregator of scenario A after frame 4 and after frame 5. *)
Definition pending_agg : Aggregator :=
  {| next_model_id_ := 1;
     tracked_models_ := {[0 := 1%nat]};
     frames_found_ := {[0 := 4]};
     frames_lost_ := {[0 := 0]};
     materialized_models_ := []; model_idx_in_list_ := ∅; frame_cnt_ := 4 |}.

Definition confirmed_agg : Aggregator :=
  {| next_model_id_ := 1;
     tracked_models_ := {[0 := 1%nat]};
     frames_found_ := ∅;
     frames_lost_ := {[0 := 0]};
     materialized_models_ := [(1%nat, 1%nat)];
     model_idx_in_list_ := {[0 := 1%nat]}; frame_cnt_ := 5 |}.

(** The materialised model of scenario A after nine more frames, all
    without an obstacle. *)
Definition fading_agg : Aggregator :=
  {| next_model_id_ := 1;
     tracked_models_ := {[0 := 1%nat]};
     frames_found_ := {[0 := 0]};
     frames_lost_ := {[0 := 9]};
     materialized_models_ := [(1%nat, 1%nat)];
     model_idx_in_list_ := {[0 := 1%nat]}; frame_cnt_ := 14 |}.

(** A materialised composite with one sphere at the origin (model 0, at
    the address 10), and a new composite with one sphere at 1/8, after 29
    frames. *)
Definition refresh_heap : gmap nat ObjectModel :=
  list_to_map [(10%nat, CompositeModel 0 [SphereModel 0 origin]);
               (20%nat, CompositeModel 0 [SphereModel 0 (on_x_axis 1 (-3))])].

Definition refresh_agg : Aggregator :=
  {| next_model_id_ := 1;
     tracked_models_ := {[0 := 10%nat]};
     frames_found_ := ∅;
     frames_lost_ := {[0 := 0]};
     materialized_models_ := [(1%nat, 10%nat)];
     model_idx_in_list_ := {[0 := 1%nat]}; frame_cnt_ := 29 |}.

(** ** Iteration over a map *)

Section Elements.
Context {V : Type}.
Implicit Types (m : gmap Z V) (k : Z) (v : V).

#[local] Instance key_le_trans : Transitive (@key_le V).
Proof. intros a b c; unfold key_le; lia. Qed.

#[local] Instance key_le_total : Total (@key_le V).
Proof. intros a b; unfold key_le; lia. Qed.

Lemma elem_of_elements m k v : (k, v) ∈ elements m ↔ m !! k = Some v.
Proof.
  unfold elements. rewrite merge_sort_Permutation.
  apply elem_of_map_to_list.
Qed.

Lemma NoDup_fst_elements m : NoDup (elements m).*1.
Proof.
  unfold elements. rewrite merge_sort_Permutation.
  apply NoDup_fst_map_to_list.
Qed.

Lemma elements_sorted m : StronglySorted key_le (elements m).
Proof. apply StronglySorted_merge_sort; apply _. Qed.

(** In a split of the iteration order, later keys are larger. *)
Lemma elements_ascending m l1 e l2 e' :
  elements m = l1 ++ e :: l2 → e' ∈ l1 → e'.1 < e.1.
Proof.
  intros Hsplit Hin.
  pose proof (elements_sorted m) as Hs.
  pose proof (NoDup_fst_elements m) as Hnd.
  rewrite Hsplit in Hs, Hnd.
  assert (key_le e' e) as Hle.
  { eapply StronglySorted_app_1_elem_of; [exact Hs|done|set_solver]. }
  assert (e'.1 ≠ e.1); [|unfold key_le in Hle; lia].
  intros Heq. rewrite fmap_app, fmap_cons in Hnd.
  apply NoDup_app in Hnd as (_ & Hnd & _).
  apply (Hnd (e'.1)); [by apply list_elem_of_fmap_2|].
  rewrite Heq. set_solver.
Qed.
End Elements.

Lemma foldM_app {A B} (f : A → B → option A) (a : A) (l1 l2 : list B) :
  foldM f a (l1 ++ l2) = a' ← foldM f a l1; foldM f a' l2.
Proof.
  revert a. induction l1 as [|b l1 IH]; intros a; simpl; [done|].
  destruct (f a b); simpl; [apply IH|done].
Qed.

Lemma foldM_snoc {A B} (f : A → B → option A) (a : A) (l : list B) (b : B) :
  foldM f a (l ++ [b]) = a' ← foldM f a l; f a' b.
Proof.
  rewrite foldM_app. destruct (foldM f a l); simpl; [|done].
  by destruct (f _ b).
Qed.

(** A decidable proposition about a worked input, by evaluation. *)
Ltac by_compute :=
  lazymatch goal with
  | |- ?P => apply (bool_decide_unpack P); vm_compute; exact I
  end.

(** ** The order of the doubles *)

Ltac compare_cases :=
  unfold Double.leb, SFleb; simpl; rewrite ?Pos.compare_cont_spec; simpl;
  repeat match goal with
  | |- context [Z.compare ?a ?b] => destruct (Z.compare_spec a b); simpl
  | |- context [Pos.compare ?a ?b] => destruct (Pos.compare_spec a b); simpl
  end; try done; try lia.

(** Two values that are not NaN are comparable. *)
Lemma leb_total (a b : double) :
  (a <=? a)%dbl = true → (b <=? b)%dbl = true →
  (a <=? b)%dbl = false → (b <=? a)%dbl = true.
Proof.
  destruct a as [[]|[]| |[] ma ea], b as [[]|[]| |[] mb eb];
    try done; compare_cases.
Qed.

Lemma leb_trans (a b c : double) :
  (a <=? b)%dbl = true → (b <=? c)%dbl = true → (a <=? c)%dbl = true.
Proof.
  destruct a as [[]|[]| |[] ma ea], b as [[]|[]| |[] mb eb],
           c as [[]|[]| |[] mc ec]; try done; compare_cases.
Qed.

Lemma leb_refl_l (a b : double) : (a <=? b)%dbl = true → (a <=? a)%dbl = true.
Proof.
  destruct a as [[]|[]| |[] ma ea], b as [[]|[]| |[] mb eb]; try done;
    intros _; compare_cases.
Qed.

(** ** The loop of [getMatchByDistance] *)

Section MatchLoop.
Variable center_point : ObjectModel → Coordinate.
Variable h : heap.
Variable query_point : Coordinate.

(** The squared distance computed for an entry of the tracked table. *)
Let entry_dist (e : Z * nat) (d : double) : Prop :=
  ∃ m, h !! e.2 = Some m ∧ d = sq_dist (center_point m) query_point.

Let step (acc : MatchAcc) (elem : Z * nat) : option MatchAcc :=
  m ← h !! elem.2;
  Some (match_body query_point acc elem.1 (center_point m)).

(** What the locals hold after the entries [seen]. *)
Let match_inv (seen : list (Z * nat)) (acc : MatchAcc) : Prop :=
  (found acc = false →
     ∀ e d, e ∈ seen → entry_dist e d → (d <=? tau)%dbl = false) ∧
  (found acc = true →
     ∃ e, e ∈ seen ∧ match_ acc = e.1 ∧ entry_dist e (min_dist acc) ∧
          (min_dist acc <=? tau)%dbl = true ∧
          ∀ e' d', e' ∈ seen → entry_dist e' d' → (d' <=? tau)%dbl = true →
            (min_dist acc <=? d')%dbl = true ∧
            ((d' <=? min_dist acc)%dbl = true → e'.1 ≤ e.1)).

Lemma match_loop_prefix (seen : list (Z * nat)) :
  (∀ e, e ∈ seen → is_Some (h !! e.2)) →
  (∀ l1 e l2 e', seen = l1 ++ e :: l2 → e' ∈ l1 → e'.1 < e.1) →
  ∃ acc, foldM step match_init seen = Some acc ∧ match_inv seen acc.
Proof.
  induction seen as [|x seen IH] using rev_ind; intros Halive Hasc.
  - exists match_init. split; [done|]. split; [|done].
    intros _ e d Hin. by apply elem_of_nil in Hin.
  - destruct IH as (acc & Hacc & Hnone & Hsome).
    { intros e He. apply Halive. apply elem_of_app; by left. }
    { intros l1 e l2 e' -> He'. apply (Hasc l1 e (l2 ++ [x])); [|done].
      by rewrite <- app_assoc. }
    assert (∀ e', e' ∈ seen → e'.1 < x.1) as Hlast.
    { intros e' He'. by apply (Hasc seen x [] e'). }
    destruct (Halive x) as [m Hm].
    { apply elem_of_app; right; by apply list_elem_of_singleton. }
    rewrite foldM_snoc, Hacc. simpl. unfold step at 1. rewrite Hm. simpl.
    eexists; split; [done|].
    unfold match_body.
    remember (sq_dist (center_point m) query_point) as dist eqn:Hdist.
    assert (entry_dist x dist) as Hx by (by exists m).
    assert (∀ d, entry_dist x d → d = dist) as Hxd.
    { intros d (m' & Hm' & ->). by simplify_eq. }
    clear Hdist.
    destruct (dist <=? tau)%dbl eqn:Hcand.
    + (* the entry is accepted *)
      pose proof (leb_refl_l _ _ Hcand) as Hrefl.
      destruct (found acc) eqn:Hfound.
      * destruct (Hsome eq_refl) as (e & He & Hid & Hed & Hmin & Hbest).
        destruct (dist <=? min_dist acc)%dbl eqn:Hcmp; simpl.
        -- split; [done|]. intros _. exists x.
           split; [apply elem_of_app; right; by apply list_elem_of_singleton|]. do 3 (split; [done|]).
           intros e' d' He' Hd' Hc'.
           apply elem_of_app in He' as [He'|He'].
           ++ destruct (Hbest e' d' He' Hd' Hc') as [Hle _].
              split; [by eapply leb_trans|]. intros _.
              specialize (Hlast e' He'). lia.
           ++ apply list_elem_of_singleton in He' as ->.
              rewrite (Hxd d' Hd'). split; [done|lia].
        -- split; [done|]. intros _. exists e.
           split; [apply elem_of_app; by left|]. do 3 (split; [done|]).
           intros e' d' He' Hd' Hc'.
           apply elem_of_app in He' as [He'|He'].
           ++ exact (Hbest e' d' He' Hd' Hc').
           ++ apply list_elem_of_singleton in He' as ->.
              rewrite (Hxd d' Hd'). cbn [min_dist]. rewrite Hcmp.
              split; [|done].
              apply leb_total; [done| |done]. by eapply leb_refl_l.
      * rewrite Hrefl. simpl. split; [done|]. intros _. exists x.
        split; [apply elem_of_app; right; by apply list_elem_of_singleton|]. do 3 (split; [done|]).
        intros e' d' He' Hd' Hc'.
        apply elem_of_app in He' as [He'|He'].
        -- by rewrite (Hnone eq_refl e' d' He' Hd') in Hc'.
        -- apply list_elem_of_singleton in He' as ->.
           rewrite (Hxd d' Hd'). split; [done|lia].
    + (* the entry is rejected *)
      split.
      * intros Hf e d He Hd. apply elem_of_app in He as [He|He].
        -- by eapply Hnone.
        -- apply list_elem_of_singleton in He as ->. by rewrite (Hxd d Hd).
      * intros Hf. destruct (Hsome Hf) as (e & He & Hid & Hed & Hmin & Hbest).
        exists e. split; [apply elem_of_app; by left|]. do 3 (split; [done|]).
        intros e' d' He' Hd' Hc'.
        apply elem_of_app in He' as [He'|He'].
        -- exact (Hbest e' d' He' Hd' Hc').
        -- apply list_elem_of_singleton in He' as ->.
           rewrite (Hxd d' Hd') in Hc'. congruence.
Qed.

(** The loop over the whole table. *)
Lemma match_loop_spec (tracked : gmap Z nat) :
  tracked_alive h tracked →
  ∃ acc, match_loop center_point h query_point tracked = Some acc ∧
         match_inv (elements tracked) acc.
Proof.
  intros Halive. apply match_loop_prefix.
  - intros [id p] He. apply elem_of_elements in He. by eapply Halive.
  - intros l1 e l2 e' Hsplit He'. by eapply elements_ascending.
Qed.
End MatchLoop.

(** ** [getMatchByDistance] *)

Section GetMatch.
Variable center_point : ObjectModel → Coordinate.

Lemma getMatchByDistance_nearest (h : heap) (s : Aggregator) (model : ptr) :
  getMatchByDistance center_point h s model =
  r ← nearest center_point h (tracked_models_ s) model;
  Some (match r with Some id => (id, s) | None => nextModelId s end).
Proof.
  unfold getMatchByDistance, nearest.
  destruct (h !! model) as [m|]; simpl; [|done].
  destruct (match_loop _ _ _ _) as [acc|]; simpl; [|done].
  by destruct (found acc).
Qed.

(** The loop returns a nearest candidate, the one with the largest key
    among the nearest ones, and nothing when there is no candidate. *)
Lemma nearest_spec (h : heap) (tracked : gmap Z nat) (model : ptr) :
  is_Some (h !! model) → tracked_alive h tracked →
  ∃ r, nearest center_point h tracked model = Some r ∧
    match r with
    | Some id =>
        ∃ d, candidate center_point h tracked model id d ∧
          ∀ id' d', candidate center_point h tracked model id' d' →
            (d <=? d')%dbl = true ∧ ((d' <=? d)%dbl = true → id' ≤ id)
    | None => ∀ id' d', ¬ candidate center_point h tracked model id' d'
    end.
Proof.
  intros [q Hq] Halive. unfold nearest. rewrite Hq. simpl.
  destruct (match_loop_spec center_point h (center_point q) tracked Halive)
    as (acc & -> & Hnone & Hsome). simpl.
  eexists; split; [done|].
  destruct (found acc).
  - destruct (Hsome eq_refl) as ([id p] & He & Hid & (m & Hm & Hd) & Hmin & Hbest).
    apply elem_of_elements in He. simpl in *.
    exists (min_dist acc). split.
    + exists p, m, q. by rewrite Hid.
    + intros id' d' (p' & m' & q' & Hp' & Hm' & Hq' & -> & Hc').
      assert (q' = q) as -> by congruence. rewrite Hid.
      apply (Hbest (id', p')); [by apply elem_of_elements|by exists m'|done].
  - intros id' d' (p' & m' & q' & Hp' & Hm' & Hq' & -> & Hc').
    assert (q' = q) as -> by congruence.
    rewrite (Hnone eq_refl (id', p')) in Hc'; [done|by apply elem_of_elements|].
    by exists m'.
Qed.

Lemma nearest_tracked (h : heap) (tracked : gmap Z nat) (model : ptr) (id : Z) :
  tracked_alive h tracked →
  nearest center_point h tracked model = Some (Some id) →
  is_Some (tracked !! id).
Proof.
  intros Halive Hn.
  assert (is_Some (h !! model)) as Hq.
  { unfold nearest in Hn. destruct (h !! model); [done|by simpl in Hn]. }
  destruct (nearest_spec h tracked model Hq Halive) as (r & Hr & Hspec).
  rewrite Hn in Hr. injection Hr as <-.
  destruct Hspec as (d & (p & m & q & Hp & _) & _). by exists p.
Qed.

(** C3 (as the code has it).  A tracked object is a candidate exactly when
    its squared distance to the new model is [<= 0.05]; when there is a
    candidate, [getMatchByDistance] returns one of minimal squared distance
    and leaves the aggregator as it is, and among several candidates at
    that minimal distance it returns the one met last, which is the one
    with the largest ID; when there is none, it returns the value of the
    counter [next_model_id_] and increments the counter. *)
Theorem getMatchByDistance_spec (h : heap) (s : Aggregator) (model : ptr) :
  is_Some (h !! model) → tracked_alive h (tracked_models_ s) →
  ∃ id s', getMatchByDistance center_point h s model = Some (id, s') ∧
    ((∃ d, candidate center_point h (tracked_models_ s) model id d ∧ s' = s ∧
        ∀ id' d', candidate center_point h (tracked_models_ s) model id' d' →
          (d <=? d')%dbl = true ∧ ((d' <=? d)%dbl = true → id' ≤ id))
     ∨ ((∀ id' d', ¬ candidate center_point h (tracked_models_ s) model id' d') ∧
        id = next_model_id_ s ∧
        s' = with_next_model_id (next_model_id_ s + 1) s)).
Proof.
  intros Hq Halive.
  destruct (nearest_spec h (tracked_models_ s) model Hq Halive)
    as ([id|] & Hr & Hspec);
    rewrite getMatchByDistance_nearest, Hr; simpl.
  - exists id, s. split; [done|]. left.
    destruct Hspec as (d & Hc & Hbest). by exists d.
  - eexists _, _. split; [done|]. by right.
Qed.
End GetMatch.

(** C3, witness: the tie of [tie_heap]. *)
Lemma getMatchByDistance_spec_witness :
  is_Some (tie_heap !! 20%nat) ∧ tracked_alive tie_heap (tracked_models_ tie_agg) ∧
  ∃ id s', getMatchByDistance example_center_point tie_heap tie_agg 20%nat
             = Some (id, s') ∧
    ((∃ d, candidate example_center_point tie_heap (tracked_models_ tie_agg)
             20%nat id d ∧ s' = tie_agg ∧
        ∀ id' d', candidate example_center_point tie_heap
                    (tracked_models_ tie_agg) 20%nat id' d' →
          (d <=? d')%dbl = true ∧ ((d' <=? d)%dbl = true → id' ≤ id))
     ∨ ((∀ id' d', ¬ candidate example_center_point tie_heap
                      (tracked_models_ tie_agg) 20%nat id' d') ∧
        id = next_model_id_ tie_agg ∧
        s' = with_next_model_id (next_model_id_ tie_agg + 1) tie_agg)).
Proof.
  assert (is_Some (tie_heap !! 20%nat)) as H1 by (vm_compute; eauto).
  assert (tracked_alive tie_heap (tracked_models_ tie_agg)) as H2.
  { unfold tracked_alive. by_compute. }
  split; [exact H1|]. split; [exact H2|].
  exact (getMatchByDistance_spec example_center_point tie_heap tie_agg 20%nat H1 H2).
Defined.

(** C3, counterexample to "first-seen wins on an exact tie": the loop meets
    the tracked model 0 first and the model 1 second, both at the squared
    distance 1/64, and the match is the model 1. *)
Lemma getMatchByDistance_tie_counterexample :
  elements (tracked_models_ tie_agg) = [(0, 10%nat); (1, 11%nat)] ∧
  sq_dist (on_x_axis 1 (-3)) origin = Double.dyadic 1 (-6) ∧
  sq_dist (on_x_axis (-1) (-3)) origin = Double.dyadic 1 (-6) ∧
  (Double.dyadic 1 (-6) <=? tau)%dbl = true ∧
  getMatchByDistance example_center_point tie_heap tie_agg 20%nat
    = Some (1, tie_agg).
Proof. repeat split; vm_compute; reflexivity. Qed.

(** ** The first loop of [matchToPrevious] *)

Lemma with_next_model_id_same (s : Aggregator) :
  with_next_model_id (next_model_id_ s + 0) s = s.
Proof. destruct s; unfold with_next_model_id; simpl; f_equal; lia. Qed.

Lemma with_next_model_id_twice (n m : Z) (s : Aggregator) :
  with_next_model_id n (with_next_model_id m s) = with_next_model_id n s.
Proof. done. Qed.

Lemma indexed_lookup (ids : list Z) (i k : nat) :
  indexed i ids !! k = (λ id, (id, (i + k)%nat)) <$> ids !! k.
Proof.
  revert i k. induction ids as [|id ids IH]; intros i k; [done|].
  destruct k as [|k]; simpl.
  - by rewrite Nat.add_0_r.
  - rewrite IH. by rewrite Nat.add_succ_r.
Qed.

Lemma indexed_fst (ids : list Z) (i : nat) : (indexed i ids).*1 = ids.
Proof. revert i. induction ids as [|id ids IH]; intros i; simpl; by rewrite ?IH. Qed.

Lemma indexed_length (ids : list Z) (i : nat) :
  length (indexed i ids) = length ids.
Proof. revert i. induction ids as [|id ids IH]; intros i; simpl; by rewrite ?IH. Qed.

Lemma assign_length (n : Z) (rs : list (option Z)) :
  length (assign n rs) = length rs.
Proof.
  revert n. induction rs as [|[id|] rs IH]; intros n; simpl; by rewrite ?IH.
Qed.

Lemma fresh_count_nonneg (rs : list (option Z)) : 0 ≤ fresh_count rs.
Proof. induction rs as [|[id|] rs IH]; simpl; lia. Qed.

(** The ID of the [k]-th new obstacle. *)
Lemma assign_lookup (n : Z) (rs : list (option Z)) (k : nat) (r : option Z) :
  rs !! k = Some r →
  assign n rs !! k = Some (match r with
                           | Some id => id
                           | None => n + fresh_count (take k rs)
                           end).
Proof.
  revert n k. induction rs as [|r' rs IH]; intros n k Hk; [done|].
  destruct k as [|k]; simpl in *.
  - injection Hk as ->. destruct r; simpl; [done|]. f_equal. lia.
  - destruct r' as [id'|]; simpl; rewrite (IH _ _ Hk); destruct r; try done.
    f_equal. lia.
Qed.

Section MatchLoop1.
Variable center_point : ObjectModel → Coordinate.
Variable h : heap.

Lemma match_loop1_spec (obs : list ptr) (st0 st : MatchState) :
  foldM (match_one center_point h) st0 obs = Some st →
  let T := tracked_models_ (ms_agg st0) in
  let n0 := next_model_id_ (ms_agg st0) in
  ∃ rs, Forall2 (λ p r, nearest center_point h T p = Some r) obs rs ∧
    ms_agg st = with_next_model_id (n0 + fresh_count rs) (ms_agg st0) ∧
    ms_i st = (ms_i st0 + length obs)%nat ∧
    correspondence st =
      record_all (correspondence st0) (indexed (ms_i st0) (assign n0 rs)) ∧
    new_in_frame st =
      new_in_frame st0 ++
      filter (λ e, T !! e.1 = None) (indexed (ms_i st0) (assign n0 rs)).
Proof.
  revert st0. induction obs as [|p obs IH]; intros st0 Hrun; simpl in *.
  - injection Hrun as <-. exists []. split; [constructor|].
    rewrite with_next_model_id_same, Nat.add_0_r, app_nil_r. done.
  - destruct (match_one center_point h st0 p) as [st1|] eqn:Hone;
      simpl in Hrun; [|done].
    unfold match_one in Hone. rewrite getMatchByDistance_nearest in Hone.
    destruct (nearest center_point h (tracked_models_ (ms_agg st0)) p)
      as [r|] eqn:Hr; simpl in Hone; [|done].
    destruct (IH st1 Hrun) as (rs & Hrs & Hagg & Hi & Hcorr & Hnif).
    exists (r :: rs).
    destruct r as [id|]; simpl in Hone; injection Hone as <-; simpl in *.
    + split; [by constructor|]. split; [done|]. split; [lia|].
      split; [done|].
      rewrite Hnif. unfold filter at 2. simpl.
      destruct (tracked_models_ (ms_agg st0) !! id) eqn:Hid.
      * rewrite decide_False by done. done.
      * rewrite decide_True by done. by rewrite <- app_assoc.
    + split; [by constructor|].
      split. { rewrite Hagg. unfold with_next_model_id; simpl. f_equal. lia. }
      split; [lia|]. split; [done|].
      rewrite Hnif. unfold filter at 2. simpl.
      destruct (tracked_models_ (ms_agg st0) !! next_model_id_ (ms_agg st0))
        eqn:Hid.
      * rewrite decide_False by done. done.
      * rewrite decide_True by done. by rewrite <- app_assoc.
Qed.
End MatchLoop1.

(** The entry that the loop leaves for an ID is the last one recorded. *)
Lemma record_all_snoc (c : gmap Z nat) (l : list (Z * nat)) (e : Z * nat) :
  record_all c (l ++ [e]) = <[e.1 := e.2]> (record_all c l).
Proof. unfold record_all. by rewrite foldl_app. Qed.

Lemma record_all_notin (c : gmap Z nat) (l : list (Z * nat)) (id : Z) :
  id ∉ l.*1 → record_all c l !! id = c !! id.
Proof.
  induction l as [|e l IH] using rev_ind; intros Hid; [done|].
  rewrite record_all_snoc. rewrite fmap_app, not_elem_of_app in Hid.
  destruct Hid as [Hl He]. rewrite lookup_insert_ne; [by apply IH|].
  intros Heq. apply He. simpl. by apply list_elem_of_singleton.
Qed.

Lemma record_all_last (c : gmap Z nat) (l1 l2 : list (Z * nat)) (id : Z) (i : nat) :
  id ∉ l2.*1 → record_all c (l1 ++ (id, i) :: l2) !! id = Some i.
Proof.
  intros Hid. unfold record_all. rewrite foldl_app. simpl.
  fold (record_all (<[id := i]> (foldl (λ c e, <[e.1 := e.2]> c) c l1)) l2).
  rewrite record_all_notin by done. apply lookup_insert_eq.
Qed.

Lemma record_all_inv (c : gmap Z nat) (l : list (Z * nat)) (id : Z) (i : nat) :
  record_all c l !! id = Some i →
  ((id ∉ l.*1) ∧ c !! id = Some i) ∨
  (∃ l1 l2, l = l1 ++ (id, i) :: l2 ∧ id ∉ l2.*1).
Proof.
  induction l as [|e l IH] using rev_ind; intros Hl.
  - left. split; [apply not_elem_of_nil|done].
  - rewrite record_all_snoc in Hl.
    destruct (decide (e.1 = id)) as [Heq|Hne].
    + rewrite <- Heq, lookup_insert_eq in Hl. injection Hl as <-.
      right. exists l, []. split; [|apply not_elem_of_nil].
      rewrite <- Heq. by destruct e.
    + rewrite lookup_insert_ne in Hl by done.
      destruct (IH Hl) as [[Hnot Hc]|(l1 & l2 & -> & Hnot)].
      * left. split; [|done]. rewrite fmap_app, not_elem_of_app.
        split; [done|]. simpl. rewrite list_elem_of_singleton. congruence.
      * right. exists l1, (l2 ++ [e]). split; [by rewrite <- app_assoc|].
        rewrite fmap_app, not_elem_of_app. split; [done|].
        simpl. rewrite list_elem_of_singleton. congruence.
Qed.

(** ** The second loop of [matchToPrevious] *)

Section InsertNew.
Variable obs : list ptr.

(** The members that the loop leaves alone. *)
Lemma insert_new_frame (nif : list (Z * nat)) (h0 h' : heap) (s0 s' : Aggregator) :
  foldM (insert_new obs) (h0, s0) nif = Some (h', s') →
  next_model_id_ s' = next_model_id_ s0 ∧
  materialized_models_ s' = materialized_models_ s0 ∧
  model_idx_in_list_ s' = model_idx_in_list_ s0 ∧
  frame_cnt_ s' = frame_cnt_ s0 ∧
  dom h' = dom h0 ∧
  (∀ id, id ∉ nif.*1 →
     tracked_models_ s' !! id = tracked_models_ s0 !! id ∧
     frames_found_ s' !! id = frames_found_ s0 !! id ∧
     frames_lost_ s' !! id = frames_lost_ s0 !! id) ∧
  (∀ p, (∀ e, e ∈ nif → obs !! e.2 ≠ Some p) → h' !! p = h0 !! p).
Proof.
  revert h0 s0. induction nif as [|[id i] nif IH]; intros h0 s0 Hrun; simpl in *.
  - injection Hrun as <- <-. repeat split; done.
  - destruct (obs !! i) as [p|] eqn:Hp; simpl in Hrun; [|done].
    destruct (h0 !! p) as [m|] eqn:Hm; simpl in Hrun; [|done].
    destruct (IH _ _ Hrun) as (Hn & Hmat & Hidx & Hcnt & Hdom & Hmaps & Hheap).
    simpl in *. repeat split; try done.
    + rewrite Hdom, dom_insert_L.
      assert (p ∈ dom h0) by (apply elem_of_dom; eauto). set_solver.
    + destruct (Hmaps id0) as (-> & _ & _); [set_solver|].
      apply lookup_insert_ne. set_solver.
    + destruct (Hmaps id0) as (_ & -> & _); [set_solver|].
      apply lookup_insert_ne. set_solver.
    + destruct (Hmaps id0) as (_ & _ & ->); [set_solver|].
      apply lookup_insert_ne. set_solver.
    + intros p' Hp'. rewrite Hheap.
      * apply lookup_insert_ne. intros ->. by apply (Hp' (id, i)); [left|].
      * intros e He. apply Hp'. by right.
Qed.

(** The entries that the loop writes. *)
Lemma insert_new_written (nif : list (Z * nat)) (h0 h' : heap) (s0 s' : Aggregator) :
  foldM (insert_new obs) (h0, s0) nif = Some (h', s') →
  NoDup nif.*1 →
  ∀ id i, (id, i) ∈ nif →
    ∃ p, obs !! i = Some p ∧
      tracked_models_ s' !! id = Some p ∧
      frames_found_ s' !! id = Some 0 ∧
      frames_lost_ s' !! id = Some 0 ∧
      ((∀ e, e ∈ nif → e ≠ (id, i) → obs !! e.2 ≠ Some p) →
       h' !! p = set_id id <$> h0 !! p).
Proof.
  revert h0 s0. induction nif as [|[id0 i0] nif IH];
    intros h0 s0 Hrun Hnd id i Hin; [by apply elem_of_nil in Hin|].
  simpl in *. apply NoDup_cons in Hnd as [Hid0 Hnd].
  destruct (obs !! i0) as [p0|] eqn:Hp0; simpl in Hrun; [|done].
  destruct (h0 !! p0) as [m0|] eqn:Hm0; simpl in Hrun; [|done].
  apply elem_of_cons in Hin as [Heq|Hin].
  - injection Heq as -> ->.
    destruct (insert_new_frame _ _ _ _ _ Hrun) as (_ & _ & _ & _ & _ & Hmaps & Hheap).
    destruct (Hmaps id0 Hid0) as (Ht & Hf & Hl). simpl in *.
    exists p0. rewrite Ht, Hf, Hl, !lookup_insert_eq. repeat split; try done.
    intros Hsep. rewrite Hheap, lookup_insert_eq, Hm0; [done|].
    intros e He. apply Hsep; [by right|].
    intros ->. apply Hid0. by apply (list_elem_of_fmap_2 fst) in He.
  - destruct (IH _ _ Hrun Hnd id i Hin) as (p & Hp & Ht & Hf & Hl & Hheap).
    exists p. repeat split; try done.
    intros Hsep. rewrite Hheap.
    + rewrite lookup_insert_ne; [done|].
      intros ->. apply (Hsep (id0, i0)); [by left| |done].
      intros [= -> ->]. apply Hid0. by apply (list_elem_of_fmap_2 fst) in Hin.
    + intros e He Hne. apply Hsep; [by right|done].
Qed.

(** The loop is defined when the new obstacles it inserts exist. *)
Lemma insert_new_defined (nif : list (Z * nat)) (h0 : heap) (s0 : Aggregator) :
  (∀ e, e ∈ nif → ∃ p, obs !! e.2 = Some p ∧ is_Some (h0 !! p)) →
  is_Some (foldM (insert_new obs) (h0, s0) nif).
Proof.
  revert h0 s0. induction nif as [|[id i] nif IH]; intros h0 s0 Hok; simpl.
  - by eexists.
  - destruct (Hok (id, i)) as (p & Hp & [m Hm]); [by left|]. simpl in *.
    rewrite Hp. simpl. rewrite Hm. simpl. apply IH.
    intros e He. destruct (Hok e) as (p' & Hp' & Hm'); [by right|].
    exists p'. split; [done|].
    destruct (decide (p = p')) as [->|Hne].
    + rewrite lookup_insert_eq. by eexists.
    + by rewrite lookup_insert_ne.
Qed.
End InsertNew.

(** ** The IDs of a frame *)

Lemma fresh_count_take_le (rs : list (option Z)) (k1 k2 : nat) :
  (k1 ≤ k2)%nat → fresh_count (take k1 rs) ≤ fresh_count (take k2 rs).
Proof.
  revert k1 k2. induction rs as [|r rs IH]; intros k1 k2 Hk.
  - by rewrite !take_nil.
  - destruct k1 as [|k1]; simpl; [apply fresh_count_nonneg|].
    destruct k2 as [|k2]; [lia|]. simpl.
    specialize (IH k1 k2 ltac:(lia)). destruct r; lia.
Qed.

Lemma fresh_count_take_S (rs : list (option Z)) (k : nat) :
  rs !! k = Some None →
  fresh_count (take (S k) rs) = fresh_count (take k rs) + 1.
Proof.
  revert k. induction rs as [|r rs IH]; intros k Hk; [done|].
  destruct k as [|k].
  - injection Hk as ->. rewrite take_0. by destruct rs.
  - specialize (IH k Hk).
    change (take (S (S k)) (r :: rs)) with (r :: take (S k) rs).
    change (take (S k) (r :: rs)) with (r :: take k rs).
    destruct r; cbn [fresh_count]; lia.
Qed.

Lemma fresh_count_take_lt (rs : list (option Z)) (k1 k2 : nat) :
  (k1 < k2)%nat → rs !! k1 = Some None →
  fresh_count (take k1 rs) < fresh_count (take k2 rs).
Proof.
  intros Hk Hr. pose proof (fresh_count_take_S rs k1 Hr).
  pose proof (fresh_count_take_le rs (S k1) k2 ltac:(lia)). lia.
Qed.

Lemma fresh_count_take_all (rs : list (option Z)) (k : nat) :
  fresh_count (take k rs) ≤ fresh_count rs.
Proof.
  rewrite <- (firstn_all rs) at 2.
  destruct (decide (k ≤ length rs)%nat).
  - by apply fresh_count_take_le.
  - rewrite (take_ge rs k) by lia. by rewrite firstn_all.
Qed.

(** The entry of [correspondence] for an ID is the index of the last new
    obstacle that was given the ID. *)
Lemma record_all_indexed (ids : list Z) (id : Z) (i : nat) :
  record_all ∅ (indexed 0 ids) !! id = Some i ↔
  ids !! i = Some id ∧ ∀ k, (i < k)%nat → ids !! k ≠ Some id.
Proof.
  split.
  - intros Hl. apply record_all_inv in Hl as [[_ Hl]|(l1 & l2 & Hsplit & Hnot)];
      [done|].
    assert (indexed 0 ids !! length l1 = Some (id, i)) as Hat.
    { rewrite Hsplit. by rewrite list_lookup_middle. }
    rewrite indexed_lookup in Hat. simpl in Hat.
    destruct (ids !! length l1) as [id'|] eqn:Hid; simpl in Hat; [|done].
    injection Hat as -> <-. split; [done|].
    intros k Hk Hidk. apply Hnot.
    assert (indexed 0 ids !! k = Some (id, k)) as Hatk.
    { rewrite indexed_lookup, Hidk. done. }
    rewrite Hsplit in Hatk.
    rewrite lookup_app_r in Hatk by lia.
    destruct (k - length l1)%nat as [|j] eqn:Hj; [lia|]. simpl in Hatk.
    apply (list_elem_of_fmap_2 fst l2 (id, k)).
    by eapply list_elem_of_lookup_2.
  - intros [Hid Hlast].
    assert (indexed 0 ids !! i = Some (id, i)) as Hat.
    { rewrite indexed_lookup, Hid. done. }
    rewrite <- (take_drop_middle _ _ _ Hat).
    apply record_all_last.
    intros Hin. apply list_elem_of_fmap in Hin as ([id' k] & Heq & Hin).
    simpl in Heq. subst id'.
    apply list_elem_of_lookup_1 in Hin as [j Hj].
    rewrite lookup_drop, indexed_lookup in Hj. simpl in Hj.
    destruct (ids !! S (i + j)) as [id'|] eqn:Hid'; simpl in Hj; [|done].
    injection Hj as -> <-. apply (Hlast (S (i + j))); [lia|done].
Qed.

Lemma foldM_Some_body {A B} (f : A → B → option A) (a a' : A) (l : list B) :
  foldM f a l = Some a' → ∀ b, b ∈ l → ∃ a0, is_Some (f a0 b).
Proof.
  revert a. induction l as [|b0 l IH]; intros a Hrun b Hb;
    [by apply elem_of_nil in Hb|].
  simpl in Hrun. destruct (f a b0) as [a1|] eqn:Hf; simpl in Hrun; [|done].
  apply elem_of_cons in Hb as [->|Hb].
  - exists a. by rewrite Hf.
  - by apply (IH a1).
Qed.

Lemma elem_of_indexed (ids : list Z) (id : Z) (k : nat) :
  (id, k) ∈ indexed 0 ids ↔ ids !! k = Some id.
Proof.
  split.
  - intros Hin. apply list_elem_of_lookup_1 in Hin as [j Hj].
    rewrite indexed_lookup in Hj.
    destruct (ids !! j) as [id'|] eqn:Hid; simpl in Hj; [|done].
    by injection Hj as -> <-.
  - intros Hid. apply (list_elem_of_lookup_2 _ k).
    by rewrite indexed_lookup, Hid.
Qed.

Section Matched.
Variable center_point : ObjectModel → Coordinate.
Variable h : heap.

(** A search that returns has read every tracked model. *)
Lemma nearest_alive (tracked : gmap Z nat) (model : ptr) (r : option Z) :
  nearest center_point h tracked model = Some r → tracked_alive h tracked.
Proof.
  unfold nearest, match_loop. intros Hn.
  destruct (h !! model) as [q|]; simpl in Hn; [|done].
  destruct (foldM _ _ _) as [acc|] eqn:Hloop; simpl in Hn; [|done].
  intros id p Hp. apply elem_of_elements in Hp.
  destruct (foldM_Some_body _ _ _ _ Hloop _ Hp) as (a0 & Hsome). simpl in Hsome.
  destruct (h !! p); [done|]. by destruct Hsome.
Qed.

Lemma nearest_Some_tracked (tracked : gmap Z nat) (model : ptr) (id : Z) :
  nearest center_point h tracked model = Some (Some id) →
  is_Some (tracked !! id).
Proof.
  intros Hn. eapply nearest_tracked; [|done]. by eapply nearest_alive.
Qed.

(** The new IDs of a frame are pairwise distinct values of the counter. *)
Lemma new_in_frame_keys (T : gmap Z nat) (rs : list (option Z)) (n : Z) (i : nat) :
  (∀ k id, rs !! k = Some (Some id) → is_Some (T !! id)) →
  let keys := (filter (λ e, T !! e.1 = None) (indexed i (assign n rs))).*1 in
  NoDup keys ∧ Forall (λ id, n ≤ id) keys.
Proof.
  revert n i. induction rs as [|[id|] rs IH]; intros n i Hin; simpl.
  - split; constructor.
  - rewrite filter_cons_False.
    + apply IH. intros k id' Hk. by apply (Hin (S k)).
    + simpl. destruct (Hin 0%nat id eq_refl) as [p ->]. done.
  - destruct (IH (n + 1) (S i)) as [Hnd Hge].
    { intros k id' Hk. by apply (Hin (S k)). }
    assert (Forall (λ id, n ≤ id)
              (filter (λ e, T !! e.1 = None)
                 (indexed (S i) (assign (n + 1) rs))).*1) as Hge'.
    { eapply Forall_impl; [exact Hge|]. simpl. lia. }
    destruct (decide (T !! n = None)) as [Hn|Hn].
    + rewrite filter_cons_True by done. simpl. split.
      * constructor; [|done]. intros Hin'.
        rewrite Forall_forall in Hge. specialize (Hge _ Hin'). simpl in Hge. lia.
      * by constructor.
    + rewrite filter_cons_False by done. done.
Qed.
End Matched.

(** ** [matchToPrevious] *)

Section MatchToPrevious.
Variable center_point : ObjectModel → Coordinate.

(** What a call leaves behind, in terms of the searches [rs] of the new
    obstacles against the table the call started with. *)
Lemma matchToPrevious_spec (h h' : heap) (s s' : Aggregator)
    (obs : list ptr) (corr : gmap Z nat) :
  matchToPrevious center_point h s obs = Some (corr, h', s') →
  let T := tracked_models_ s in
  ∃ rs, Forall2 (λ p r, nearest center_point h T p = Some r) obs rs ∧
    let ids := assign (next_model_id_ s) rs in
    corr = record_all ∅ (indexed 0 ids) ∧
    next_model_id_ s' = next_model_id_ s + fresh_count rs ∧
    materialized_models_ s' = materialized_models_ s ∧
    model_idx_in_list_ s' = model_idx_in_list_ s ∧
    frame_cnt_ s' = frame_cnt_ s ∧
    dom h' = dom h ∧
    (∀ id, (∀ k, ids !! k = Some id → T !! id ≠ None) →
       tracked_models_ s' !! id = T !! id ∧
       frames_found_ s' !! id = frames_found_ s !! id ∧
       frames_lost_ s' !! id = frames_lost_ s !! id) ∧
    (∀ k id, ids !! k = Some id → T !! id = None →
       ∃ p, obs !! k = Some p ∧
         tracked_models_ s' !! id = Some p ∧
         frames_found_ s' !! id = Some 0 ∧
         frames_lost_ s' !! id = Some 0 ∧
         ((∀ k' id', ids !! k' = Some id' → T !! id' = None → k' ≠ k →
             obs !! k' ≠ Some p) →
          h' !! p = set_id id <$> h !! p)) ∧
    (∀ p, (∀ k id, ids !! k = Some id → T !! id = None → obs !! k ≠ Some p) →
       h' !! p = h !! p).
Proof.
  intros Hrun T. unfold matchToPrevious in Hrun.
  destruct (foldM (match_one center_point h) _ obs) as [st|] eqn:Hloop1;
    simpl in Hrun; [|done].
  destruct (foldM (insert_new obs) _ _) as [[h1 s1]|] eqn:Hloop2;
    simpl in Hrun; [|done].
  injection Hrun as <- <- <-.
  apply match_loop1_spec in Hloop1 as (rs & Hrs & Hagg & _ & Hcorr & Hnif).
  simpl in *. fold T in Hrs, Hnif.
  set (ids := assign (next_model_id_ s) rs) in *.
  rewrite Hagg in Hloop2.
  assert (∀ id k, (id, k) ∈ new_in_frame st ↔ ids !! k = Some id ∧ T !! id = None)
    as Hmem.
  { intros id k. rewrite Hnif, list_elem_of_filter, elem_of_indexed. simpl.
    tauto. }
  assert (NoDup (new_in_frame st).*1) as Hnd.
  { rewrite Hnif. apply new_in_frame_keys. intros k id Hk.
    destruct (Forall2_lookup_r _ _ _ _ _ Hrs Hk) as (p & _ & Hn).
    by apply nearest_Some_tracked in Hn. }
  destruct (insert_new_frame _ _ _ _ _ _ Hloop2)
    as (Hn & Hmat & Hidx & Hcnt & Hdom & Hmaps & Hheap).
  exists rs. split; [done|]. simpl in *.
  split; [done|]. split; [done|]. do 4 (split; [done|]).
  split; [|split].
  - intros id Hnot. apply Hmaps.
    intros Hin. apply list_elem_of_fmap in Hin as ([id' k] & Heq & Hin).
    simpl in Heq. subst id'. apply Hmem in Hin as [Hid HT]. by apply (Hnot k).
  - intros k id Hid HT.
    destruct (insert_new_written _ _ _ _ _ _ Hloop2 Hnd id k)
      as (p & Hp & Ht & Hf & Hl & Hset); [by apply Hmem|].
    exists p. do 4 (split; [done|]).
    intros Hsep. apply Hset. intros [id' k'] He Hne. simpl.
    apply Hmem in He as [Hid' HT']. apply Hsep with id'; [done..|].
    intros Hk. apply Hne. subst k'. f_equal. unfold ids in *. congruence.
  - intros p Hsep. apply Hheap. intros [id k] He. simpl.
    apply Hmem in He as [Hid HT]. by apply Hsep with id.
Qed.
End MatchToPrevious.

Section MatchToPreviousDefined.
Variable center_point : ObjectModel → Coordinate.

Lemma match_loop1_defined (h : heap) (obs : list ptr) (st0 : MatchState) :
  Forall (λ p, is_Some (h !! p)) obs →
  tracked_alive h (tracked_models_ (ms_agg st0)) →
  is_Some (foldM (match_one center_point h) st0 obs).
Proof.
  revert st0. induction obs as [|p obs IH]; intros st0 Hobs Halive; simpl.
  - by eexists.
  - apply Forall_cons in Hobs as [Hp Hobs].
    destruct (nearest_spec center_point h _ p Hp Halive) as (r & Hr & _).
    unfold match_one. rewrite getMatchByDistance_nearest, Hr. simpl.
    destruct r as [id|]; simpl; by apply IH.
Qed.

(** The call is defined when the new obstacles and the tracked models
    exist. *)
Lemma matchToPrevious_defined (h : heap) (s : Aggregator) (obs : list ptr) :
  Forall (λ p, is_Some (h !! p)) obs →
  tracked_alive h (tracked_models_ s) →
  is_Some (matchToPrevious center_point h s obs).
Proof.
  intros Hobs Halive. unfold matchToPrevious.
  destruct (match_loop1_defined h obs
              {| ms_agg := s; correspondence := ∅; new_in_frame := []; ms_i := 0 |}
              Hobs Halive) as [st Hst].
  rewrite Hst. simpl.
  apply match_loop1_spec in Hst as (rs & Hrs & _ & _ & _ & Hnif). simpl in *.
  destruct (insert_new_defined obs (new_in_frame st) h (ms_agg st))
    as [[h1 s1] Hrun].
  - intros [id k] He. rewrite Hnif in He.
    apply list_elem_of_filter in He as [_ He]. apply elem_of_indexed in He.
    simpl. apply lookup_lt_Some in He.
    rewrite assign_length, <- (Forall2_length _ _ _ Hrs) in He.
    destruct (lookup_lt_is_Some_2 obs k He) as [p Hp].
    exists p. split; [done|]. rewrite Forall_forall in Hobs. apply Hobs.
    by eapply list_elem_of_lookup_2.
  - rewrite Hrun. simpl. by eexists.
Qed.
End MatchToPreviousDefined.

(** ** The IDs under the invariant of the counter *)

Section Ids.
Variable center_point : ObjectModel → Coordinate.
Variable h : heap.
Variable s : Aggregator.
Variable obs : list ptr.
Variable rs : list (option Z).
Hypothesis Hbelow : ids_below s.
Hypothesis Hrs :
  Forall2 (λ p r, nearest center_point h (tracked_models_ s) p = Some r) obs rs.

Let T := tracked_models_ s.
Let n0 := next_model_id_ s.
Let ids := assign n0 rs.

Lemma ids_matched (k : nat) (p : ptr) (id : Z) :
  obs !! k = Some p → nearest center_point h T p = Some (Some id) →
  ids !! k = Some id ∧ is_Some (T !! id) ∧ id < n0.
Proof.
  intros Hp Hn.
  destruct (Forall2_lookup_l _ _ _ _ _ Hrs Hp) as (r & Hr & Hn').
  fold T in Hn'. rewrite Hn in Hn'. injection Hn' as <-.
  pose proof (nearest_Some_tracked _ _ _ _ _ Hn) as [q Hq].
  split; [|split; [by exists q|]].
  - unfold ids. by rewrite (assign_lookup _ _ _ _ Hr).
  - by apply (Hbelow id q).
Qed.

Lemma ids_fresh (k : nat) (p : ptr) :
  obs !! k = Some p → nearest center_point h T p = Some None →
  ∃ id, ids !! k = Some id ∧ id = n0 + fresh_count (take k rs) ∧
        T !! id = None ∧ n0 ≤ id < n0 + fresh_count rs ∧ rs !! k = Some None.
Proof.
  intros Hp Hn.
  destruct (Forall2_lookup_l _ _ _ _ _ Hrs Hp) as (r & Hr & Hn').
  fold T in Hn'. rewrite Hn in Hn'. injection Hn' as <-.
  exists (n0 + fresh_count (take k rs)).
  split; [unfold ids; by rewrite (assign_lookup _ _ _ _ Hr)|].
  split; [done|].
  pose proof (fresh_count_nonneg (take k rs)).
  pose proof (fresh_count_take_S rs k Hr).
  pose proof (fresh_count_take_all rs (S k)).
  split; [|split; [lia|done]].
  destruct (T !! (n0 + fresh_count (take k rs))) as [q|] eqn:Hq; [|done].
  apply (Hbelow _ q) in Hq. fold n0 in Hq. lia.
Qed.

(** An ID met in the frame is a match or a fresh ID. *)
Lemma ids_inv (k : nat) (id : Z) :
  ids !! k = Some id →
  ∃ p, obs !! k = Some p ∧
    ((nearest center_point h T p = Some (Some id) ∧ is_Some (T !! id) ∧ id < n0)
     ∨ (nearest center_point h T p = Some None ∧
        id = n0 + fresh_count (take k rs) ∧ T !! id = None ∧
        n0 ≤ id < n0 + fresh_count rs)).
Proof.
  intros Hid.
  assert (k < length obs)%nat as Hk.
  { apply lookup_lt_Some in Hid. unfold ids in Hid.
    by rewrite assign_length, <- (Forall2_length _ _ _ Hrs) in Hid. }
  destruct (lookup_lt_is_Some_2 obs k Hk) as [p Hp].
  exists p. split; [done|].
  destruct (Forall2_lookup_l _ _ _ _ _ Hrs Hp) as ([id'|] & Hr & Hn).
  - destruct (ids_matched k p id' Hp Hn) as (Hid' & HT & Hlt).
    rewrite Hid in Hid'. injection Hid' as ->. by left.
  - destruct (ids_fresh k p Hp Hn) as (id' & Hid' & Heq & HT & Hrange & _).
    rewrite Hid in Hid'. injection Hid' as ->. by right.
Qed.

(** A fresh ID is given to one new obstacle only. *)
Lemma ids_fresh_unique (k k' : nat) (p : ptr) (id : Z) :
  obs !! k = Some p → nearest center_point h T p = Some None →
  ids !! k = Some id → ids !! k' = Some id → k' = k.
Proof.
  intros Hp Hn Hid Hid'.
  destruct (ids_fresh k p Hp Hn) as (id0 & Hid0 & Heq & HT & Hrange & Hr).
  rewrite Hid in Hid0. injection Hid0 as <-.
  destruct (ids_inv k' id Hid') as (p' & Hp' & [(_ & _ & Hlt)|(Hn' & Heq' & _)]);
    [lia|].
  destruct (ids_fresh k' p' Hp' Hn') as (_ & _ & _ & _ & _ & Hr').
  destruct (Nat.lt_trichotomy k k') as [Hlt|[Heq0|Hlt]]; [|done|].
  - pose proof (fresh_count_take_lt rs k k' Hlt Hr). lia.
  - pose proof (fresh_count_take_lt rs k' k Hlt Hr'). lia.
Qed.
End Ids.

(** ** Distances to a point that is not finite *)

Lemma binary_round_aux_unsigned (mx ex : Z) (lx : location) :
  unsigned (binary_round_aux Double.prec Double.emax false mx ex lx).
Proof.
  unfold binary_round_aux.
  destruct (shr_fexp _ _ mx ex lx) as [mrs' e'].
  destruct (shr_fexp _ _ _ e' loc_Exact) as [mrs'' e''].
  destruct (shr_m mrs''); [done| |done].
  by destruct (Z.leb _ _).
Qed.

Lemma unbounded_unsigned (d : double) : unbounded d → unsigned d.
Proof. by intros [-> | ->]. Qed.

Lemma sub_not_finite (a b : double) :
  Double.is_finite a = false ∨ Double.is_finite b = false →
  Double.is_finite (a - b)%dbl = false.
Proof.
  unfold Double.sub.
  destruct a as [[]|[]| |[] ma ea], b as [[]|[]| |[] mb eb]; simpl;
    intros [H|H]; done.
Qed.

Lemma square_unsigned (a : double) : unsigned (a * a)%dbl.
Proof.
  unfold Double.mul.
  destruct a as [[]|[]| |[] ma ea]; simpl; try done;
    apply binary_round_aux_unsigned.
Qed.

Lemma square_not_finite (a : double) :
  Double.is_finite a = false → unbounded (a * a)%dbl.
Proof.
  unfold Double.mul, unbounded.
  destruct a as [[]|[]| |[] ma ea]; simpl; try done; auto.
Qed.

Lemma binary_normalize_pos_unsigned (m : positive) (e : Z) :
  unsigned (binary_normalize Double.prec Double.emax (Zpos m) e false).
Proof.
  unfold binary_normalize, binary_round.
  destruct (shl_align _ _ _) as [mz ez]. apply binary_round_aux_unsigned.
Qed.

Lemma add_unsigned (a b : double) :
  unsigned a → unsigned b → unsigned (a + b)%dbl.
Proof.
  unfold Double.add.
  destruct a as [[]|[]| |[] ma ea], b as [[]|[]| |[] mb eb]; try done.
  intros _ _. unfold SFadd, cond_Zopp.
  apply binary_normalize_pos_unsigned.
Qed.

Lemma add_unbounded_l (a b : double) :
  unbounded a → unsigned b → unbounded (a + b)%dbl.
Proof.
  unfold Double.add, unbounded.
  intros [-> | ->]; destruct b as [[]|[]| |[] mb eb]; simpl; try done; auto.
Qed.

Lemma add_unbounded_r (a b : double) :
  unsigned a → unbounded b → unbounded (a + b)%dbl.
Proof.
  unfold Double.add, unbounded.
  intros Ha [-> | ->]; destruct a as [[]|[]| |[] ma ea]; simpl; try done; auto.
Qed.

Lemma unbounded_not_accepted (d : double) :
  unbounded d → (d <=? tau)%dbl = false.
Proof. by intros [-> | ->]. Qed.

(** No squared distance to a point with a coordinate that is not finite
    passes the test against 0.05. *)
Lemma sq_dist_not_finite (p q : Coordinate) :
  Coord.is_finite q = false → (sq_dist p q <=? tau)%dbl = false.
Proof.
  intros Hq. apply unbounded_not_accepted. unfold sq_dist.
  unfold Coord.is_finite in Hq.
  destruct (Double.is_finite (Coord.x q)) eqn:Hx; simpl in Hq.
  - destruct (Double.is_finite (Coord.y q)) eqn:Hy; simpl in Hq.
    + apply add_unbounded_r.
      * apply add_unsigned; apply square_unsigned.
      * apply square_not_finite, sub_not_finite. by right.
    + apply add_unbounded_l; [|apply square_unsigned].
      apply add_unbounded_r; [apply square_unsigned|].
      apply square_not_finite, sub_not_finite. by right.
  - apply add_unbounded_l; [|apply square_unsigned].
    apply add_unbounded_l; [|apply square_unsigned].
    apply square_not_finite, sub_not_finite. by right.
Qed.

(** ** The frame as [matchToPrevious] sees it *)

Section MatchToPreviousClaims.
Variable center_point : ObjectModel → Coordinate.

(** A tracked address after the call was tracked before it, or is a new
    obstacle without a match. *)
Lemma matchToPrevious_tracked_inv (h h' : heap) (s s' : Aggregator)
    (obs : list ptr) (corr : gmap Z nat) (id : Z) (p : ptr) :
  matchToPrevious center_point h s obs = Some (corr, h', s') → ids_below s →
  tracked_models_ s' !! id = Some p →
  tracked_models_ s !! id = Some p ∨
  (tracked_models_ s !! id = None ∧
   ∃ k, obs !! k = Some p ∧ corr !! id = Some k ∧
        nearest center_point h (tracked_models_ s) p = Some None).
Proof.
  intros Hrun Hbelow Hp.
  pose proof (matchToPrevious_spec _ _ _ _ _ _ _ Hrun) as Hspec.
  cbv zeta in Hspec.
  destruct Hspec as (rs & Hrs & Hcorr & _ & _ & _ & _ & _ & Hold & Hnew & _).
  destruct (tracked_models_ s !! id) as [q|] eqn:HT.
  - left. destruct (Hold id) as (Ht & _); [intros; congruence|]. congruence.
  - destruct (decide (id ∈ assign (next_model_id_ s) rs)) as [Hin|Hin].
    + apply list_elem_of_lookup_1 in Hin as [k Hk].
      destruct (Hnew k id Hk HT) as (p' & Hp' & Ht & _).
      assert (p' = p) as -> by congruence.
      right. split; [done|]. exists k. split; [done|].
      destruct (ids_inv center_point h s obs rs Hbelow Hrs k id Hk)
        as (p'' & Hp'' & [(_ & [q Hq] & _)|(Hn & _)]); [congruence|].
      assert (p'' = p) as -> by congruence. split; [|done].
      rewrite Hcorr. apply record_all_indexed. split; [done|].
      intros k' Hlt Hk'.
      pose proof (ids_fresh_unique center_point h s obs rs Hbelow Hrs
                    k k' p id Hp' Hn Hk Hk'). lia.
    + destruct (Hold id) as (Ht & _); [|congruence].
      intros k Hk. destruct Hin. by eapply list_elem_of_lookup_2.
Qed.

(** C1 (as the code has it).  When several new obstacles of a frame have
    the same tracked model [m] as their nearest candidate, the entry of
    the correspondence for [m] is the index of the last of them in the
    batch, whatever the distances; an earlier one, [i], is left without an
    ID: no entry of the correspondence maps to it and it is not inserted
    into the tracked table. *)
Theorem matchToPrevious_last_wins (h : heap) (s : Aggregator) (obs : list ptr)
    (m : Z) (i j : nat) (pi pj : ptr) :
  Forall (λ p, is_Some (h !! p)) obs → ids_below s →
  (i < j)%nat → obs !! i = Some pi → obs !! j = Some pj →
  nearest center_point h (tracked_models_ s) pi = Some (Some m) →
  nearest center_point h (tracked_models_ s) pj = Some (Some m) →
  (∀ k pk, (j < k)%nat → obs !! k = Some pk →
     nearest center_point h (tracked_models_ s) pk ≠ Some (Some m)) →
  ∃ corr h' s', matchToPrevious center_point h s obs = Some (corr, h', s') ∧
    corr !! m = Some j ∧
    (∀ id, corr !! id ≠ Some i) ∧
    (∀ id, tracked_models_ s' !! id = Some pi →
           tracked_models_ s !! id = Some pi).
Proof.
  intros Hobs Hbelow Hij Hpi Hpj Hni Hnj Hlast.
  destruct (matchToPrevious_defined center_point h s obs Hobs)
    as [[[corr h'] s'] Hrun]; [by eapply nearest_alive|].
  exists corr, h', s'. split; [done|].
  pose proof (matchToPrevious_spec _ _ _ _ _ _ _ Hrun) as Hspec.
  cbv zeta in Hspec. destruct Hspec as (rs & Hrs & Hcorr & _).
  destruct (ids_matched center_point h s obs rs Hbelow Hrs i pi m Hpi Hni)
    as (Hidi & _ & _).
  destruct (ids_matched center_point h s obs rs Hbelow Hrs j pj m Hpj Hnj)
    as (Hidj & _ & Hlt).
  split; [|split].
  - rewrite Hcorr. apply record_all_indexed. split; [done|].
    intros k Hk Hidk.
    destruct (ids_inv center_point h s obs rs Hbelow Hrs k m Hidk)
      as (pk & Hpk & [(Hn & _)|(_ & _ & _ & Hge)]); [|lia].
    by apply (Hlast k pk).
  - intros id Hid. rewrite Hcorr in Hid.
    apply record_all_indexed in Hid as [Hid Hnone].
    assert (id = m) as -> by congruence. by apply (Hnone j).
  - intros id Hid.
    destruct (matchToPrevious_tracked_inv _ _ _ _ _ _ _ _ Hrun Hbelow Hid)
      as [Hold|(_ & k & _ & _ & Hn)]; [done|congruence].
Qed.

(** C2.  Every entry of the correspondence comes from a search of the
    table as it was when the frame began: its ID was tracked before the
    frame and is the match of the obstacle, or the obstacle has no
    candidate in that table and the ID is a value that the counter took
    during the frame, untracked before the frame and tracking the obstacle
    after it.  In particular two new obstacles without a candidate among
    the previously tracked models get two distinct fresh IDs, however
    close they are to each other. *)
Theorem matchToPrevious_deferred_insertion (h : heap) (s : Aggregator)
    (obs : list ptr) :
  Forall (λ p, is_Some (h !! p)) obs → tracked_alive h (tracked_models_ s) →
  ids_below s →
  ∃ corr h' s', matchToPrevious center_point h s obs = Some (corr, h', s') ∧
    (∀ id k, corr !! id = Some k →
       ∃ p, obs !! k = Some p ∧
         ((nearest center_point h (tracked_models_ s) p = Some (Some id) ∧
           is_Some (tracked_models_ s !! id))
          ∨ (nearest center_point h (tracked_models_ s) p = Some None ∧
             tracked_models_ s !! id = None ∧
             next_model_id_ s ≤ id < next_model_id_ s' ∧
             tracked_models_ s' !! id = Some p))) ∧
    (∀ i j pi pj, i ≠ j → obs !! i = Some pi → obs !! j = Some pj →
       nearest center_point h (tracked_models_ s) pi = Some None →
       nearest center_point h (tracked_models_ s) pj = Some None →
       ∃ idi idj, idi ≠ idj ∧
         corr !! idi = Some i ∧ corr !! idj = Some j ∧
         tracked_models_ s !! idi = None ∧ tracked_models_ s !! idj = None ∧
         tracked_models_ s' !! idi = Some pi ∧
         tracked_models_ s' !! idj = Some pj).
Proof.
  intros Hobs Halive Hbelow.
  destruct (matchToPrevious_defined center_point h s obs Hobs Halive)
    as [[[corr h'] s'] Hrun].
  exists corr, h', s'. split; [done|].
  pose proof (matchToPrevious_spec _ _ _ _ _ _ _ Hrun) as Hspec.
  cbv zeta in Hspec.
  destruct Hspec as (rs & Hrs & Hcorr & Hnext & _ & _ & _ & _ & Hold & Hnew & _).
  assert (∀ k p, obs !! k = Some p →
            nearest center_point h (tracked_models_ s) p = Some None →
            ∃ id, corr !! id = Some k ∧ tracked_models_ s !! id = None ∧
                  tracked_models_ s' !! id = Some p ∧
                  assign (next_model_id_ s) rs !! k = Some id) as Hfresh.
  { intros k p Hp Hn.
    destruct (ids_fresh center_point h s obs rs Hbelow Hrs k p Hp Hn)
      as (id & Hid & _ & HT & _ & _).
    exists id. split; [|split; [done|split; [|done]]].
    - rewrite Hcorr. apply record_all_indexed. split; [done|].
      intros k' Hlt Hk'.
      pose proof (ids_fresh_unique center_point h s obs rs Hbelow Hrs
                    k k' p id Hp Hn Hid Hk'). lia.
    - destruct (Hnew k id Hid HT) as (p' & Hp' & Ht & _). congruence. }
  split.
  - intros id k Hid. rewrite Hcorr in Hid.
    apply record_all_indexed in Hid as [Hid _].
    destruct (ids_inv center_point h s obs rs Hbelow Hrs k id Hid)
      as (p & Hp & [(Hn & HT & _)|(Hn & _ & HT & Hrange)]).
    + exists p. split; [done|]. by left.
    + exists p. split; [done|]. right. do 2 (split; [done|]).
      split; [lia|].
      destruct (Hnew k id Hid HT) as (p' & Hp' & Ht & _). congruence.
  - intros i j pi pj Hij Hpi Hpj Hni Hnj.
    destruct (Hfresh i pi Hpi Hni) as (idi & Hci & HTi & Hti & Hidi).
    destruct (Hfresh j pj Hpj Hnj) as (idj & Hcj & HTj & Htj & Hidj).
    exists idi, idj. split; [|done].
    intros ->. apply Hij.
    by apply (ids_fresh_unique center_point h s obs rs Hbelow Hrs j i pj idj).
Qed.

(** A new obstacle without a candidate is inserted under a fresh ID. *)
Lemma matchToPrevious_unmatched (h h' : heap) (s s' : Aggregator)
    (obs : list ptr) (corr : gmap Z nat) (k : nat) (p : ptr) :
  matchToPrevious center_point h s obs = Some (corr, h', s') →
  ids_below s → NoDup obs → obs !! k = Some p →
  nearest center_point h (tracked_models_ s) p = Some None →
  ∃ id, corr !! id = Some k ∧ tracked_models_ s !! id = None ∧
        next_model_id_ s ≤ id < next_model_id_ s' ∧
        tracked_models_ s' !! id = Some p ∧
        h' !! p = set_id id <$> h !! p.
Proof.
  intros Hrun Hbelow Hnd Hp Hn.
  pose proof (matchToPrevious_spec _ _ _ _ _ _ _ Hrun) as Hspec.
  cbv zeta in Hspec.
  destruct Hspec as (rs & Hrs & Hcorr & Hnext & _ & _ & _ & _ & _ & Hnew & _).
  destruct (ids_fresh center_point h s obs rs Hbelow Hrs k p Hp Hn)
    as (id & Hid & _ & HT & Hrange & _).
  destruct (Hnew k id Hid HT) as (p' & Hp' & Ht & _ & _ & Hset).
  assert (p' = p) as -> by congruence.
  exists id. split; [|split; [done|split; [lia|split; [done|]]]].
  - rewrite Hcorr. apply record_all_indexed. split; [done|].
    intros k' Hlt Hk'.
    pose proof (ids_fresh_unique center_point h s obs rs Hbelow Hrs
                  k k' p id Hp Hn Hid Hk'). lia.
  - apply Hset. intros k' id' _ _ Hne Hp''.
    apply Hne. by apply (NoDup_lookup obs k' k p).
Qed.

(** C10 (as the code has it).  A new obstacle without a candidate is kept:
    its address becomes the tracked model of a fresh ID and [set_id] writes
    that ID into the object.  A new obstacle with a match is left as it is
    by the call and its address does not enter the tracked table. *)
Theorem matchToPrevious_keeps_unmatched (h : heap) (s : Aggregator)
    (obs : list ptr) :
  Forall (λ p, is_Some (h !! p)) obs → tracked_alive h (tracked_models_ s) →
  ids_below s → NoDup obs →
  ∃ corr h' s', matchToPrevious center_point h s obs = Some (corr, h', s') ∧
    (∀ k p, obs !! k = Some p →
       nearest center_point h (tracked_models_ s) p = Some None →
       ∃ id, corr !! id = Some k ∧ tracked_models_ s !! id = None ∧
             tracked_models_ s' !! id = Some p ∧
             h' !! p = set_id id <$> h !! p) ∧
    (∀ k p id, obs !! k = Some p →
       nearest center_point h (tracked_models_ s) p = Some (Some id) →
       h' !! p = h !! p ∧
       ∀ id', tracked_models_ s' !! id' = Some p →
              tracked_models_ s !! id' = Some p).
Proof.
  intros Hobs Halive Hbelow Hnd.
  destruct (matchToPrevious_defined center_point h s obs Hobs Halive)
    as [[[corr h'] s'] Hrun].
  exists corr, h', s'. split; [done|].
  split.
  - intros k p Hp Hn.
    destruct (matchToPrevious_unmatched _ _ _ _ _ _ _ _ Hrun Hbelow Hnd Hp Hn)
      as (id & Hc & HT & _ & Ht & Hset).
    by exists id.
  - pose proof (matchToPrevious_spec _ _ _ _ _ _ _ Hrun) as Hspec.
    cbv zeta in Hspec.
    destruct Hspec as (rs & Hrs & Hcorr & _ & _ & _ & _ & _ & _ & _ & Hheap).
    intros k p id Hp Hn. split.
    + apply Hheap. intros k' id' Hid' HT' Hp'.
      destruct (ids_inv center_point h s obs rs Hbelow Hrs k' id' Hid')
        as (p' & Hp'' & [(_ & [q Hq] & _)|(Hn' & _)]); congruence.
    + intros id' Hid'.
      destruct (matchToPrevious_tracked_inv _ _ _ _ _ _ _ _ Hrun Hbelow Hid')
        as [Hold|(_ & k' & _ & _ & Hn')]; [done|congruence].
Qed.

(** A model whose reference point is not finite has no candidate. *)
Lemma nearest_not_finite (h : heap) (tracked : gmap Z nat) (model : ptr)
    (q : ObjectModel) :
  h !! model = Some q → Coord.is_finite (center_point q) = false →
  tracked_alive h tracked →
  nearest center_point h tracked model = Some None.
Proof.
  intros Hq Hfin Halive.
  destruct (nearest_spec center_point h tracked model) as (r & Hr & Hspec);
    [by exists q|done|].
  destruct r as [id|]; [|done].
  destruct Hspec as (d & (p & m & q' & _ & _ & Hq' & -> & Hacc) & _).
  assert (q' = q) as -> by congruence.
  by rewrite sq_dist_not_finite in Hacc.
Qed.

(** C6 (as the code has it).  A new obstacle whose reference point has a
    coordinate that is not finite is not rejected: no tracked model passes
    the test of the distance against it, so it has no candidate; the call
    returns, gives it a fresh ID and inserts it, coordinates included, into
    the tracked table. *)
Theorem matchToPrevious_not_finite (h : heap) (s : Aggregator)
    (obs : list ptr) (k : nat) (p : ptr) (q : ObjectModel) :
  Forall (λ p, is_Some (h !! p)) obs → tracked_alive h (tracked_models_ s) →
  ids_below s → NoDup obs →
  obs !! k = Some p → h !! p = Some q →
  Coord.is_finite (center_point q) = false →
  (∀ m, (sq_dist (center_point m) (center_point q) <=? tau)%dbl = false) ∧
  ∃ corr h' s', matchToPrevious center_point h s obs = Some (corr, h', s') ∧
    ∃ id, corr !! id = Some k ∧ tracked_models_ s !! id = None ∧
          next_model_id_ s ≤ id < next_model_id_ s' ∧
          tracked_models_ s' !! id = Some p ∧
          h' !! p = Some (set_id id q).
Proof.
  intros Hobs Halive Hbelow Hnd Hp Hq Hfin.
  split; [intros m; by apply sq_dist_not_finite|].
  destruct (matchToPrevious_defined center_point h s obs Hobs Halive)
    as [[[corr h'] s'] Hrun].
  exists corr, h', s'. split; [done|].
  pose proof (nearest_not_finite h _ p q Hq Hfin Halive) as Hn.
  destruct (matchToPrevious_unmatched _ _ _ _ _ _ _ _ Hrun Hbelow Hnd Hp Hn)
    as (id & Hc & HT & Hrange & Ht & Hset).
  exists id. rewrite Hq in Hset. done.
Qed.
End MatchToPreviousClaims.


(** ** [updateLostAndFound] *)

Lemma update_one_spec (new_matches : gmap Z nat) (s : Aggregator) (elem : Z * nat) :
  let s' := update_one new_matches s elem in
  same_tables s s' ∧
  streaks_updated new_matches s s' elem.1 ∧
  ∀ id, id ≠ elem.1 →
    frames_found_ s' !! id = frames_found_ s !! id ∧
    frames_lost_ s' !! id = frames_lost_ s !! id.
Proof.
  destruct elem as [id0 p0]. unfold update_one, streaks_updated, same_tables.
  simpl. destruct (new_matches !! id0) as [i|]; simpl.
  - destruct (model_idx_in_list_ s !! id0) as [it|]; simpl;
      rewrite ?lookup_insert_eq; repeat split; try done;
      by rewrite lookup_insert_ne.
  - rewrite !lookup_insert_eq. repeat split; try done;
      by rewrite lookup_insert_ne.
Qed.

Lemma update_loop_spec (new_matches : gmap Z nat) (l : list (Z * nat))
    (s : Aggregator) :
  NoDup l.*1 →
  let s' := foldl (update_one new_matches) s l in
  same_tables s s' ∧
  (∀ id, id ∈ l.*1 → streaks_updated new_matches s s' id) ∧
  (∀ id, id ∉ l.*1 →
     frames_found_ s' !! id = frames_found_ s !! id ∧
     frames_lost_ s' !! id = frames_lost_ s !! id).
Proof.
  revert s. induction l as [|e l IH]; intros s Hnd; simpl.
  - repeat split; try done. intros id Hid. by apply elem_of_nil in Hid.
  - apply NoDup_cons in Hnd as [He Hnd].
    destruct (update_one_spec new_matches s e) as (Hsame1 & Hup1 & Hother1).
    destruct (IH (update_one new_matches s e) Hnd) as (Hsame & Hup & Hother).
    set (s1 := update_one new_matches s e) in *.
    set (s' := foldl (update_one new_matches) s1 l) in *.
    destruct Hsame1 as (Hn1 & Ht1 & Hm1 & Hi1 & Hc1).
    destruct Hsame as (Hn & Ht & Hm & Hi & Hc).
    split; [|split].
    + unfold same_tables. by rewrite Hn, Ht, Hm, Hi, Hc.
    + intros id Hid. apply elem_of_cons in Hid as [->|Hid].
      * destruct (Hother e.1 He) as [Hf Hl].
        unfold streaks_updated in *. rewrite Hf, Hl. exact Hup1.
      * assert (id ≠ e.1) as Hne by (intros ->; done).
        destruct (Hother1 id Hne) as [Hf Hl].
        specialize (Hup id Hid). unfold streaks_updated, counter in *.
        by rewrite Hi1, Hf, Hl in Hup.
    + intros id Hid. apply not_elem_of_cons in Hid as [Hne Hid].
      destruct (Hother id Hid) as [-> ->]. by apply Hother1.
Qed.

Lemma updateLostAndFound_spec (s : Aggregator) (new_matches : gmap Z nat) :
  let s' := updateLostAndFound s new_matches in
  same_tables s s' ∧
  (∀ id, is_Some (tracked_models_ s !! id) →
         streaks_updated new_matches s s' id) ∧
  (∀ id, tracked_models_ s !! id = None →
     frames_found_ s' !! id = frames_found_ s !! id ∧
     frames_lost_ s' !! id = frames_lost_ s !! id).
Proof.
  destruct (update_loop_spec new_matches (elements (tracked_models_ s)) s)
    as (Hsame & Hup & Hother); [apply NoDup_fst_elements|].
  split; [done|]. split.
  - intros id [p Hp]. apply Hup.
    apply (list_elem_of_fmap_2 fst _ (id, p)). by apply elem_of_elements.
  - intros id Hid. apply Hother. intros Hin.
    apply list_elem_of_fmap in Hin as ([id' p] & Heq & Hin). simpl in Heq.
    subst id'. apply elem_of_elements in Hin. congruence.
Qed.

(** ** [dropLostObjects] *)

Lemma filter_all {A} (P : A → Prop) `{!∀ x, Decision (P x)} (l : list A) :
  (∀ x, P x) → filter P l = l.
Proof.
  intros HP. induction l as [|a l IH]; [done|].
  rewrite filter_cons_True by done. by rewrite IH.
Qed.

Lemma omap_ext_in {A B} (f g : A → option B) (l : list A) :
  (∀ x, x ∈ l → f x = g x) → omap f l = omap g l.
Proof.
  induction l as [|a l IH]; intros Hfg; [done|]. csimpl.
  rewrite (Hfg a) by (by left). rewrite IH; [done|].
  intros x Hx. apply Hfg. by right.
Qed.

Lemma list_erase_filter (it : nat) (its : list nat) (l : list (nat * nat)) :
  filter (λ n, n.1 ∉ its) (list_erase it l) = filter (λ n, n.1 ∉ it :: its) l.
Proof.
  unfold list_erase. rewrite list_filter_filter.
  apply list_filter_iff. intros n. rewrite not_elem_of_cons. tauto.
Qed.

Lemma drop_one_spec (s : Aggregator) (elem : Z * Z) :
  let s' := drop_one s elem in
  next_model_id_ s' = next_model_id_ s ∧ frame_cnt_ s' = frame_cnt_ s ∧
  (∀ id, id ≠ elem.1 →
     tracked_models_ s' !! id = tracked_models_ s !! id ∧
     frames_found_ s' !! id = frames_found_ s !! id ∧
     frames_lost_ s' !! id = frames_lost_ s !! id ∧
     model_idx_in_list_ s' !! id = model_idx_in_list_ s !! id) ∧
  (if decide (LOST_LIMIT ≤ elem.2) then
     tracked_models_ s' !! elem.1 = None ∧
     frames_found_ s' !! elem.1 = None ∧
     frames_lost_ s' !! elem.1 = None ∧
     model_idx_in_list_ s' !! elem.1 = None ∧
     materialized_models_ s' =
       match model_idx_in_list_ s !! elem.1 with
       | Some it => list_erase it (materialized_models_ s)
       | None => materialized_models_ s
       end
   else s' = s).
Proof.
  destruct elem as [id0 n]. unfold drop_one. simpl.
  destruct (decide (LOST_LIMIT ≤ n)) as [Hn|Hn]; [|by repeat split].
  destruct (model_idx_in_list_ s !! id0) as [it|] eqn:Hit; simpl;
    rewrite ?lookup_delete_eq; repeat split; try done;
    by rewrite lookup_delete_ne.
Qed.

Lemma drop_loop_spec (l : list (Z * Z)) (s : Aggregator) :
  NoDup l.*1 →
  let s' := foldl drop_one s l in
  next_model_id_ s' = next_model_id_ s ∧ frame_cnt_ s' = frame_cnt_ s ∧
  (∀ id, (∀ n, (id, n) ∈ l → ¬ LOST_LIMIT ≤ n) →
     tracked_models_ s' !! id = tracked_models_ s !! id ∧
     frames_found_ s' !! id = frames_found_ s !! id ∧
     frames_lost_ s' !! id = frames_lost_ s !! id ∧
     model_idx_in_list_ s' !! id = model_idx_in_list_ s !! id) ∧
  (∀ id n, (id, n) ∈ l → LOST_LIMIT ≤ n →
     tracked_models_ s' !! id = None ∧
     frames_found_ s' !! id = None ∧
     frames_lost_ s' !! id = None ∧
     model_idx_in_list_ s' !! id = None) ∧
  materialized_models_ s' =
    filter (λ n, n.1 ∉ dropped_iters (model_idx_in_list_ s) l)
           (materialized_models_ s).
Proof.
  revert s. induction l as [|[id0 n0] l IH]; intros s Hnd; simpl.
  - do 3 (split; [done|]). split.
    + intros id n Hin. by apply elem_of_nil in Hin.
    + symmetry. apply filter_all. intros x. apply not_elem_of_nil.
  - apply NoDup_cons in Hnd as [He Hnd].
    destruct (drop_one_spec s (id0, n0)) as (Hn1 & Hc1 & Hother1 & Hthis1).
    destruct (IH (drop_one s (id0, n0)) Hnd) as (Hn & Hc & Hkeep & Hdrop & Hmat).
    set (s1 := drop_one s (id0, n0)) in *.
    set (s' := foldl drop_one s1 l) in *. simpl in *.
    assert (∀ id n, (id, n) ∈ l → id ≠ id0) as Hne.
    { intros id n Hin ->. apply He. by apply (list_elem_of_fmap_2 fst l (id0, n)). }
    assert (dropped_iters (model_idx_in_list_ s1) l
            = dropped_iters (model_idx_in_list_ s) l) as Hiters.
    { unfold dropped_iters. apply omap_ext_in.
      intros [id n] Hin. simpl. destruct (decide (LOST_LIMIT ≤ n)); [|done].
      by destruct (Hother1 id (Hne id n Hin)) as (_ & _ & _ & ->). }
    split; [congruence|]. split; [congruence|]. split; [|split].
    + intros id Hid.
      destruct (Hkeep id) as (Ht & Hf & Hl & Hi).
      { intros n Hin. apply Hid. by right. }
      rewrite Ht, Hf, Hl, Hi.
      destruct (decide (id = id0)) as [->|Hne0]; [|by apply Hother1].
      destruct (decide (LOST_LIMIT ≤ n0)) as [Hn0|Hn0].
      * destruct (Hid n0); [by left|done].
      * by rewrite Hthis1.
    + intros id n Hin Hlim. apply elem_of_cons in Hin as [Heq|Hin].
      * injection Heq as -> ->.
        destruct (Hkeep id0) as (Ht & Hf & Hl & Hi).
        { intros n Hin. by destruct (Hne id0 n Hin). }
        rewrite Ht, Hf, Hl, Hi.
        rewrite decide_True in Hthis1 by done. by destruct Hthis1 as (?&?&?&?&?).
      * by apply (Hdrop id n).
    + rewrite Hmat, Hiters.
      destruct (decide (LOST_LIMIT ≤ n0)) as [Hn0|Hn0].
      * destruct Hthis1 as (_ & _ & _ & _ & ->).
        destruct (model_idx_in_list_ s !! id0) as [it|]; simpl; [|done].
        apply list_erase_filter.
      * by rewrite Hthis1.
Qed.

Lemma dropLostObjects_spec (s : Aggregator) :
  let s' := dropLostObjects s in
  next_model_id_ s' = next_model_id_ s ∧ frame_cnt_ s' = frame_cnt_ s ∧
  (∀ id, (∀ n, frames_lost_ s !! id = Some n → n < LOST_LIMIT) →
     tracked_models_ s' !! id = tracked_models_ s !! id ∧
     frames_found_ s' !! id = frames_found_ s !! id ∧
     frames_lost_ s' !! id = frames_lost_ s !! id ∧
     model_idx_in_list_ s' !! id = model_idx_in_list_ s !! id) ∧
  (∀ id n, frames_lost_ s !! id = Some n → LOST_LIMIT ≤ n →
     tracked_models_ s' !! id = None ∧
     frames_found_ s' !! id = None ∧
     frames_lost_ s' !! id = None ∧
     model_idx_in_list_ s' !! id = None) ∧
  materialized_models_ s' =
    filter (λ n, n.1 ∉ dropped_iters (model_idx_in_list_ s)
                         (elements (frames_lost_ s)))
           (materialized_models_ s).
Proof.
  destruct (drop_loop_spec (elements (frames_lost_ s)) s)
    as (Hn & Hc & Hkeep & Hdrop & Hmat); [apply NoDup_fst_elements|].
  do 2 (split; [done|]). split; [|split; [|done]].
  - intros id Hid. apply Hkeep. intros n Hin. apply elem_of_elements in Hin.
    specialize (Hid n Hin). lia.
  - intros id n Hin. apply Hdrop. by apply elem_of_elements.
Qed.

(** A node is erased exactly when it belongs to a dropped model. *)
Lemma elem_of_dropped_iters (idx : gmap Z nat) (lost : gmap Z Z) (it : nat) :
  it ∈ dropped_iters idx (elements lost) ↔
  ∃ id n, lost !! id = Some n ∧ LOST_LIMIT ≤ n ∧ idx !! id = Some it.
Proof.
  unfold dropped_iters. rewrite list_elem_of_omap. split.
  - intros ([id n] & Hin & Hit). simpl in Hit.
    destruct (decide (LOST_LIMIT ≤ n)); [|done].
    exists id, n. by apply elem_of_elements in Hin.
  - intros (id & n & Hl & Hn & Hit). exists (id, n).
    split; [by apply elem_of_elements|]. simpl. by rewrite decide_True.
Qed.

(** ** [materializeFoundObjects] *)

Lemma fresh_iter_fresh (l : list (nat * nat)) : fresh_iter l ∉ l.*1.
Proof.
  unfold fresh_iter. intros Hin.
  assert (∀ x, x ∈ l.*1 → (x ≤ foldr Nat.max 0 l.*1)%nat) as Hmax.
  { generalize (l.*1). intros k. induction k as [|a k IH]; intros x Hx.
    - by apply elem_of_nil in Hx.
    - simpl. apply elem_of_cons in Hx as [->|Hx]; [lia|].
      specialize (IH x Hx). lia. }
  specialize (Hmax _ Hin). lia.
Qed.

Lemma materialize_loop_spec (l : list (Z * Z)) (s s' : Aggregator) :
  NoDup l.*1 → foldM materialize_one s l = Some s' →
  next_model_id_ s' = next_model_id_ s ∧ frame_cnt_ s' = frame_cnt_ s ∧
  tracked_models_ s' = tracked_models_ s ∧ frames_lost_ s' = frames_lost_ s ∧
  (∀ id, (∀ n, (id, n) ∈ l → ¬ FOUND_LIMIT ≤ n) →
     frames_found_ s' !! id = frames_found_ s !! id ∧
     model_idx_in_list_ s' !! id = model_idx_in_list_ s !! id) ∧
  ∃ new, materialized_models_ s' = materialized_models_ s ++ new ∧
    new.*2 = promoted (tracked_models_ s) l ∧
    (∀ it, it ∈ new.*1 → it ∉ (materialized_models_ s).*1) ∧
    (∀ id n, (id, n) ∈ l → FOUND_LIMIT ≤ n →
       frames_found_ s' !! id = None ∧
       ∃ it p, tracked_models_ s !! id = Some p ∧
               model_idx_in_list_ s' !! id = Some it ∧ (it, p) ∈ new).
Proof.
  revert s. induction l as [|[id0 n0] l IH]; intros s Hnd Hrun; simpl in *.
  - injection Hrun as <-. do 4 (split; [done|]). split; [done|].
    exists []. rewrite app_nil_r. do 2 (split; [done|]). split.
    + intros it Hit. by apply elem_of_nil in Hit.
    + intros id n Hin. by apply elem_of_nil in Hin.
  - apply NoDup_cons in Hnd as [He Hnd].
    assert (∀ id n, (id, n) ∈ l → id ≠ id0) as Hne.
    { intros id n Hin ->. apply He. by apply (list_elem_of_fmap_2 fst l (id0, n)). }
    destruct (materialize_one s (id0, n0)) as [s1|] eqn:Hone;
      simpl in Hrun; [|done].
    destruct (IH s1 Hnd Hrun)
      as (Hn & Hc & Ht & Hl & Hkeep & new1 & Hmat & Hptrs & Hfresh & Hprom).
    unfold materialize_one in Hone. simpl in Hone.
    destruct (decide (FOUND_LIMIT ≤ n0)) as [Hn0|Hn0].
    + destruct (tracked_models_ s !! id0) as [p0|] eqn:Hp0; simpl in Hone; [|done].
      injection Hone as <-. simpl in *.
      do 4 (split; [done|]). split.
      * intros id Hid.
        assert (id ≠ id0) as Hne0.
        { intros ->. apply (Hid n0); [by left|done]. }
        destruct (Hkeep id) as [-> ->].
        { intros n Hin. apply Hid. by right. }
        by rewrite lookup_delete_ne, lookup_insert_ne.
      * exists ((fresh_iter (materialized_models_ s), p0) :: new1).
        split; [by rewrite Hmat, <- app_assoc|].
        split; [by rewrite fmap_cons, Hptrs|]. split.
        -- intros it Hit. rewrite fmap_cons in Hit.
           apply elem_of_cons in Hit as [->|Hit]; [apply fresh_iter_fresh|].
           specialize (Hfresh it Hit). rewrite fmap_app in Hfresh.
           by apply not_elem_of_app in Hfresh as [? _].
        -- intros id n Hin Hlim. apply elem_of_cons in Hin as [Heq|Hin].
           ++ injection Heq as -> ->.
              destruct (Hkeep id0) as [-> ->].
              { intros n Hin. by destruct (Hne id0 n Hin). }
              rewrite lookup_delete_eq, lookup_insert_eq. split; [done|].
              exists (fresh_iter (materialized_models_ s)), p0.
              do 2 (split; [done|]). by left.
           ++ destruct (Hprom id n Hin Hlim) as (Hf & it & p & Hp & Hit & Hnode).
              split; [done|]. exists it, p. do 2 (split; [done|]). by right.
    + injection Hone as <-.
      do 4 (split; [done|]). split.
      * intros id Hid. apply Hkeep. intros n Hin. apply Hid. by right.
      * exists new1. do 3 (split; [done|]).
        intros id n Hin Hlim. apply elem_of_cons in Hin as [Heq|Hin].
        -- injection Heq as -> ->. done.
        -- by apply (Hprom id n).
Qed.

Lemma materialize_one_defined (s : Aggregator) (id n : Z) :
  (FOUND_LIMIT ≤ n → is_Some (tracked_models_ s !! id)) →
  ∃ s1, materialize_one s (id, n) = Some s1 ∧
        tracked_models_ s1 = tracked_models_ s.
Proof.
  intros Hok. unfold materialize_one. cbn [fst snd].
  destruct (decide (FOUND_LIMIT ≤ n)) as [Hn|Hn]; [|by exists s].
  destruct (Hok Hn) as [p Hp]. rewrite Hp. simpl. by eexists.
Qed.

Lemma materialize_loop_defined (l : list (Z * Z)) (s : Aggregator) :
  (∀ id n, (id, n) ∈ l → FOUND_LIMIT ≤ n → is_Some (tracked_models_ s !! id)) →
  is_Some (foldM materialize_one s l).
Proof.
  revert s. induction l as [|[id0 n0] l IH]; intros s Hok; simpl.
  - by eexists.
  - destruct (materialize_one_defined s id0 n0) as (s1 & -> & Ht).
    { apply Hok. by left. }
    simpl. apply IH. intros id n Hin Hlim. rewrite Ht.
    apply (Hok id n); [by right|done].
Qed.

Lemma materializeFoundObjects_spec (s s' : Aggregator) :
  materializeFoundObjects s = Some s' →
  next_model_id_ s' = next_model_id_ s ∧ frame_cnt_ s' = frame_cnt_ s ∧
  tracked_models_ s' = tracked_models_ s ∧ frames_lost_ s' = frames_lost_ s ∧
  (∀ id, (∀ n, frames_found_ s !! id = Some n → n < FOUND_LIMIT) →
     frames_found_ s' !! id = frames_found_ s !! id ∧
     model_idx_in_list_ s' !! id = model_idx_in_list_ s !! id) ∧
  ∃ new, materialized_models_ s' = materialized_models_ s ++ new ∧
    new.*2 = promoted (tracked_models_ s) (elements (frames_found_ s)) ∧
    (∀ it, it ∈ new.*1 → it ∉ (materialized_models_ s).*1) ∧
    (∀ id n, frames_found_ s !! id = Some n → FOUND_LIMIT ≤ n →
       frames_found_ s' !! id = None ∧
       ∃ it p, tracked_models_ s !! id = Some p ∧
               model_idx_in_list_ s' !! id = Some it ∧ (it, p) ∈ new).
Proof.
  intros Hrun.
  destruct (materialize_loop_spec (elements (frames_found_ s)) s s')
    as (Hn & Hc & Ht & Hl & Hkeep & new & Hmat & Hptrs & Hfresh & Hprom);
    [apply NoDup_fst_elements|done|].
  do 4 (split; [done|]). split.
  - intros id Hid. apply Hkeep. intros n Hin. apply elem_of_elements in Hin.
    specialize (Hid n Hin). lia.
  - exists new. do 3 (split; [done|]).
    intros id n Hin. apply Hprom. by apply elem_of_elements.
Qed.

Lemma materializeFoundObjects_defined (s : Aggregator) :
  (∀ id n, frames_found_ s !! id = Some n → FOUND_LIMIT ≤ n →
           is_Some (tracked_models_ s !! id)) →
  is_Some (materializeFoundObjects s).
Proof.
  intros Hok. apply materialize_loop_defined.
  intros id n Hin. apply Hok. by apply elem_of_elements.
Qed.

(** ** [adaptTracked] *)

Section Blend.
Variable center_point : ObjectModel → Coordinate.

Lemma adapt_one_spec (s : Aggregator) (obs : list ptr) (h : heap)
    (id : Z) (i : nat) (p q : ptr) (tracked new_model : ObjectModel) :
  obs !! i = Some q → h !! q = Some new_model →
  tracked_models_ s !! id = Some p → h !! p = Some tracked →
  adapt_one center_point s obs h (id, i) =
  Some (<[p := blend center_point (refresh_due s) (bool_decide (p = q)) tracked new_model]> h).
Proof.
  intros Hq Hnew Hp Hold. unfold adapt_one, blend, refreshed, refresh_due.
  cbn [fst snd]. rewrite Hq. simpl. rewrite Hnew. simpl. rewrite Hp. simpl.
  rewrite Hold. simpl. fold (translation_vec center_point tracked new_model).
  set (t := accept (translation_vec center_point tracked new_model) tracked).
  destruct (decide (Z.rem (frame_cnt_ s) 30 = 0)) as [Hdue|Hdue].
  - rewrite bool_decide_eq_true_2 by done.
    rewrite lookup_insert_eq. simpl.
    destruct (decide (p = q)) as [->|Hne].
    + rewrite bool_decide_eq_true_2 by done. rewrite lookup_insert_eq. simpl.
      destruct (as_composite t); [|done]. by rewrite insert_insert_eq.
    + rewrite bool_decide_eq_false_2 by done.
      rewrite lookup_insert_ne by done. rewrite Hnew. simpl.
      destruct (as_composite t); [|done].
      destruct (as_composite new_model); [|done]. by rewrite insert_insert_eq.
  - by rewrite bool_decide_eq_false_2.
Qed.

Lemma adapt_loop_spec (s : Aggregator) (obs : list ptr) (l : list (Z * nat))
    (h : heap) :
  NoDup l.*1 →
  (∀ id i, (id, i) ∈ l →
     is_Some (tracked_models_ s !! id ≫= (h !!.)) ∧
     is_Some (obs !! i ≫= (h !!.))) →
  (∀ id1 i1 id2 i2, (id1, i1) ∈ l → (id2, i2) ∈ l → id1 ≠ id2 →
     is_Some (tracked_models_ s !! id2) →
     tracked_models_ s !! id1 ≠ tracked_models_ s !! id2 ∧
     obs !! i1 ≠ tracked_models_ s !! id2) →
  ∃ h', foldM (adapt_one center_point s obs) h l = Some h' ∧
    (∀ id i p q tracked new_model, (id, i) ∈ l →
       tracked_models_ s !! id = Some p → obs !! i = Some q →
       h !! p = Some tracked → h !! q = Some new_model →
       h' !! p = Some (blend center_point (refresh_due s) (bool_decide (p = q))
                             tracked new_model)) ∧
    (∀ p, (∀ id i, (id, i) ∈ l → tracked_models_ s !! id ≠ Some p) →
       h' !! p = h !! p).
Proof.
  revert h. induction l as [|[id0 i0] l IH]; intros h Hnd Hdef Hsep; simpl.
  - exists h. split; [done|]. split; [|done].
    intros id i p q tracked new_model Hin. by apply elem_of_nil in Hin.
  - apply NoDup_cons in Hnd as [He Hnd].
    assert (∀ id i, (id, i) ∈ l → id ≠ id0) as Hne.
    { intros id i Hin ->. apply He. by apply (list_elem_of_fmap_2 fst l (id0, i)). }
    destruct (Hdef id0 i0) as [Hp0 Hq0]; [by left|].
    destruct (tracked_models_ s !! id0) as [p0|] eqn:Ep0;
      [|by destruct Hp0]. simpl in Hp0. destruct Hp0 as [old0 Hold0].
    destruct (obs !! i0) as [q0|] eqn:Eq0; [|by destruct Hq0].
    simpl in Hq0. destruct Hq0 as [new0 Hnew0].
    rewrite (adapt_one_spec s obs h id0 i0 p0 q0 old0 new0) by done. simpl.
    set (b0 := blend center_point _ _ old0 new0).
    assert (∀ id i p, (id, i) ∈ l → tracked_models_ s !! id = Some p → p ≠ p0)
      as Hp_ne.
    { intros id i p Hin Hp ->.
      destruct (Hsep id0 i0 id i) as [Hsep1 _];
        [by left|by right|by apply not_eq_sym, (Hne id i)|by rewrite Hp|].
      congruence. }
    assert (∀ id i q, (id, i) ∈ l → obs !! i = Some q → q ≠ p0) as Hq_ne.
    { intros id i q Hin Hq ->.
      destruct (Hsep id i id0 i0) as [_ Hsep2];
        [by right|by left|by apply (Hne id i)|by rewrite Ep0|].
      congruence. }
    destruct (IH (<[p0 := b0]> h) Hnd) as (h' & Hrun & Hblend & Hframe).
    { intros id i Hin. destruct (Hdef id i) as [Hp Hq]; [by right|].
      destruct (tracked_models_ s !! id) as [p|] eqn:Ep; [|by destruct Hp].
      destruct (obs !! i) as [q|] eqn:Eq; [|by destruct Hq].
      simpl in *. rewrite !lookup_insert_ne; [done| |].
      - apply not_eq_sym. by apply (Hq_ne id i).
      - apply not_eq_sym. by apply (Hp_ne id i). }
    { intros id1 i1 id2 i2 H1 H2. apply (Hsep id1 i1 id2 i2); by right. }
    exists h'. split; [done|]. split.
    + intros id i p q tracked new_model Hin Hp Hq Hold Hnew.
      apply elem_of_cons in Hin as [Heq|Hin].
      * injection Heq as -> ->.
        assert (p = p0) as -> by congruence.
        assert (q = q0) as -> by congruence.
        assert (tracked = old0) as -> by congruence.
        assert (new_model = new0) as -> by congruence.
        rewrite Hframe; [by rewrite lookup_insert_eq|].
        intros id i Hin Hp'. by apply (Hp_ne id i p0).
      * apply (Hblend id i); try done.
        -- rewrite lookup_insert_ne; [done|].
           apply not_eq_sym. by apply (Hp_ne id i).
        -- rewrite lookup_insert_ne; [done|].
           apply not_eq_sym. by apply (Hq_ne id i).
    + intros p Hp. rewrite Hframe.
      * rewrite lookup_insert_ne; [done|]. intros ->.
        by apply (Hp id0 i0); [left|].
      * intros id i Hin. apply (Hp id i). by right.
Qed.

(** The tracked models after the call, under the two conditions above. *)
Lemma adaptTracked_spec (h : heap) (s : Aggregator) (corr : gmap Z nat)
    (obs : list ptr) :
  adapt_defined h (tracked_models_ s) obs corr →
  adapt_separated (tracked_models_ s) obs corr →
  ∃ h', adaptTracked center_point h s corr obs = Some h' ∧
    (∀ id i p q tracked new_model, corr !! id = Some i →
       tracked_models_ s !! id = Some p → obs !! i = Some q →
       h !! p = Some tracked → h !! q = Some new_model →
       h' !! p = Some (blend center_point (refresh_due s) (bool_decide (p = q))
                             tracked new_model)) ∧
    (∀ p, (∀ id i, corr !! id = Some i → tracked_models_ s !! id ≠ Some p) →
       h' !! p = h !! p).
Proof.
  intros Hdef Hsep.
  destruct (adapt_loop_spec s obs (elements corr) h)
    as (h' & Hrun & Hblend & Hframe).
  - apply NoDup_fst_elements.
  - intros id i Hin. apply elem_of_elements in Hin. by apply (Hdef id i).
  - intros id1 i1 id2 i2 H1 H2. apply elem_of_elements in H1, H2.
    by apply (Hsep id1 i1 H1 id2 i2 H2).
  - exists h'. split; [done|]. split.
    + intros id i p q tracked new_model Hin. apply Hblend.
      by apply elem_of_elements.
    + intros p Hp. apply Hframe. intros id i Hin. apply (Hp id i).
      by apply elem_of_elements.
Qed.
End Blend.

(** ** The claims on the counters *)

(** C7 (as the code has it).  For a tracked ID, one pass of
    [updateLostAndFound] increments at most one of the two counters: when
    the ID is matched, the lost counter becomes 0 and the found counter is
    incremented only if the ID is not materialised (otherwise it is left as
    it is, and neither counter is incremented); when the ID is not matched,
    the found counter becomes 0 and the lost counter is incremented. *)
Theorem updateLostAndFound_streaks (s : Aggregator) (new_matches : gmap Z nat)
    (id : Z) :
  is_Some (tracked_models_ s !! id) →
  let s' := updateLostAndFound s new_matches in
  (is_Some (new_matches !! id) →
     frames_lost_ s' !! id = Some 0 ∧
     (model_idx_in_list_ s !! id = None →
        frames_found_ s' !! id = Some (counter (frames_found_ s) id + 1)) ∧
     (is_Some (model_idx_in_list_ s !! id) →
        frames_found_ s' !! id = frames_found_ s !! id)) ∧
  (new_matches !! id = None →
     frames_found_ s' !! id = Some 0 ∧
     frames_lost_ s' !! id = Some (counter (frames_lost_ s) id + 1)).
Proof.
  intros Hid s'.
  destruct (updateLostAndFound_spec s new_matches) as (_ & Hup & _).
  specialize (Hup id Hid). fold s' in Hup. unfold streaks_updated in Hup.
  split.
  - intros [i Hi]. rewrite Hi in Hup. destruct Hup as [Hl Hf].
    split; [done|]. split.
    + intros Hidx. by rewrite Hidx in Hf.
    + intros [it Hit]. by rewrite Hit in Hf.
  - intros Hi. rewrite Hi in Hup. by destruct Hup.
Qed.

(** [dropLostObjects] on any state.  An ID whose lost counter is at most
    9 goes through the call untouched: its tracked model, its two counters
    and its place among the materialised models stay.  An ID whose lost
    counter has reached 10 leaves, in that one call, the tracked table,
    the two counter maps, the index of the materialised models, and the
    list of the materialised models when it had a node there. *)
Lemma dropLostObjects_limit (s : Aggregator) (id n : Z) :
  frames_lost_ s !! id = Some n →
  let s' := dropLostObjects s in
  (n ≤ 9 →
     tracked_models_ s' !! id = tracked_models_ s !! id ∧
     frames_found_ s' !! id = frames_found_ s !! id ∧
     frames_lost_ s' !! id = Some n ∧
     model_idx_in_list_ s' !! id = model_idx_in_list_ s !! id ∧
     ∀ it p, model_idx_in_list_ s !! id = Some it →
       (∀ id', model_idx_in_list_ s !! id' = Some it → id' = id) →
       (it, p) ∈ materialized_models_ s → (it, p) ∈ materialized_models_ s') ∧
  (10 ≤ n →
     tracked_models_ s' !! id = None ∧
     frames_found_ s' !! id = None ∧
     frames_lost_ s' !! id = None ∧
     model_idx_in_list_ s' !! id = None ∧
     ∀ it, model_idx_in_list_ s !! id = Some it →
           it ∉ (materialized_models_ s').*1).
Proof.
  intros Hn s'.
  destruct (dropLostObjects_spec s) as (_ & _ & Hkeep & Hdrop & Hmat).
  fold s' in Hkeep, Hdrop, Hmat. unfold LOST_LIMIT in *. split.
  - intros Hle. destruct (Hkeep id) as (Ht & Hf & Hl & Hi).
    { intros n' Hn'. assert (n' = n) by congruence. lia. }
    rewrite Hl. do 4 (split; [done|]).
    intros it p Hit Huniq Hin. rewrite Hmat.
    apply list_elem_of_filter. split; [|done]. simpl.
    intros Hdropped. apply elem_of_dropped_iters in Hdropped
      as (id' & n' & Hn' & Hlim & Hit').
    assert (id' = id) as -> by by apply Huniq.
    assert (n' = n) by congruence. unfold LOST_LIMIT in *. lia.
  - intros Hge. destruct (Hdrop id n Hn Hge) as (Ht & Hf & Hl & Hi).
    do 4 (split; [done|]).
    intros it Hit Hin. apply list_elem_of_fmap in Hin as ([it' p] & Heq & Hin).
    simpl in Heq. subst it'. rewrite Hmat in Hin.
    apply list_elem_of_filter in Hin as [Hnot _]. apply Hnot. simpl.
    apply elem_of_dropped_iters. by exists id, n.
Qed.

(** [materializeFoundObjects] on a state whose found counters belong to
    tracked IDs.  The call leaves an ID whose found counter is at most 4
    as it is: its counter stays and it is materialised afterwards exactly
    if it was before.  An ID whose found counter has reached 5 is
    materialised in that call: its tracked model is appended to the list
    in a new node, the node is recorded for the ID, and the found counter
    is erased. *)
Lemma materializeFoundObjects_limit (s : Aggregator) (id n : Z) :
  found_tracked s → frames_found_ s !! id = Some n →
  ∃ s', materializeFoundObjects s = Some s' ∧
    (n ≤ 4 →
       frames_found_ s' !! id = Some n ∧
       model_idx_in_list_ s' !! id = model_idx_in_list_ s !! id) ∧
    (5 ≤ n →
       frames_found_ s' !! id = None ∧
       ∃ it p new, tracked_models_ s !! id = Some p ∧
         model_idx_in_list_ s' !! id = Some it ∧
         materialized_models_ s' = materialized_models_ s ++ new ∧
         (it, p) ∈ new ∧ it ∉ (materialized_models_ s).*1).
Proof.
  intros Hdef Hn.
  destruct (materializeFoundObjects_defined s) as [s' Hrun].
  { intros id' n' Hn' Hlim. by apply (Hdef id' n'). }
  exists s'. split; [done|].
  destruct (materializeFoundObjects_spec s s' Hrun)
    as (_ & _ & _ & _ & Hkeep & new & Hmat & _ & Hfresh & Hprom).
  unfold FOUND_LIMIT in *. split.
  - intros Hle. destruct (Hkeep id) as [Hf Hi].
    { intros n' Hn'. assert (n' = n) by congruence. lia. }
    by rewrite Hf.
  - intros Hge. destruct (Hprom id n Hn Hge) as (Hf & it & p & Hp & Hit & Hin).
    split; [done|]. exists it, p, new. do 3 (split; [done|]).
    split; [done|]. apply Hfresh. by apply (list_elem_of_fmap_2 fst new (it, p)).
Qed.

(** ** The claims on the blending *)

Section BlendClaims.
Variable center_point : ObjectModel → Coordinate.



(** C9 (as the code has it).  In a frame whose count is a multiple of 30,
    for every matched ID whose tracked model and new obstacle are both
    composites, [adaptTracked] leaves the tracked composite with the
    children of the new obstacle, as they are: the children translated by
    the blend of that frame are dropped with the old list.  (When the new
    obstacle is the tracked object itself, which is the case of an ID
    created in that frame, its children are its own translated ones.)  If
    either of the two is not a composite the refresh does nothing and the
    tracked model is the translated one. *)
Theorem adaptTracked_refresh (h : heap) (s : Aggregator) (corr : gmap Z nat)
    (obs : list ptr) (id : Z) (i : nat) (p q : ptr)
    (tracked new_model : ObjectModel) :
  adapt_defined h (tracked_models_ s) obs corr →
  adapt_separated (tracked_models_ s) obs corr →
  corr !! id = Some i → tracked_models_ s !! id = Some p → obs !! i = Some q →
  h !! p = Some tracked → h !! q = Some new_model →
  Z.rem (frame_cnt_ s) 30 = 0 →
  let v := Coord.div (Coord.sub (center_point new_model) (center_point tracked))
                     two in
  ∃ h', adaptTracked center_point h s corr obs = Some h' ∧
    match as_composite tracked, as_composite new_model with
    | Some _, Some ms =>
        h' !! p = Some (CompositeModel (id_of tracked)
                          (if bool_decide (p = q) then map (accept v) ms else ms))
    | _, _ => h' !! p = Some (accept v tracked)
    end.
Proof.
  intros Hdef Hsep Hi Hp Hq Hold Hnew Hdue v.
  destruct (adaptTracked_spec center_point h s corr obs Hdef Hsep)
    as (h' & Hrun & Hblend & _).
  exists h'. split; [done|].
  rewrite (Hblend id i p q tracked new_model) by done.
  unfold blend, refreshed, refresh_due.
  rewrite bool_decide_eq_true_2 by done.
  fold (translation_vec center_point tracked new_model).
  change (translation_vec center_point tracked new_model) with v.
  destruct (decide (p = q)) as [->|Hne].
  - assert (new_model = tracked) as -> by congruence.
    rewrite bool_decide_eq_true_2 by done.
    destruct tracked as [id0 c|id0 a b|id0 ms]; simpl; done.
  - rewrite bool_decide_eq_false_2 by done.
    destruct tracked as [id0 c|id0 a b|id0 ms]; simpl; try done.
    destruct new_model as [id1 c|id1 a b|id1 ms1]; simpl; done.
Qed.
End BlendClaims.

(** ** The claims on worked inputs *)

(** C1, witness: the two new spheres at 1/16 and 1/8 of the tracked sphere
    at the origin; the entry of the model 0 is the index of the second. *)
Lemma matchToPrevious_last_wins_witness :
  Forall (λ p, is_Some (crowd_heap !! p)) [20%nat; 21%nat] ∧
  ids_below crowd_agg ∧
  nearest example_center_point crowd_heap (tracked_models_ crowd_agg) 20%nat
    = Some (Some 0) ∧
  nearest example_center_point crowd_heap (tracked_models_ crowd_agg) 21%nat
    = Some (Some 0) ∧
  ∃ corr h' s',
    matchToPrevious example_center_point crowd_heap crowd_agg [20%nat; 21%nat]
      = Some (corr, h', s') ∧
    corr !! 0 = Some 1%nat ∧
    (∀ id, corr !! id ≠ Some 0%nat) ∧
    (∀ id, tracked_models_ s' !! id = Some 20%nat →
           tracked_models_ crowd_agg !! id = Some 20%nat).
Proof.
  assert (Forall (λ p, is_Some (crowd_heap !! p)) [20%nat; 21%nat]) as H1
    by by_compute.
  assert (ids_below crowd_agg) as H2 by (unfold ids_below; by_compute).
  assert (nearest example_center_point crowd_heap (tracked_models_ crowd_agg)
            20%nat = Some (Some 0)) as H3 by (vm_compute; reflexivity).
  assert (nearest example_center_point crowd_heap (tracked_models_ crowd_agg)
            21%nat = Some (Some 0)) as H4 by (vm_compute; reflexivity).
  do 4 (split; [assumption|]).
  apply (matchToPrevious_last_wins example_center_point crowd_heap crowd_agg
           [20%nat; 21%nat] 0 0%nat 1%nat 20%nat 21%nat H1 H2);
    [lia|reflexivity|reflexivity|exact H3|exact H4|].
  intros k pk Hk Hpk. destruct k as [|[|k]]; [lia|lia|discriminate].
Defined.

(** C1, counterexample to "the closer observation is kept": the new sphere
    at 1/16 is the closer one, and the entry of the model 0 is the index 1
    of the sphere at 1/8; the sphere at 1/16 gets no ID at all, the
    aggregator is as it was. *)
Lemma matchToPrevious_overwrite_counterexample :
  sq_dist origin (on_x_axis 1 (-4)) = Double.dyadic 1 (-8) ∧
  sq_dist origin (on_x_axis 1 (-3)) = Double.dyadic 1 (-6) ∧
  (Double.dyadic 1 (-6) <=? Double.dyadic 1 (-8))%dbl = false ∧
  matchToPrevious example_center_point crowd_heap crowd_agg [20%nat; 21%nat]
    = Some ({[0 := 1%nat]}, crowd_heap, crowd_agg).
Proof. repeat split; vm_compute; reflexivity. Qed.

(** C2, witness: two new spheres at 1/16 and 1/8, close to each other, in
    front of an empty tracked table. *)
Lemma matchToPrevious_deferred_insertion_witness :
  Forall (λ p, is_Some (crowd_heap !! p)) [20%nat; 21%nat] ∧
  tracked_alive crowd_heap (tracked_models_ SmoothObstacleAggregator) ∧
  ids_below SmoothObstacleAggregator ∧
  (sq_dist (on_x_axis 1 (-4)) (on_x_axis 1 (-3)) <=? tau)%dbl = true ∧
  ∃ corr h' s',
    matchToPrevious example_center_point crowd_heap SmoothObstacleAggregator
      [20%nat; 21%nat] = Some (corr, h', s') ∧
    ∃ idi idj, idi ≠ idj ∧
      corr !! idi = Some 0%nat ∧ corr !! idj = Some 1%nat ∧
      tracked_models_ s' !! idi = Some 20%nat ∧
      tracked_models_ s' !! idj = Some 21%nat.
Proof.
  assert (Forall (λ p, is_Some (crowd_heap !! p)) [20%nat; 21%nat]) as H1
    by by_compute.
  assert (tracked_alive crowd_heap (tracked_models_ SmoothObstacleAggregator))
    as H2 by (unfold tracked_alive; by_compute).
  assert (ids_below SmoothObstacleAggregator) as H3
    by (unfold ids_below; by_compute).
  do 3 (split; [assumption|]). split; [vm_compute; reflexivity|].
  destruct (matchToPrevious_deferred_insertion example_center_point crowd_heap
              SmoothObstacleAggregator [20%nat; 21%nat] H1 H2 H3)
    as (corr & h' & s' & Hrun & _ & Hpair).
  exists corr, h', s'. split; [exact Hrun|].
  destruct (Hpair 0%nat 1%nat 20%nat 21%nat)
    as (idi & idj & Hne & Hci & Hcj & _ & _ & Hti & Htj);
    [lia|reflexivity|reflexivity|vm_compute; reflexivity
    |vm_compute; reflexivity|].
  exists idi, idj. repeat split; assumption.
Defined.


(** C6, witness: the new sphere whose x is a NaN. *)
Lemma matchToPrevious_not_finite_witness :
  Forall (λ p, is_Some (crowd_heap !! p)) [23%nat] ∧
  tracked_alive crowd_heap (tracked_models_ crowd_agg) ∧
  ids_below crowd_agg ∧ NoDup [23%nat] ∧
  crowd_heap !! 23%nat = Some (SphereModel 0 (Coord.mk Double.nan zero zero)) ∧
  Coord.is_finite (Coord.mk Double.nan zero zero) = false ∧
  ∃ corr h' s',
    matchToPrevious example_center_point crowd_heap crowd_agg [23%nat]
      = Some (corr, h', s') ∧
    ∃ id, corr !! id = Some 0%nat ∧
          tracked_models_ s' !! id = Some 23%nat ∧
          h' !! 23%nat
            = Some (set_id id (SphereModel 0 (Coord.mk Double.nan zero zero))).
Proof.
  assert (Forall (λ p, is_Some (crowd_heap !! p)) [23%nat]) as H1 by by_compute.
  assert (tracked_alive crowd_heap (tracked_models_ crowd_agg)) as H2
    by (unfold tracked_alive; by_compute).
  assert (ids_below crowd_agg) as H3 by (unfold ids_below; by_compute).
  assert (NoDup [23%nat]) as H4 by by_compute.
  assert (crowd_heap !! 23%nat
          = Some (SphereModel 0 (Coord.mk Double.nan zero zero))) as H5
    by reflexivity.
  assert (Coord.is_finite (Coord.mk Double.nan zero zero) = false) as H6
    by reflexivity.
  do 6 (split; [assumption|]).
  destruct (matchToPrevious_not_finite example_center_point crowd_heap crowd_agg
              [23%nat] 0%nat 23%nat _ H1 H2 H3 H4 eq_refl H5 H6)
    as (_ & corr & h' & s' & Hrun & id & Hc & _ & _ & Ht & Hh).
  exists corr, h', s'. split; [exact Hrun|]. exists id. repeat split; assumption.
Defined.

(** C6, counterexample to "rejected at ingestion": [updateObstacles] takes
    the sphere whose x is a NaN like any other new obstacle; the distance
    to the tracked sphere is computed and is a NaN, and the frame ends
    with the sphere tracked under the ID 1, NaN included. *)
Lemma updateObstacles_nan_counterexample :
  sq_dist origin (Coord.mk Double.nan zero zero) = Double.nan ∧
  match updateObstacles example_center_point crowd_heap crowd_agg [23%nat] with
  | Some (h', s', out) =>
      tracked_models_ s' !! 1 = Some 23%nat ∧
      h' !! 23%nat = Some (SphereModel 1 (Coord.mk Double.nan zero zero)) ∧
      frames_found_ s' !! 1 = Some 1
  | None => False
  end.
Proof. split; vm_compute; [reflexivity|repeat split; reflexivity]. Qed.

(** C7, witness: the tracked model of [crowd_agg], matched. *)
Lemma updateLostAndFound_streaks_witness :
  is_Some (tracked_models_ crowd_agg !! 0) ∧
  let s' := updateLostAndFound crowd_agg {[0 := 0%nat]} in
  frames_lost_ s' !! 0 = Some 0 ∧ frames_found_ s' !! 0 = Some 2.
Proof.
  assert (is_Some (tracked_models_ crowd_agg !! 0)) as H1 by (by eexists).
  split; [assumption|].
  destruct (updateLostAndFound_streaks crowd_agg {[0 := 0%nat]} 0 H1)
    as [Hmatched _].
  destruct Hmatched as (Hl & Hf & _); [by eexists|].
  split; [exact Hl|]. by apply Hf.
Defined.

(** C7, counterexample to "exactly one is incremented": the materialised
    model of scenario A is matched in a sixth frame; its found counter
    stays absent and its lost counter stays 0. *)
Lemma updateLostAndFound_confirmed_counterexample :
  is_Some (tracked_models_ confirmed_agg !! 0) ∧
  is_Some (model_idx_in_list_ confirmed_agg !! 0) ∧
  frames_found_ confirmed_agg !! 0 = None ∧
  frames_lost_ confirmed_agg !! 0 = Some 0 ∧
  let s' := updateLostAndFound confirmed_agg {[0 := 0%nat]} in
  frames_found_ s' !! 0 = None ∧ frames_lost_ s' !! 0 = Some 0.
Proof. repeat split; vm_compute; try reflexivity; by eexists. Qed.



(** C9, witness: the composites of [refresh_heap] in frame 30. *)
Lemma adaptTracked_refresh_witness :
  adapt_defined refresh_heap (tracked_models_ (with_frame_cnt 30 refresh_agg))
    [20%nat] {[0 := 0%nat]} ∧
  adapt_separated (tracked_models_ (with_frame_cnt 30 refresh_agg))
    [20%nat] {[0 := 0%nat]} ∧
  Z.rem (frame_cnt_ (with_frame_cnt 30 refresh_agg)) 30 = 0 ∧
  ∃ h', adaptTracked example_center_point refresh_heap
          (with_frame_cnt 30 refresh_agg) {[0 := 0%nat]} [20%nat] = Some h' ∧
        h' !! 10%nat = Some (CompositeModel 0 [SphereModel 0 (on_x_axis 1 (-3))]).
Proof.
  assert (adapt_defined refresh_heap
            (tracked_models_ (with_frame_cnt 30 refresh_agg))
            [20%nat] {[0 := 0%nat]}) as H1 by (unfold adapt_defined; by_compute).
  assert (adapt_separated (tracked_models_ (with_frame_cnt 30 refresh_agg))
            [20%nat] {[0 := 0%nat]}) as H2
    by (unfold adapt_separated; by_compute).
  assert (Z.rem (frame_cnt_ (with_frame_cnt 30 refresh_agg)) 30 = 0) as H3
    by reflexivity.
  do 3 (split; [assumption|]).
  destruct (adaptTracked_refresh example_center_point refresh_heap
              (with_frame_cnt 30 refresh_agg)
              {[0 := 0%nat]} [20%nat] 0 0%nat 10%nat 20%nat
              (CompositeModel 0 [SphereModel 0 origin])
              (CompositeModel 0 [SphereModel 0 (on_x_axis 1 (-3))])
              H1 H2 eq_refl eq_refl eq_refl eq_refl eq_refl H3)
    as (h' & Hrun & Hres).
  exists h'. split; [exact Hrun|]. exact Hres.
Defined.

(** C9, counterexample to "the positional midpoint blend still applies
    that frame": the frame 30 of a materialised composite at the origin
    and a new composite at 1/8.  The midpoint rule puts the reference
    point at 1/16; after the frame the tracked composite holds the sphere
    of the new one and its reference point is at 1/8. *)
Lemma updateObstacles_refresh_counterexample :
  Coord.add (example_center_point (CompositeModel 0 [SphereModel 0 origin]))
    (translation_vec example_center_point
       (CompositeModel 0 [SphereModel 0 origin])
       (CompositeModel 0 [SphereModel 0 (on_x_axis 1 (-3))]))
    = on_x_axis 1 (-4) ∧
  match updateObstacles example_center_point refresh_heap refresh_agg
          [20%nat] with
  | Some (h', s', out) =>
      frame_cnt_ s' = 30 ∧ out = [10%nat] ∧
      h' !! 10%nat = Some (CompositeModel 0 [SphereModel 0 (on_x_axis 1 (-3))]) ∧
      example_center_point <$> h' !! 10%nat = Some (on_x_axis 1 (-3))
  | None => False
  end.
Proof. split; vm_compute; [reflexivity|repeat split; reflexivity]. Qed.

(** C10, witness: the new sphere at 1, far from the tracked one. *)
Lemma matchToPrevious_keeps_unmatched_witness :
  Forall (λ p, is_Some (crowd_heap !! p)) [22%nat] ∧
  tracked_alive crowd_heap (tracked_models_ crowd_agg) ∧
  ids_below crowd_agg ∧ NoDup [22%nat] ∧
  ∃ corr h' s',
    matchToPrevious example_center_point crowd_heap crowd_agg [22%nat]
      = Some (corr, h', s') ∧
    ∃ id, corr !! id = Some 0%nat ∧
          tracked_models_ crowd_agg !! id = None ∧
          tracked_models_ s' !! id = Some 22%nat ∧
          h' !! 22%nat = set_id id <$> crowd_heap !! 22%nat.
Proof.
  assert (Forall (λ p, is_Some (crowd_heap !! p)) [22%nat]) as H1 by by_compute.
  assert (tracked_alive crowd_heap (tracked_models_ crowd_agg)) as H2
    by (unfold tracked_alive; by_compute).
  assert (ids_below crowd_agg) as H3 by (unfold ids_below; by_compute).
  assert (NoDup [22%nat]) as H4 by by_compute.
  do 4 (split; [assumption|]).
  destruct (matchToPrevious_keeps_unmatched example_center_point crowd_heap
              crowd_agg [22%nat] H1 H2 H3 H4)
    as (corr & h' & s' & Hrun & Hnew & _).
  exists corr, h', s'. split; [exact Hrun|].
  apply (Hnew 0%nat 22%nat); [reflexivity|vm_compute; reflexivity].
Defined.

(** C10, counterexample to "retains no reference and has not mutated
    them": after [matchToPrevious] the tracked table holds the address of
    the new sphere, under the ID 1, and the ID of the sphere object, which
    was 0, is 1. *)
Lemma matchToPrevious_retains_counterexample :
  crowd_heap !! 22%nat = Some (SphereModel 0 (on_x_axis 1 0)) ∧
  match matchToPrevious example_center_point crowd_heap crowd_agg [22%nat] with
  | Some (corr, h', s') =>
      corr = {[1 := 0%nat]} ∧
      tracked_models_ s' !! 1 = Some 22%nat ∧
      h' !! 22%nat = Some (SphereModel 1 (on_x_axis 1 0))
  | None => False
  end.
Proof. split; vm_compute; [reflexivity|repeat split; reflexivity]. Qed.

(** ** Well-formed states *)

Lemma wf_init (h : heap) : wf h SmoothObstacleAggregator.
Proof.
  unfold SmoothObstacleAggregator. split; cbn [next_model_id_ tracked_models_
    frames_found_ frames_lost_ materialized_models_ model_idx_in_list_].
  - apply map_Forall_empty.
  - apply map_Forall_empty.
  - intros id1 id2 p Hp. by rewrite lookup_empty in Hp.
  - intros id [n Hn]. by rewrite lookup_empty in Hn.
  - intros id it Hit. by rewrite lookup_empty in Hit.
  - intros it p Hin. by apply elem_of_nil in Hin.
  - constructor.
  - intros id1 id2 it Hit. by rewrite lookup_empty in Hit.
  - intros id [it Hit]. by rewrite lookup_empty in Hit.
Qed.

Lemma updateLostAndFound_wf (h : heap) (s : Aggregator) (new_matches : gmap Z nat) :
  wf h s → wf h (updateLostAndFound s new_matches).
Proof.
  intros [Hbelow Halive Hinj Hfound Hidx Hnodes Hiters Hidxinj Hconf].
  destruct (updateLostAndFound_spec s new_matches)
    as ((Hn & Ht & Hm & Hi & Hc) & Hup & Hother).
  set (s' := updateLostAndFound s new_matches) in *.
  split.
  - unfold ids_below. by rewrite Hn, Ht.
  - by rewrite Ht.
  - by rewrite Ht.
  - rewrite Ht. intros id Hf.
    destruct (tracked_models_ s !! id) as [p|] eqn:Hp; [done|].
    destruct (Hother id Hp) as [Hf' _]. rewrite Hf' in Hf.
    rewrite <- Hp. by apply Hfound.
  - by rewrite Ht, Hm, Hi.
  - by rewrite Ht, Hm, Hi.
  - by rewrite Hm.
  - by rewrite Hi.
  - rewrite Hi. intros id Hit.
    destruct (tracked_models_ s !! id) as [p|] eqn:Hp.
    + specialize (Hup id ltac:(by rewrite Hp)).
      unfold streaks_updated in Hup. destruct Hit as [it Hit].
      rewrite Hit in Hup. unfold counter.
      destruct (new_matches !! id); destruct Hup as [_ ->]; [|done].
      apply Hconf. by rewrite Hit.
    + destruct (Hother id Hp) as [Hf' _]. unfold counter. rewrite Hf'.
      by apply Hconf.
Qed.

(** An ID is either kept or dropped by [dropLostObjects], as a whole. *)
Lemma dropLostObjects_cases (s : Aggregator) (id : Z) :
  let s' := dropLostObjects s in
  (tracked_models_ s' !! id = tracked_models_ s !! id ∧
   frames_found_ s' !! id = frames_found_ s !! id ∧
   frames_lost_ s' !! id = frames_lost_ s !! id ∧
   model_idx_in_list_ s' !! id = model_idx_in_list_ s !! id ∧
   ∀ n, frames_lost_ s !! id = Some n → n < LOST_LIMIT) ∨
  (tracked_models_ s' !! id = None ∧
   frames_found_ s' !! id = None ∧
   frames_lost_ s' !! id = None ∧
   model_idx_in_list_ s' !! id = None ∧
   ∃ n, frames_lost_ s !! id = Some n ∧ LOST_LIMIT ≤ n).
Proof.
  intros s'. destruct (dropLostObjects_spec s) as (_ & _ & Hkeep & Hdrop & _).
  fold s' in Hkeep, Hdrop.
  assert ((∃ n, frames_lost_ s !! id = Some n ∧ LOST_LIMIT ≤ n) ∨
          (∀ n, frames_lost_ s !! id = Some n → n < LOST_LIMIT))
    as [(n & Hn & Hlim)|Hlt].
  { destruct (frames_lost_ s !! id) as [n|]; [|by right].
    destruct (decide (LOST_LIMIT ≤ n)); [left; by exists n|].
    right. intros n' [= <-]. lia. }
  - right. destruct (Hdrop id n Hn Hlim) as (?&?&?&?).
    do 4 (split; [done|]). by exists n.
  - left. destruct (Hkeep id Hlt) as (?&?&?&?). by do 4 (split; [done|]).
Qed.

Lemma dropLostObjects_wf (h : heap) (s : Aggregator) :
  wf h s → wf h (dropLostObjects s).
Proof.
  intros [Hbelow Halive Hinj Hfound Hidx Hnodes Hiters Hidxinj Hconf].
  destruct (dropLostObjects_spec s) as (Hn & _ & _ & _ & Hmat).
  pose proof (dropLostObjects_cases s) as Hcases.
  set (s' := dropLostObjects s) in *. cbv zeta in Hcases.
  assert (∀ id p, tracked_models_ s' !! id = Some p →
                  tracked_models_ s !! id = Some p) as Htr.
  { intros id p Hp. destruct (Hcases id) as [(Ht & _)|(Ht & _)]; congruence. }
  assert (∀ id it, model_idx_in_list_ s !! id = Some it →
            (∀ n, frames_lost_ s !! id = Some n → n < LOST_LIMIT) →
            it ∉ dropped_iters (model_idx_in_list_ s) (elements (frames_lost_ s)))
    as Hnotdropped.
  { intros id it Hit Hlt Hin.
    apply elem_of_dropped_iters in Hin as (id' & n' & Hn' & Hlim & Hit').
    assert (id' = id) as -> by by eapply Hidxinj.
    specialize (Hlt n' Hn'). lia. }
  split.
  - intros id p Hp. unfold ids_below in Hbelow. rewrite Hn.
    apply (Hbelow id p). by apply Htr.
  - intros id p Hp. apply (Halive id p). by apply Htr.
  - intros id1 id2 p H1 H2. apply (Hinj id1 id2 p); by apply Htr.
  - intros id Hf. destruct (Hcases id) as [(Ht & Hf' & _)|(_ & Hf' & _)].
    + rewrite Ht. apply Hfound. by rewrite <- Hf'.
    + rewrite Hf' in Hf. by destruct Hf.
  - intros id it Hit.
    destruct (Hcases id) as [(Ht & _ & _ & Hi & Hlt)|(_ & _ & _ & Hi & _)];
      [|congruence].
    rewrite Hi in Hit. destruct (Hidx id it Hit) as (p & Hp & Hin).
    exists p. split; [by rewrite Ht|]. rewrite Hmat.
    apply list_elem_of_filter. split; [|done]. simpl.
    by apply (Hnotdropped id).
  - intros it p Hin. rewrite Hmat in Hin.
    apply list_elem_of_filter in Hin as [Hnot Hin]. simpl in Hnot.
    destruct (Hnodes it p Hin) as (id & Hit & Hp). exists id.
    destruct (Hcases id) as [(Ht & _ & _ & Hi & _)|(_ & _ & _ & _ & n & Hl & Hlim)].
    + by rewrite Ht, Hi.
    + destruct Hnot. apply elem_of_dropped_iters. by exists id, n.
  - rewrite Hmat. eapply sublist_NoDup; [exact Hiters|].
    apply fmap_sublist, sublist_filter.
  - intros id1 id2 it H1 H2.
    assert (∀ id, model_idx_in_list_ s' !! id = Some it →
                  model_idx_in_list_ s !! id = Some it) as Hi.
    { intros id Hit.
      destruct (Hcases id) as [(_&_&_& Hi &_)|(_&_&_& Hi &_)]; congruence. }
    apply (Hidxinj id1 id2 it); by apply Hi.
  - intros id [it Hit].
    destruct (Hcases id) as [(_ & Hf & _ & Hi & _)|(_ & _ & _ & Hi & _)];
      [|congruence].
    unfold counter. rewrite Hf. apply Hconf. rewrite <- Hi. by exists it.
Qed.

(** The new nodes of [materializeFoundObjects]: they have new addresses
    and each belongs to a materialised ID. *)
Lemma materialize_loop_nodes (l : list (Z * Z)) (s s' : Aggregator)
    (new : list (nat * nat)) :
  NoDup l.*1 → foldM materialize_one s l = Some s' →
  materialized_models_ s' = materialized_models_ s ++ new →
  (NoDup (materialized_models_ s).*1 → NoDup (materialized_models_ s').*1) ∧
  (∀ it p, (it, p) ∈ new →
     ∃ id n, (id, n) ∈ l ∧ FOUND_LIMIT ≤ n ∧
             tracked_models_ s !! id = Some p ∧
             model_idx_in_list_ s' !! id = Some it).
Proof.
  revert s new. induction l as [|[id0 n0] l IH]; intros s new Hnd Hrun Hmat;
    simpl in *.
  - injection Hrun as <-.
    assert (new = []) as ->.
    { apply (app_inv_head (materialized_models_ s)). by rewrite app_nil_r. }
    split; [done|]. intros it p Hin. by apply elem_of_nil in Hin.
  - apply NoDup_cons in Hnd as [He Hnd].
    destruct (materialize_one s (id0, n0)) as [s1|] eqn:Hone;
      simpl in Hrun; [|done].
    destruct (materialize_loop_spec l s1 s' Hnd Hrun)
      as (_ & _ & Ht & _ & Hkeep & new1 & Hmat1 & _ & _ & _).
    destruct (IH s1 new1 Hnd Hrun Hmat1) as [Hiters Hnodes].
    unfold materialize_one in Hone. simpl in Hone.
    destruct (decide (FOUND_LIMIT ≤ n0)) as [Hn0|Hn0].
    + destruct (tracked_models_ s !! id0) as [p0|] eqn:Hp0; simpl in Hone; [|done].
      injection Hone as <-. simpl in *.
      assert (new = (fresh_iter (materialized_models_ s), p0) :: new1) as ->.
      { apply (app_inv_head (materialized_models_ s)).
        rewrite <- Hmat, Hmat1. by rewrite <- app_assoc. }
      split.
      * intros Hnd0. apply Hiters. rewrite fmap_app. apply NoDup_app.
        split; [done|]. split; [|apply NoDup_singleton].
        intros it Hit Hin. simpl in Hin. apply list_elem_of_singleton in Hin.
        subst it. by apply fresh_iter_fresh in Hit.
      * intros it p Hin. apply elem_of_cons in Hin as [Heq|Hin].
        -- injection Heq as -> ->. exists id0, n0.
           split; [by left|]. do 2 (split; [done|]).
           destruct (Hkeep id0) as [_ ->].
           { intros n Hin. destruct He.
             by apply (list_elem_of_fmap_2 fst l (id0, n)). }
           apply lookup_insert_eq.
        -- destruct (Hnodes it p Hin) as (id & n & Hin' & Hlim & Hp & Hit).
           exists id, n. split; [by right|]. by do 2 (split; [done|]).
    + injection Hone as <-.
      assert (new = new1) as ->.
      { apply (app_inv_head (materialized_models_ s)). by rewrite <- Hmat. }
      split; [done|].
      intros it p Hin. destruct (Hnodes it p Hin) as (id & n & Hin' & Hrest).
      exists id, n. split; [by right|done].
Qed.

Lemma NoDup_fst_functional {A B} (l : list (A * B)) (a : A) (b1 b2 : B) :
  NoDup l.*1 → (a, b1) ∈ l → (a, b2) ∈ l → b1 = b2.
Proof.
  induction l as [|[a' b'] l IH]; intros Hnd H1 H2; [by apply elem_of_nil in H1|].
  simpl in Hnd. apply NoDup_cons in Hnd as [Ha Hnd].
  apply elem_of_cons in H1 as [H1|H1], H2 as [H2|H2].
  - congruence.
  - injection H1 as -> ->. destruct Ha.
    by apply (list_elem_of_fmap_2 fst l (a', b2)).
  - injection H2 as -> ->. destruct Ha.
    by apply (list_elem_of_fmap_2 fst l (a', b1)).
  - by apply IH.
Qed.

Lemma materializeFoundObjects_wf (h : heap) (s : Aggregator) :
  wf h s → ∃ s', materializeFoundObjects s = Some s' ∧ wf h s'.
Proof.
  intros [Hbelow Halive Hinj Hfound Hidx Hnodes Hiters Hidxinj Hconf].
  destruct (materializeFoundObjects_defined s) as [s' Hrun].
  { intros id n Hn _. apply Hfound. by rewrite Hn. }
  exists s'. split; [done|].
  destruct (materializeFoundObjects_spec s s' Hrun)
    as (Hn & _ & Ht & _ & Hkeep & new & Hmat & _ & Hfresh & Hprom).
  destruct (materialize_loop_nodes (elements (frames_found_ s)) s s' new)
    as [Hiters' Hnew]; [apply NoDup_fst_elements|done|done|].
  assert (∀ id,
    (frames_found_ s' !! id = frames_found_ s !! id ∧
     model_idx_in_list_ s' !! id = model_idx_in_list_ s !! id) ∨
    (frames_found_ s' !! id = None ∧
     model_idx_in_list_ s !! id = None ∧
     ∃ it p, tracked_models_ s !! id = Some p ∧
             model_idx_in_list_ s' !! id = Some it ∧ (it, p) ∈ new))
    as Hcases.
  { intros id. destruct (frames_found_ s !! id) as [n|] eqn:Hf.
    - destruct (decide (FOUND_LIMIT ≤ n)) as [Hlim|Hlim].
      + right. destruct (Hprom id n Hf Hlim) as [Hf' Hnode].
        split; [done|]. split; [|done].
        destruct (model_idx_in_list_ s !! id) as [it|] eqn:Hit; [|done].
        specialize (Hconf id ltac:(by rewrite Hit)).
        unfold counter in Hconf. rewrite Hf in Hconf. simpl in Hconf.
        unfold FOUND_LIMIT in Hlim. lia.
      + left. rewrite <- Hf. apply Hkeep. intros n' Hn'.
        assert (n' = n) by congruence. lia.
    - left. rewrite <- Hf. apply Hkeep. intros n' Hn'. congruence. }
  split.
  - unfold ids_below. by rewrite Hn, Ht.
  - by rewrite Ht.
  - by rewrite Ht.
  - rewrite Ht. intros id Hf.
    destruct (Hcases id) as [[Hf' _]|[Hf' _]].
    + apply Hfound. by rewrite <- Hf'.
    + rewrite Hf' in Hf. by destruct Hf.
  - rewrite Ht, Hmat. intros id it Hit.
    destruct (Hcases id) as [[_ Hi]|(_ & _ & it' & p & Hp & Hi & Hin)].
    + rewrite Hi in Hit. destruct (Hidx id it Hit) as (p & Hp & Hin).
      exists p. split; [done|]. apply elem_of_app. by left.
    + assert (it' = it) as -> by congruence.
      exists p. split; [done|]. apply elem_of_app. by right.
  - rewrite Ht, Hmat. intros it p Hin. apply elem_of_app in Hin as [Hin|Hin].
    + destruct (Hnodes it p Hin) as (id & Hit & Hp). exists id.
      split; [|done].
      destruct (Hcases id) as [[_ Hi]|(_ & Hi & _)]; congruence.
    + destruct (Hnew it p Hin) as (id & n & _ & _ & Hp & Hit). by exists id.
  - by apply Hiters'.
  - intros id1 id2 it H1 H2.
    destruct (Hcases id1) as [[_ Hi1]|(_ & _ & it1 & p1 & Hp1 & Hi1 & Hin1)],
             (Hcases id2) as [[_ Hi2]|(_ & _ & it2 & p2 & Hp2 & Hi2 & Hin2)].
    + apply (Hidxinj id1 id2 it); congruence.
    + assert (it2 = it) as -> by congruence.
      rewrite Hi1 in H1. destruct (Hidx id1 it H1) as (p & _ & Hin).
      destruct (Hfresh it).
      * by apply (list_elem_of_fmap_2 fst new (it, p2)).
      * by apply (list_elem_of_fmap_2 fst _ (it, p)).
    + assert (it1 = it) as -> by congruence.
      rewrite Hi2 in H2. destruct (Hidx id2 it H2) as (p & _ & Hin).
      destruct (Hfresh it).
      * by apply (list_elem_of_fmap_2 fst new (it, p1)).
      * by apply (list_elem_of_fmap_2 fst _ (it, p)).
    + assert (it1 = it) as -> by congruence.
      assert (it2 = it) as -> by congruence.
      assert (p1 = p2) as ->.
      { apply (NoDup_fst_functional (materialized_models_ s') it);
          [by apply Hiters'|rewrite Hmat; apply elem_of_app; by right..]. }
      by apply (Hinj id1 id2 p2).
  - intros id Hit. unfold counter.
    destruct (Hcases id) as [[Hf Hi]|(Hf & _)].
    + rewrite Hf. apply Hconf. by rewrite <- Hi.
    + by rewrite Hf.
Qed.

Section Frames.
Variable center_point : ObjectModel → Coordinate.

Lemma adapt_one_dom (s : Aggregator) (obs : list ptr) (h h' : heap)
    (elem : Z * nat) :
  adapt_one center_point s obs h elem = Some h' → dom h' = dom h.
Proof.
  destruct elem as [id i]. intros Hrun.
  assert (∃ q new_model p tracked,
            obs !! i = Some q ∧ h !! q = Some new_model ∧
            tracked_models_ s !! id = Some p ∧ h !! p = Some tracked)
    as (q & new_model & p & tracked & Hq & Hnew & Hp & Hold).
  { unfold adapt_one in Hrun. cbn [fst snd] in Hrun.
    destruct (obs !! i) as [q|] eqn:Hq; simpl in Hrun; [|done].
    destruct (h !! q) as [new_model|] eqn:Hnew; simpl in Hrun; [|done].
    destruct (tracked_models_ s !! id) as [p|] eqn:Hp; simpl in Hrun; [|done].
    destruct (h !! p) as [tracked|] eqn:Hold; simpl in Hrun; [|done].
    by exists q, new_model, p, tracked. }
  rewrite (adapt_one_spec center_point s obs h id i p q tracked new_model)
    in Hrun by done.
  injection Hrun as <-. rewrite dom_insert_L.
  assert (p ∈ dom h) by (apply elem_of_dom; eauto). set_solver.
Qed.

Lemma adaptTracked_dom (h h' : heap) (s : Aggregator) (corr : gmap Z nat)
    (obs : list ptr) :
  adaptTracked center_point h s corr obs = Some h' → dom h' = dom h.
Proof.
  unfold adaptTracked. generalize (elements corr). intros l. revert h.
  induction l as [|e l IH]; intros h Hrun; simpl in Hrun.
  - by injection Hrun as <-.
  - destruct (adapt_one center_point s obs h e) as [h1|] eqn:Hone;
      simpl in Hrun; [|done].
    rewrite (IH h1 Hrun). by eapply adapt_one_dom.
Qed.

(** An ID after [matchToPrevious]: left as it was, or new in the frame. *)
Lemma matchToPrevious_cases (h h' : heap) (s s' : Aggregator)
    (obs : list ptr) (corr : gmap Z nat) (id : Z) :
  matchToPrevious center_point h s obs = Some (corr, h', s') → ids_below s →
  (tracked_models_ s' !! id = tracked_models_ s !! id ∧
   frames_found_ s' !! id = frames_found_ s !! id ∧
   frames_lost_ s' !! id = frames_lost_ s !! id) ∨
  (tracked_models_ s !! id = None ∧
   next_model_id_ s ≤ id < next_model_id_ s' ∧
   ∃ k p, obs !! k = Some p ∧ corr !! id = Some k ∧
          tracked_models_ s' !! id = Some p ∧
          frames_found_ s' !! id = Some 0 ∧ frames_lost_ s' !! id = Some 0).
Proof.
  intros Hrun Hbelow.
  pose proof (matchToPrevious_spec _ _ _ _ _ _ _ Hrun) as Hspec.
  cbv zeta in Hspec.
  destruct Hspec as (rs & Hrs & Hcorr & Hnext & _ & _ & _ & _ & Hold & Hnew & _).
  destruct (tracked_models_ s !! id) as [q|] eqn:HT.
  { left. rewrite <- HT. apply Hold. intros k _. congruence. }
  destruct (decide (id ∈ assign (next_model_id_ s) rs)) as [Hin|Hin].
  - right. split; [done|].
    apply list_elem_of_lookup_1 in Hin as [k Hk].
    destruct (Hnew k id Hk HT) as (p & Hp & Ht & Hf & Hl & _).
    destruct (ids_inv center_point h s obs rs Hbelow Hrs k id Hk)
      as (p' & Hp' & [(_ & [q Hq] & _)|(Hn & _ & _ & Hrange)]); [congruence|].
    split; [lia|]. exists k, p. split; [done|]. split; [|done].
    rewrite Hcorr. apply record_all_indexed. split; [done|].
    intros k' Hlt Hk'.
    assert (p' = p) as -> by congruence.
    pose proof (ids_fresh_unique center_point h s obs rs Hbelow Hrs
                  k k' p id Hp Hn Hk Hk'). lia.
  - left. rewrite <- HT. apply Hold.
    intros k Hk. destruct Hin. by eapply list_elem_of_lookup_2.
Qed.

(** An entry of the correspondence: a new obstacle and a tracked ID. *)
Lemma matchToPrevious_corr (h h' : heap) (s s' : Aggregator)
    (obs : list ptr) (corr : gmap Z nat) (id : Z) (k : nat) :
  matchToPrevious center_point h s obs = Some (corr, h', s') → ids_below s →
  corr !! id = Some k →
  is_Some (obs !! k) ∧ is_Some (tracked_models_ s' !! id) ∧
  ∀ id', corr !! id' = Some k → id' = id.
Proof.
  intros Hrun Hbelow Hid.
  pose proof (matchToPrevious_spec _ _ _ _ _ _ _ Hrun) as Hspec.
  cbv zeta in Hspec.
  destruct Hspec as (rs & Hrs & Hcorr & _ & _ & _ & _ & _ & Hold & Hnew & _).
  rewrite Hcorr in Hid. apply record_all_indexed in Hid as [Hid _].
  destruct (ids_inv center_point h s obs rs Hbelow Hrs k id Hid)
    as (p & Hp & [(_ & [q Hq] & _)|(Hn & _ & HT & _)]).
  - split; [by exists p|]. split.
    + destruct (Hold id) as [-> _]; [intros; congruence|by exists q].
    + intros id' Hid'. rewrite Hcorr in Hid'.
      apply record_all_indexed in Hid' as [Hid' _]. congruence.
  - split; [by exists p|]. split.
    + destruct (Hnew k id Hid HT) as (p' & _ & -> & _). by exists p'.
    + intros id' Hid'. rewrite Hcorr in Hid'.
      apply record_all_indexed in Hid' as [Hid' _]. congruence.
Qed.

Lemma matchToPrevious_wf (h : heap) (s : Aggregator) (obs : list ptr) :
  wf h s → fresh_obstacles h s obs →
  ∃ corr h1 s1,
    matchToPrevious center_point h s obs = Some (corr, h1, s1) ∧
    wf h1 s1 ∧ dom h1 = dom h ∧
    adapt_defined h1 (tracked_models_ s1) obs corr ∧
    adapt_separated (tracked_models_ s1) obs corr ∧
    next_model_id_ s ≤ next_model_id_ s1 ∧ frame_cnt_ s1 = frame_cnt_ s.
Proof.
  intros [Hbelow Halive Hinj Hfound Hidx Hnodes Hiters Hidxinj Hconf]
         (Hobs & Hnd & Hfresh).
  destruct (matchToPrevious_defined center_point h s obs Hobs Halive)
    as [[[corr h1] s1] Hrun].
  exists corr, h1, s1. split; [done|].
  pose proof (matchToPrevious_spec _ _ _ _ _ _ _ Hrun) as Hspec.
  cbv zeta in Hspec.
  destruct Hspec as (rs & _ & _ & Hnext & Hmat & Hi & Hcnt & Hdom & _).
  pose proof (fresh_count_nonneg rs) as Hcount.
  pose proof (λ id, matchToPrevious_cases h h1 s s1 obs corr id Hrun Hbelow)
    as Hcases.
  assert (∀ id p, tracked_models_ s !! id = Some p →
                  tracked_models_ s1 !! id = Some p) as Hold.
  { intros id p Hp. destruct (Hcases id) as [(-> & _)|(HT & _)]; congruence. }
  assert (∀ k p, obs !! k = Some p → is_Some (h1 !! p)) as Hobs1.
  { intros k p Hp. apply elem_of_dom. rewrite Hdom. apply elem_of_dom.
    rewrite Forall_forall in Hobs. apply Hobs. by eapply list_elem_of_lookup_2. }
  assert (∀ id p, tracked_models_ s1 !! id = Some p → is_Some (h1 !! p))
    as Halive1.
  { intros id p Hp.
    destruct (Hcases id) as [(Ht & _)|(_ & _ & k & p' & Hp' & _ & Ht & _)].
    - apply elem_of_dom. rewrite Hdom. apply elem_of_dom.
      apply (Halive id p). congruence.
    - apply (Hobs1 k). congruence. }
  assert (∀ id1 id2 p, tracked_models_ s1 !! id1 = Some p →
            tracked_models_ s1 !! id2 = Some p → id1 = id2) as Hinj1.
  { intros id1 id2 p H1 H2.
    destruct (Hcases id1) as [(Ht1 & _)|(_ & _ & k1 & p1 & Hp1 & Hc1 & Ht1 & _)],
             (Hcases id2) as [(Ht2 & _)|(_ & _ & k2 & p2 & Hp2 & Hc2 & Ht2 & _)].
    - apply (Hinj id1 id2 p); congruence.
    - assert (p2 = p) as -> by congruence.
      destruct (Hfresh id1 p); [congruence|by eapply list_elem_of_lookup_2].
    - assert (p1 = p) as -> by congruence.
      destruct (Hfresh id2 p); [congruence|by eapply list_elem_of_lookup_2].
    - assert (p1 = p) as -> by congruence.
      assert (p2 = p) as -> by congruence.
      assert (k1 = k2) as -> by by apply (NoDup_lookup obs k1 k2 p).
      destruct (matchToPrevious_corr h h1 s s1 obs corr id1 k2 Hrun Hbelow Hc1)
        as (_ & _ & Huniq).
      symmetry. by apply Huniq. }
  split; [|split; [done|split; [|split; [|split; [lia|done]]]]].
  - split.
    + intros id p Hp. rewrite Hnext.
      destruct (Hcases id) as [(Ht & _)|(_ & Hrange & _)]; [|lia].
      rewrite Ht in Hp. specialize (Hbelow id p Hp). simpl in Hbelow. lia.
    + exact Halive1.
    + exact Hinj1.
    + intros id Hf.
      destruct (Hcases id) as [(Ht & Hf' & _)|(_ & _ & k & p & _ & _ & Ht & _)].
      * rewrite Ht. apply Hfound. by rewrite <- Hf'.
      * by rewrite Ht.
    + rewrite Hmat, Hi. intros id it Hit.
      destruct (Hidx id it Hit) as (p & Hp & Hin). exists p.
      split; [by apply Hold|done].
    + rewrite Hmat, Hi. intros it p Hin.
      destruct (Hnodes it p Hin) as (id & Hit & Hp). exists id.
      split; [done|by apply Hold].
    + by rewrite Hmat.
    + by rewrite Hi.
    + rewrite Hi. intros id Hit. unfold counter.
      destruct (Hcases id) as [(_ & Hf & _)|(HT & _)].
      * rewrite Hf. by apply Hconf.
      * destruct Hit as [it Hit]. destruct (Hidx id it Hit) as (p & Hp & _).
        congruence.
  - intros id k Hid.
    destruct (matchToPrevious_corr h h1 s s1 obs corr id k Hrun Hbelow Hid)
      as ([p Hp] & [p' Hp'] & _).
    rewrite Hp, Hp'. simpl. split; [by eapply Halive1|by eapply Hobs1].
  - intros id1 k1 H1 id2 k2 H2 Hne [p2 Hp2]. rewrite Hp2. split.
    + intros Hp1. by apply Hne, (Hinj1 id1 id2 p2).
    + intros Hp1.
      destruct (Hcases id2) as [(Ht2 & _)|(_ & _ & k & p & Hp & Hc & Ht & _)].
      * destruct (Hfresh id2 p2); [congruence|by eapply list_elem_of_lookup_2].
      * assert (p = p2) as -> by congruence.
        assert (k = k1) as -> by by apply (NoDup_lookup obs k k1 p2).
        destruct (matchToPrevious_corr h h1 s s1 obs corr id1 k1 Hrun Hbelow H1)
          as (_ & _ & Huniq).
        apply Hne. symmetry. by apply Huniq.
Qed.
End Frames.

(** ** A frame on a well-formed state *)

Lemma with_frame_cnt_wf (h : heap) (s : Aggregator) (n : Z) :
  wf h s → wf h (with_frame_cnt n s).
Proof. intros []. by split. Qed.

Lemma wf_heap_grows (h h' : heap) (s : Aggregator) :
  wf h s → dom h ⊆ dom h' → wf h' s.
Proof.
  intros [Hbelow Halive Hinj Hfound Hidx Hnodes Hiters Hidxinj Hconf] Hdom.
  split; try done.
  intros id p Hp. apply elem_of_dom, Hdom, elem_of_dom.
  by apply (Halive id p).
Qed.

Lemma dropLostObjects_settled (s : Aggregator) :
  map_Forall (λ _ n, n < LOST_LIMIT) (frames_lost_ (dropLostObjects s)).
Proof.
  intros id n Hn. simpl.
  destruct (dropLostObjects_cases s id)
    as [(_ & _ & Hl & _ & Hlt)|(_ & _ & Hl & _)]; [|congruence].
  apply Hlt. congruence.
Qed.

Lemma materializeFoundObjects_settled (s s' : Aggregator) :
  materializeFoundObjects s = Some s' →
  map_Forall (λ _ n, n < FOUND_LIMIT) (frames_found_ s').
Proof.
  intros Hrun id n Hn. simpl.
  destruct (materializeFoundObjects_spec s s' Hrun)
    as (_ & _ & _ & _ & Hkeep & new & _ & _ & _ & Hprom).
  destruct (decide (FOUND_LIMIT ≤ n)) as [Hlim|Hlim]; [|lia].
  destruct (frames_found_ s !! id) as [n0|] eqn:Hn0.
  - destruct (decide (FOUND_LIMIT ≤ n0)) as [Hlim0|Hlim0].
    + destruct (Hprom id n0 Hn0 Hlim0) as [Hnone _]. congruence.
    + destruct (Hkeep id) as [Hf _].
      { intros n' Hn'. assert (n' = n0) by congruence. lia. }
      assert (n = n0) by congruence. lia.
  - destruct (Hkeep id) as [Hf _]; [intros n' Hn'; congruence|]. congruence.
Qed.

Lemma record_all_is_Some (c : gmap Z nat) (l : list (Z * nat)) (id : Z) :
  id ∈ l.*1 → is_Some (record_all c l !! id).
Proof.
  induction l as [|e l IH] using rev_ind; [by intros ?%elem_of_nil|].
  rewrite fmap_app, elem_of_app, record_all_snoc. intros Hin.
  destruct (decide (e.1 = id)) as [<-|Hne].
  - rewrite lookup_insert_eq. by eexists.
  - rewrite lookup_insert_ne by done. apply IH.
    destruct Hin as [Hin|Hin]; [done|].
    simpl in Hin. apply list_elem_of_singleton in Hin. congruence.
Qed.

Section WellFormedFrames.
Variable center_point : ObjectModel → Coordinate.

(** The steps of [updateObstacles] on a well-formed state and fresh
    obstacles: each returns and keeps the state well-formed. *)
Lemma updateObstacles_stages (h : heap) (s : Aggregator) (obs : list ptr) :
  wf h s → fresh_obstacles h s obs →
  ∃ corr h1 s1 h2 s4,
    matchToPrevious center_point h (with_frame_cnt (frame_cnt_ s + 1) s) obs
      = Some (corr, h1, s1) ∧
    adaptTracked center_point h1 (updateLostAndFound s1 corr) corr obs
      = Some h2 ∧
    materializeFoundObjects (dropLostObjects (updateLostAndFound s1 corr))
      = Some s4 ∧
    updateObstacles center_point h s obs
      = Some (h2, s4, copyMaterialized s4) ∧
    wf h1 s1 ∧ wf h2 (dropLostObjects (updateLostAndFound s1 corr)) ∧
    wf h2 s4 ∧ dom h2 = dom h.
Proof.
  intros Hwf Hfresh. unfold updateObstacles.
  destruct (matchToPrevious_wf center_point h
              (with_frame_cnt (frame_cnt_ s + 1) s) obs)
    as (corr & h1 & s1 & Hmatch & Hwf1 & Hdom1 & Hdef & Hsep & _);
    [by apply with_frame_cnt_wf|done|].
  exists corr, h1, s1. rewrite Hmatch. simpl.
  pose proof (updateLostAndFound_wf h1 s1 corr Hwf1) as Hwf2.
  destruct (updateLostAndFound_spec s1 corr) as ((_ & Ht2 & _) & _).
  set (s2 := updateLostAndFound s1 corr) in *.
  destruct (adaptTracked_spec center_point h1 s2 corr obs)
    as (h2 & Hadapt & _); [by rewrite Ht2..|].
  rewrite Hadapt. simpl.
  pose proof (adaptTracked_dom center_point h1 h2 s2 corr obs Hadapt) as Hdom2.
  assert (wf h2 (dropLostObjects s2)) as Hwf3.
  { apply dropLostObjects_wf. apply (wf_heap_grows h1); [done|]. by rewrite Hdom2. }
  destruct (materializeFoundObjects_wf h2 _ Hwf3) as (s4 & Hmat & Hwf4).
  rewrite Hmat. simpl.
  exists h2, s4. do 4 (split; [done|]). do 3 (split; [done|]). congruence.
Qed.

(** On a well-formed state and fresh obstacles [updateObstacles] returns;
    the state it returns is well-formed and settled, and the list it
    hands out is the list of the materialised models of that state. *)
Lemma updateObstacles_wf (h : heap) (s : Aggregator) (obs : list ptr) :
  wf h s → fresh_obstacles h s obs →
  ∃ h' s' out,
    updateObstacles center_point h s obs = Some (h', s', out) ∧
    wf h' s' ∧ settled s' ∧ dom h' = dom h ∧
    out = copyMaterialized s'.
Proof.
  intros Hwf Hfresh.
  destruct (updateObstacles_stages h s obs Hwf Hfresh)
    as (corr & h1 & s1 & h2 & s4 & _ & _ & Hmat & Hrun & _ & _ & Hwf4 & Hdom).
  exists h2, s4, (copyMaterialized s4). do 2 (split; [done|]).
  split; [|done]. split; [by eapply materializeFoundObjects_settled|].
  destruct (materializeFoundObjects_spec _ s4 Hmat) as (_ & _ & _ & -> & _).
  apply dropLostObjects_settled.
Qed.

Lemma reachable_wf (h : heap) (s : Aggregator) :
  reachable center_point h s → wf h s ∧ settled s.
Proof.
  induction 1 as [h|h h' s _ [IH1 IH2] Hdom|h s obs h' s' out _ [IH1 IH2] Hfresh Hrun].
  - split; [apply wf_init|]. split; apply map_Forall_empty.
  - split; [by eapply wf_heap_grows|done].
  - destruct (updateObstacles_wf h s obs IH1 Hfresh)
      as (h'' & s'' & out' & Hrun' & Hwf & Hsettled & _).
    rewrite Hrun in Hrun'. by injection Hrun' as <- <- <-.
Qed.

(** Between two frames, a found counter that is not 0 is at most 4 and
    belongs to an ID that is not materialised. *)
Lemma reachable_found_unconfirmed (h : heap) (s : Aggregator) (id n : Z) :
  reachable center_point h s → frames_found_ s !! id = Some n → n ≠ 0 →
  n ≤ 4 ∧ model_idx_in_list_ s !! id = None.
Proof.
  intros Hreach Hn Hne. destruct (reachable_wf h s Hreach) as [Hwf [Hf _]].
  split.
  - specialize (Hf id n Hn). simpl in Hf. unfold FOUND_LIMIT in Hf. lia.
  - destruct (model_idx_in_list_ s !! id) as [it|] eqn:Hit; [|done].
    pose proof (wf_confirmed h s Hwf id ltac:(by rewrite Hit)) as Hzero.
    unfold counter in Hzero. rewrite Hn in Hzero. simpl in Hzero. lia.
Qed.

(** *** The thresholds, frame by frame *)

(** A tracked ID is in the correspondence exactly when a new obstacle has
    it as its match. *)
Lemma matchToPrevious_matched (h h' : heap) (s s' : Aggregator)
    (obs : list ptr) (corr : gmap Z nat) (id : Z) :
  matchToPrevious center_point h s obs = Some (corr, h', s') → ids_below s →
  is_Some (tracked_models_ s !! id) →
  is_Some (corr !! id) ↔ matched_in center_point h s obs id.
Proof.
  intros Hrun Hbelow [p Hp].
  pose proof (matchToPrevious_spec _ _ _ _ _ _ _ Hrun) as Hspec.
  cbv zeta in Hspec.
  destruct Hspec as (rs & Hrs & Hcorr & _).
  unfold matched_in. rewrite Exists_exists. split.
  - intros [k Hk]. rewrite Hcorr in Hk. apply record_all_indexed in Hk as [Hk _].
    destruct (ids_inv center_point h s obs rs Hbelow Hrs k id Hk)
      as (q & Hq & [(Hn & _)|(_ & _ & HT & _)]); [|congruence].
    exists q. split; [by eapply list_elem_of_lookup_2|done].
  - intros (q & Hin & Hn). apply list_elem_of_lookup_1 in Hin as [k Hq].
    destruct (ids_matched center_point h s obs rs Hbelow Hrs k q id Hq Hn)
      as (Hid & _).
    rewrite Hcorr. apply record_all_is_Some.
    apply (list_elem_of_fmap_2 fst _ (id, k)). by apply elem_of_indexed.
Qed.

(** A run of frames of fresh obstacles leads to a reachable state. *)
Lemma run_reachable (h h' : heap) (s s' : Aggregator)
    (frames : list (list ptr)) :
  reachable center_point h s → fresh_run center_point h s frames = true →
  fst <$> run center_point h s frames = Some (h', s') →
  reachable center_point h' s'.
Proof.
  revert h s. induction frames as [|obs frames IH]; intros h s Hr Hf Hrun.
  - simpl in Hrun. by injection Hrun as <- <-.
  - simpl in Hf, Hrun. apply andb_true_iff in Hf as [Hfresh Hf].
    apply bool_decide_eq_true in Hfresh.
    destruct (updateObstacles center_point h s obs) as [[[h1 s1] out]|] eqn:Hup;
      simpl in Hrun; [|done].
    apply (IH h1 s1); [by apply (reach_frame center_point h s obs h1 s1 out)|done|].
    destruct (run center_point h1 s1 frames) as [[[h2 s2] outs']|];
      simpl in *; [|done]. done.
Qed.

(** A model of the list handed out belongs to a materialised ID. *)
Lemma copyMaterialized_tracked (h : heap) (s : Aggregator) (p : ptr) :
  wf h s → p ∈ copyMaterialized s →
  ∃ id it, model_idx_in_list_ s !! id = Some it ∧
           tracked_models_ s !! id = Some p.
Proof.
  intros Hwf Hin. unfold copyMaterialized in Hin.
  apply list_elem_of_fmap in Hin as ([it p'] & Heq & Hin). simpl in Heq.
  subst p'. destruct (wf_nodes h s Hwf it p Hin) as (id & Hit & Hp).
  by exists id, it.
Qed.

Lemma copyMaterialized_confirmed (h : heap) (s : Aggregator) (id : Z)
    (it : nat) (p : ptr) :
  wf h s → model_idx_in_list_ s !! id = Some it →
  tracked_models_ s !! id = Some p → p ∈ copyMaterialized s.
Proof.
  intros Hwf Hit Hp. destruct (wf_idx h s Hwf id it Hit) as (p' & Hp' & Hin).
  assert (p' = p) as -> by congruence.
  by apply (list_elem_of_fmap_2 snd _ (it, p)).
Qed.

(** What a frame does to a model that was tracked when it began. *)
Lemma updateObstacles_frame (h : heap) (s : Aggregator) (obs : list ptr)
    (id : Z) (p : ptr) :
  wf h s → fresh_obstacles h s obs → tracked_models_ s !! id = Some p →
  let lost := lost_streak center_point h s obs id in
  let found := found_streak center_point h s obs id in
  ∃ h' s' out,
    updateObstacles center_point h s obs = Some (h', s', out) ∧
    out = copyMaterialized s' ∧
    (LOST_LIMIT ≤ lost →
       tracked_models_ s' !! id = None ∧ frames_found_ s' !! id = None ∧
       frames_lost_ s' !! id = None ∧ model_idx_in_list_ s' !! id = None ∧
       p ∉ out) ∧
    (lost < LOST_LIMIT →
       tracked_models_ s' !! id = Some p ∧ frames_lost_ s' !! id = Some lost ∧
       match model_idx_in_list_ s !! id with
       | Some it =>
           model_idx_in_list_ s' !! id = Some it ∧ p ∈ out ∧
           counter (frames_found_ s') id = 0
       | None =>
           if decide (FOUND_LIMIT ≤ found)
           then frames_found_ s' !! id = None ∧
                is_Some (model_idx_in_list_ s' !! id) ∧ p ∈ out
           else frames_found_ s' !! id = Some found ∧
                model_idx_in_list_ s' !! id = None ∧ p ∉ out
       end).
Proof.
  intros Hwf Hfresh Hp lost found.
  destruct (updateObstacles_stages h s obs Hwf Hfresh)
    as (corr & h1 & s1 & h2 & s4 & Hmatch & _ & Hmat & Hrun & Hwf1 & Hwf3
        & Hwf4 & _).
  exists h2, s4, (copyMaterialized s4). do 2 (split; [done|]).
  pose proof (wf_below h s Hwf) as Hbelow.
  (* matchToPrevious *)
  destruct (matchToPrevious_cases center_point _ _ _ _ _ _ id Hmatch Hbelow)
    as [(Ht1 & Hf1 & Hl1)|(HT & _)]; [|simpl in HT; congruence].
  simpl in Ht1, Hf1, Hl1. rewrite Hp in Ht1.
  pose proof (matchToPrevious_spec _ _ _ _ _ _ _ Hmatch) as Hspec.
  cbv zeta in Hspec. destruct Hspec as (_ & _ & _ & _ & _ & Hi1 & _).
  simpl in Hi1.
  pose proof (matchToPrevious_matched _ _ _ _ _ _ id Hmatch Hbelow
                ltac:(by simpl; rewrite Hp)) as Hm.
  change (matched_in center_point h (with_frame_cnt (frame_cnt_ s + 1) s) obs id)
    with (matched_in center_point h s obs id) in Hm.
  (* updateLostAndFound *)
  destruct (updateLostAndFound_spec s1 corr) as ((_ & Ht2 & _ & Hi2 & _) & Hup & _).
  specialize (Hup id ltac:(by rewrite Ht1)).
  set (s2 := updateLostAndFound s1 corr) in *.
  unfold streaks_updated in Hup. rewrite Hi1 in Hup.
  assert (frames_lost_ s2 !! id = Some lost) as Hl2.
  { unfold lost, lost_streak, counter.
    destruct (corr !! id) as [k|] eqn:Hk.
    - rewrite bool_decide_eq_true_2 by (apply Hm; by eexists). by destruct Hup.
    - rewrite bool_decide_eq_false_2; [|intros Hc; apply Hm in Hc; by destruct Hc].
      rewrite <- Hl1. by destruct Hup. }
  (* dropLostObjects *)
  pose proof (dropLostObjects_cases s2 id) as Hdrop. cbv zeta in Hdrop.
  set (s3 := dropLostObjects s2) in *.
  destruct (materializeFoundObjects_spec s3 s4 Hmat)
    as (_ & _ & Ht4 & Hl4 & Hkeep & new & Hmat4 & _ & _ & Hprom).
  assert (∀ id' q, tracked_models_ s4 !! id' = Some q →
                   tracked_models_ s1 !! id' = Some q) as Hsub.
  { intros id' q Hq. rewrite Ht4 in Hq. rewrite <- Ht2.
    destruct (dropLostObjects_cases s2 id') as [(Ht & _)|(Ht & _)];
      fold s3 in Ht; congruence. }
  split.
  - intros Hlim.
    destruct Hdrop as [(_ & _ & _ & _ & Hlt)|(Ht3 & Hf3 & Hl3 & Hi3 & _)].
    { specialize (Hlt lost Hl2). lia. }
    assert (tracked_models_ s4 !! id = None) as Hnone by by rewrite Ht4.
    assert (p ∉ copyMaterialized s4) as Hout.
    { intros Hin.
      destruct (copyMaterialized_tracked h2 s4 p Hwf4 Hin) as (id' & it & _ & Hq).
      pose proof (Hsub _ _ Hq) as Hq1.
      assert (id' = id) as -> by by apply (wf_inj h1 s1 Hwf1 id' id p).
      congruence. }
    destruct (Hkeep id) as [Hf4 Hi4]; [intros n; rewrite Hf3; done|].
    rewrite Hl4, Hf4, Hi4. done.
  - intros Hlt.
    destruct Hdrop as [(Ht3 & Hf3 & Hl3 & Hi3 & _)|(_ & _ & _ & _ & n & Hn & Hlim)];
      [|assert (n = lost) by congruence; lia].
    assert (tracked_models_ s4 !! id = Some p) as Hp4
      by (rewrite Ht4, Ht3, Ht2; done).
    split; [done|]. split; [by rewrite Hl4, Hl3|].
    rewrite Hi2, Hi1 in Hi3.
    destruct (model_idx_in_list_ s !! id) as [it|] eqn:Hit.
    + (* materialised before the frame *)
      assert (counter (frames_found_ s3) id = 0) as Hzero.
      { apply (wf_confirmed h2 s3 Hwf3). rewrite Hi3. by eexists. }
      destruct (Hkeep id) as [Hf4 Hi4].
      { intros n Hn. unfold counter in Hzero. rewrite Hn in Hzero.
        simpl in Hzero. unfold FOUND_LIMIT. lia. }
      split; [by rewrite Hi4|]. split.
      * apply (copyMaterialized_confirmed h2 s4 id it p Hwf4); [|done].
        by rewrite Hi4.
      * unfold counter. rewrite Hf4. exact Hzero.
    + (* not materialised before the frame *)
      assert (frames_found_ s3 !! id = Some found) as Hf.
      { rewrite Hf3. unfold found, found_streak, counter.
        destruct (corr !! id) as [k|] eqn:Hk.
        - rewrite bool_decide_eq_true_2 by (apply Hm; by eexists).
          rewrite <- Hf1. by destruct Hup.
        - rewrite bool_decide_eq_false_2;
            [|intros Hc; apply Hm in Hc; by destruct Hc].
          by destruct Hup. }
      destruct (decide (FOUND_LIMIT ≤ found)) as [Hlim|Hlim].
      * destruct (Hprom id found Hf Hlim) as (Hf4 & it & q & Hq & Hit4 & Hin).
        split; [done|]. split; [by eexists|].
        apply (copyMaterialized_confirmed h2 s4 id it p Hwf4); done.
      * destruct (Hkeep id) as [Hf4 Hi4].
        { intros n Hn. assert (n = found) by congruence. lia. }
        rewrite Hf4, Hi4. do 2 (split; [done|]).
        intros Hin.
        destruct (copyMaterialized_tracked h2 s4 p Hwf4 Hin)
          as (id' & it & Hit' & Hq).
        assert (id' = id) as -> by by apply (wf_inj h2 s4 Hwf4 id' id p).
        congruence.
Qed.

Lemma lost_streak_bound (h : heap) (s : Aggregator) (obs : list ptr) (id : Z) :
  settled s → lost_streak center_point h s obs id ≤ LOST_LIMIT.
Proof.
  intros [_ Hl]. unfold lost_streak, counter, LOST_LIMIT in *.
  destruct (bool_decide _); [lia|].
  destruct (frames_lost_ s !! id) as [n|] eqn:Hn; simpl; [|lia].
  specialize (Hl id n Hn). simpl in Hl. lia.
Qed.

Lemma found_streak_bound (h : heap) (s : Aggregator) (obs : list ptr) (id : Z) :
  settled s → found_streak center_point h s obs id ≤ FOUND_LIMIT.
Proof.
  intros [Hf _]. unfold found_streak, counter, FOUND_LIMIT in *.
  destruct (bool_decide _); [|lia].
  destruct (frames_found_ s !! id) as [n|] eqn:Hn; simpl; [|lia].
  specialize (Hf id n Hn). simpl in Hf. lia.
Qed.

(** C5.  In every frame of a run, for every model [id] that is tracked
    when the frame begins: its lost streak, this frame included, is at
    most 10; while it is at most 9 the model stays tracked with that lost
    counter, and stays materialised and in the list handed out if it was
    materialised; in the frame in which it reaches 10 the model leaves
    the tracked table, both counter maps, the index of the materialised
    models and the list handed out, all of it within that one call of
    [updateObstacles]. *)
Theorem updateObstacles_eviction (h : heap) (s : Aggregator) (obs : list ptr)
    (id : Z) (p : ptr) :
  reachable center_point h s → fresh_obstacles h s obs →
  tracked_models_ s !! id = Some p →
  let n := lost_streak center_point h s obs id in
  ∃ h' s' out,
    updateObstacles center_point h s obs = Some (h', s', out) ∧
    out = copyMaterialized s' ∧ n ≤ 10 ∧
    (n ≤ 9 →
       tracked_models_ s' !! id = Some p ∧ frames_lost_ s' !! id = Some n ∧
       ∀ it, model_idx_in_list_ s !! id = Some it →
             model_idx_in_list_ s' !! id = Some it ∧ p ∈ out) ∧
    (n = 10 →
       tracked_models_ s' !! id = None ∧ frames_found_ s' !! id = None ∧
       frames_lost_ s' !! id = None ∧ model_idx_in_list_ s' !! id = None ∧
       p ∉ out).
Proof.
  intros Hreach Hfresh Hp n.
  destruct (reachable_wf h s Hreach) as [Hwf Hsettled].
  destruct (updateObstacles_frame h s obs id p Hwf Hfresh Hp)
    as (h' & s' & out & Hrun & Hout & Hdrop & Hkeep).
  pose proof (lost_streak_bound h s obs id Hsettled) as Hbound.
  fold n in Hdrop, Hkeep, Hbound. unfold LOST_LIMIT in *.
  exists h', s', out. do 3 (split; [done|]). split.
  - intros Hle. destruct Hkeep as (Ht & Hl & Hrest); [lia|].
    do 2 (split; [done|]). intros it Hit. rewrite Hit in Hrest.
    by destruct Hrest as (? & ? & _).
  - intros Heq. apply Hdrop. lia.
Qed.

End WellFormedFrames.

(** C5, witness: the materialised model of scenario A in its tenth frame
    without an obstacle. *)
Lemma updateObstacles_eviction_witness :
  reachable example_center_point scenario_heap fading_agg ∧
  fresh_obstacles scenario_heap fading_agg [] ∧
  tracked_models_ fading_agg !! 0 = Some 1%nat ∧
  lost_streak example_center_point scenario_heap fading_agg [] 0 = 10 ∧
  model_idx_in_list_ fading_agg !! 0 = Some 1%nat ∧
  ∃ h' s' out,
    updateObstacles example_center_point scenario_heap fading_agg []
      = Some (h', s', out) ∧
    tracked_models_ s' !! 0 = None ∧ frames_found_ s' !! 0 = None ∧
    frames_lost_ s' !! 0 = None ∧ model_idx_in_list_ s' !! 0 = None ∧
    1%nat ∉ out.
Proof.
  assert (reachable example_center_point scenario_heap fading_agg) as H1.
  { apply (run_reachable example_center_point scenario_heap scenario_heap
             SmoothObstacleAggregator fading_agg
             (scenario_frames ++ replicate 9 []));
      [apply reach_init|vm_compute; reflexivity..]. }
  assert (fresh_obstacles scenario_heap fading_agg []) as H2 by by_compute.
  assert (tracked_models_ fading_agg !! 0 = Some 1%nat) as H3 by reflexivity.
  do 3 (split; [assumption|]). do 2 (split; [vm_compute; reflexivity|]).
  destruct (updateObstacles_eviction example_center_point scenario_heap
              fading_agg [] 0 1%nat H1 H2 H3)
    as (h' & s' & out & Hrun & _ & _ & _ & Hdrop).
  exists h', s', out. split; [exact Hrun|]. apply Hdrop.
  vm_compute. reflexivity.
Defined.


(** ** More properties of a frame and of a run *)

Section Coverage.
Variable center_point : ObjectModel → Coordinate.

(** What a frame does to an ID that was not tracked when it began: it is
    given to a new obstacle without a candidate, or it stays untracked. *)
Lemma updateObstacles_untracked (h : heap) (s : Aggregator) (obs : list ptr)
    (id : Z) :
  wf h s → fresh_obstacles h s obs → tracked_models_ s !! id = None →
  ∃ h' s' out,
    updateObstacles center_point h s obs = Some (h', s', out) ∧
    ((next_model_id_ s ≤ id < next_model_id_ s' ∧
      ∃ k q, obs !! k = Some q ∧
        nearest center_point h (tracked_models_ s) q = Some None ∧
        tracked_models_ s' !! id = Some q ∧
        frames_found_ s' !! id = Some 1 ∧ frames_lost_ s' !! id = Some 0 ∧
        model_idx_in_list_ s' !! id = None ∧ q ∉ out) ∨
     (tracked_models_ s' !! id = None ∧ frames_found_ s' !! id = None ∧
      model_idx_in_list_ s' !! id = None ∧
      (frames_lost_ s' !! id = None ∨
       frames_lost_ s' !! id = frames_lost_ s !! id))).
Proof.
  intros Hwf Hfresh HT.
  destruct (updateObstacles_stages center_point h s obs Hwf Hfresh)
    as (corr & h1 & s1 & h2 & s4 & Hmatch & _ & Hmat & Hrun & Hwf1 & Hwf3
        & Hwf4 & _).
  exists h2, s4, (copyMaterialized s4). split; [done|].
  pose proof (wf_below h s Hwf) as Hbelow.
  pose proof (matchToPrevious_spec _ _ _ _ _ _ _ Hmatch) as Hspec.
  cbv zeta in Hspec. destruct Hspec as (rs & _ & _ & Hnext & _ & Hi1 & _).
  simpl in Hi1, Hnext.
  assert (model_idx_in_list_ s !! id = None) as Hidx.
  { destruct (model_idx_in_list_ s !! id) as [it|] eqn:Hit; [|done].
    destruct (wf_idx h s Hwf id it Hit) as (p & Hp & _). congruence. }
  assert (frames_found_ s !! id = None) as Hfound.
  { destruct (frames_found_ s !! id) as [n|] eqn:Hn; [|done].
    destruct (wf_found h s Hwf id) as [p Hp]; [by rewrite Hn|]. congruence. }
  destruct (updateLostAndFound_spec s1 corr)
    as ((Hn2 & Ht2 & _ & Hi2 & _) & Hup & Hother).
  set (s2 := updateLostAndFound s1 corr) in *.
  pose proof (dropLostObjects_cases s2 id) as Hdrop. cbv zeta in Hdrop.
  destruct (dropLostObjects_spec s2) as (Hn3 & _).
  set (s3 := dropLostObjects s2) in *.
  destruct (materializeFoundObjects_spec s3 s4 Hmat)
    as (Hn4 & _ & Ht4 & Hl4 & Hkeep & new & Hmat4 & _ & _ & Hprom).
  destruct (matchToPrevious_cases center_point _ _ _ _ _ _ id Hmatch Hbelow)
    as [(Ht1 & Hf1 & Hl1)|(_ & Hrange & k & q & Hq & Hc & Ht1 & Hf1 & Hl1)];
    simpl in *.
  - (* the ID stays untracked *)
    right. rewrite HT in Ht1. rewrite Hfound in Hf1.
    destruct (Hother id Ht1) as [Hf2 Hl2]. rewrite Hf1 in Hf2.
    assert (frames_found_ s3 !! id = None) as Hf3.
    { destruct Hdrop as [(_ & -> & _)|(_ & -> & _)]; done. }
    assert (tracked_models_ s3 !! id = None) as Ht3.
    { destruct Hdrop as [(-> & _)|(-> & _)]; [by rewrite Ht2|done]. }
    assert (model_idx_in_list_ s3 !! id = None) as Hi3.
    { destruct Hdrop as [(_ & _ & _ & -> & _)|(_ & _ & _ & -> & _)]; [|done].
      by rewrite Hi2, Hi1. }
    destruct (Hkeep id) as [Hf4 Hi4]; [intros n; by rewrite Hf3|].
    rewrite Ht4, Hf4, Hi4, Hl4, Ht3, Hf3, Hi3. do 3 (split; [done|]).
    destruct Hdrop as [(_ & _ & -> & _)|(_ & _ & -> & _)]; [right|by left].
    by rewrite Hl2, Hl1.
  - (* the ID is new in the frame *)
    left. split; [by rewrite Hn4, Hn3, Hn2|]. exists k, q. split; [done|].
    destruct (matchToPrevious_tracked_inv center_point _ _ _ _ _ _ id q
                Hmatch Hbelow Ht1) as [Hold|(_ & k' & _ & _ & Hn)];
      [simpl in Hold; congruence|]. simpl in Hn.
    split; [done|].
    specialize (Hup id ltac:(by rewrite Ht1)).
    unfold streaks_updated in Hup. rewrite Hc, Hi1, Hidx in Hup.
    destruct Hup as [Hl2 Hf2]. unfold counter in Hf2. rewrite Hf1 in Hf2.
    simpl in Hf2.
    destruct Hdrop as [(Ht3 & Hf3 & Hl3 & Hi3 & _)|(_ & _ & _ & _ & n & Hn' & Hlim)];
      [|rewrite Hl2 in Hn'; injection Hn' as <-; unfold LOST_LIMIT in Hlim; lia].
    destruct (Hkeep id) as [Hf4 Hi4].
    { intros n. rewrite Hf3, Hf2. intros [= <-]. unfold FOUND_LIMIT. lia. }
    assert (tracked_models_ s4 !! id = Some q) as Hq4
      by (rewrite Ht4, Ht3, Ht2; done).
    assert (model_idx_in_list_ s4 !! id = None) as Hidx4
      by (rewrite Hi4, Hi3, Hi2, Hi1; done).
    split; [done|]. split; [by rewrite Hf4, Hf3|].
    split; [by rewrite Hl4, Hl3|]. split; [done|].
    intros Hin.
    destruct (copyMaterialized_tracked h2 s4 q Hwf4 Hin) as (id' & it & Hit' & Hq').
    assert (id' = id) as -> by by apply (wf_inj h2 s4 Hwf4 id' id q).
    congruence.
Qed.
(** The counters and the unit of time of a frame. *)
Lemma updateObstacles_counters (h : heap) (s : Aggregator) (obs : list ptr) :
  wf h s → fresh_obstacles h s obs →
  ∃ h' s' out,
    updateObstacles center_point h s obs = Some (h', s', out) ∧
    frame_cnt_ s' = frame_cnt_ s + 1 ∧
    next_model_id_ s ≤ next_model_id_ s' ∧
    ∃ rs, Forall2 (λ p r, nearest center_point h (tracked_models_ s) p = Some r)
                  obs rs ∧
          next_model_id_ s' = next_model_id_ s + fresh_count rs.
Proof.
  intros Hwf Hfresh.
  destruct (updateObstacles_stages center_point h s obs Hwf Hfresh)
    as (corr & h1 & s1 & h2 & s4 & Hmatch & _ & Hmat & Hrun & _).
  exists h2, s4, (copyMaterialized s4). split; [done|].
  pose proof (matchToPrevious_spec _ _ _ _ _ _ _ Hmatch) as Hspec.
  cbv zeta in Hspec.
  destruct Hspec as (rs & Hrs & _ & Hnext & _ & _ & Hcnt & _).
  simpl in Hnext, Hcnt, Hrs.
  destruct (updateLostAndFound_spec s1 corr) as ((Hn2 & _ & _ & _ & Hc2) & _).
  destruct (dropLostObjects_spec (updateLostAndFound s1 corr)) as (Hn3 & Hc3 & _).
  destruct (materializeFoundObjects_spec _ s4 Hmat) as (Hn4 & Hc4 & _).
  pose proof (fresh_count_nonneg rs).
  split; [by rewrite Hc4, Hc3, Hc2, Hcnt|].
  split; [rewrite Hn4, Hn3, Hn2, Hnext; lia|].
  exists rs. split; [done|]. by rewrite Hn4, Hn3, Hn2.
Qed.
Lemma consistent_init : consistent SmoothObstacleAggregator.
Proof.
  split; cbn [tracked_models_ frames_found_ frames_lost_ model_idx_in_list_
              SmoothObstacleAggregator].
  - intros id. by rewrite !lookup_empty.
  - intros id. rewrite lookup_empty. by intros [? ?].
  - apply map_Forall_empty.
  - apply map_Forall_empty.
  - intros id. left. unfold counter. by rewrite lookup_empty.
Qed.

(** A frame keeps the counter maps consistent. *)
Lemma updateObstacles_consistent (h h' : heap) (s s' : Aggregator)
    (obs out : list ptr) :
  wf h s → consistent s → fresh_obstacles h s obs →
  updateObstacles center_point h s obs = Some (h', s', out) →
  consistent s'.
Proof.
  intros Hwf [Hlost Hfound Hfnn Hlnn Hexcl] Hfresh Hrun.
  assert (∀ id,
    (is_Some (frames_lost_ s' !! id) ↔ is_Some (tracked_models_ s' !! id)) ∧
    (is_Some (tracked_models_ s' !! id) →
       is_Some (frames_found_ s' !! id) ∨ is_Some (model_idx_in_list_ s' !! id)) ∧
    (∀ n, frames_found_ s' !! id = Some n → 0 ≤ n) ∧
    (∀ n, frames_lost_ s' !! id = Some n → 0 ≤ n) ∧
    (counter (frames_found_ s') id = 0 ∨ counter (frames_lost_ s') id = 0))
    as Hall.
  { intros id.
    assert (0 ≤ counter (frames_found_ s) id) as Hf0.
    { unfold counter. destruct (frames_found_ s !! id) as [n|] eqn:Hn; simpl; [|lia].
      apply (Hfnn id n Hn). }
    assert (0 ≤ counter (frames_lost_ s) id) as Hl0.
    { unfold counter. destruct (frames_lost_ s !! id) as [n|] eqn:Hn; simpl; [|lia].
      apply (Hlnn id n Hn). }
    destruct (tracked_models_ s !! id) as [p|] eqn:Hp.
    - pose proof (updateObstacles_frame center_point h s obs id p Hwf Hfresh Hp)
        as Hframe. cbv zeta in Hframe.
      destruct Hframe as (h2 & s2 & out2 & Hrun2 & _ & Hdrop & Hkeep).
      rewrite Hrun in Hrun2. injection Hrun2 as <- <- <-.
      destruct (decide (LOST_LIMIT ≤ lost_streak center_point h s obs id))
        as [Hlim|Hlim].
      + destruct (Hdrop Hlim) as (Ht & Hf & Hl & Hi & _).
        unfold counter. rewrite Ht, Hf, Hl, Hi. simpl.
        repeat split; try done; try (by intros [? ?]); by left.
      + destruct Hkeep as (Ht & Hl & Hrest); [lia|].
        assert (0 ≤ lost_streak center_point h s obs id) as Hls.
        { unfold lost_streak. destruct (bool_decide _); lia. }
        assert (0 ≤ found_streak center_point h s obs id) as Hfs.
        { unfold found_streak. destruct (bool_decide _); lia. }
        assert (lost_streak center_point h s obs id = 0 ∨
                found_streak center_point h s obs id = 0) as Hone.
        { unfold lost_streak, found_streak. destruct (bool_decide _); auto. }
        rewrite Ht, Hl. unfold counter at 2. rewrite Hl. simpl.
        split; [split; by eexists|].
        destruct (model_idx_in_list_ s !! id) as [it|] eqn:Hit.
        * destruct Hrest as (Hi & _ & Hzero). rewrite Hi.
          split; [intros _; right; by eexists|].
          split; [|split; [intros ? [= <-]; done|by left]].
          intros n Hn. unfold counter in Hzero. rewrite Hn in Hzero.
          simpl in Hzero. lia.
        * destruct (decide (FOUND_LIMIT ≤ found_streak center_point h s obs id)).
          -- destruct Hrest as (Hf & Hi & _). unfold counter. rewrite Hf. simpl.
             split; [intros _; by right|].
             split; [done|]. split; [intros ? [= <-]; done|by left].
          -- destruct Hrest as (Hf & Hi & _). unfold counter. rewrite Hf. simpl.
             split; [intros _; left; by eexists|].
             split; [intros ? [= <-]; done|].
             split; [intros ? [= <-]; done|]. destruct Hone; auto.
    - destruct (updateObstacles_untracked h s obs id Hwf Hfresh Hp)
        as (h2 & s2 & out2 & Hrun2 & Hcases).
      rewrite Hrun in Hrun2. injection Hrun2 as <- <- <-.
      destruct Hcases as [(_ & k & q & _ & _ & Ht & Hf & Hl & Hi & _)
                         |(Ht & Hf & Hi & Hl)].
      + unfold counter. rewrite Ht, Hf, Hl, Hi. simpl.
        split; [split; by eexists|]. split; [intros _; left; by eexists|].
        split; [intros ? [= <-]; lia|]. split; [intros ? [= <-]; lia|by right].
      + assert (frames_lost_ s' !! id = None) as Hnone.
        { destruct Hl as [Hl|Hl]; [done|]. rewrite Hl.
          destruct (frames_lost_ s !! id) as [n|] eqn:Hn; [|done].
          destruct (proj1 (Hlost id)) as [p' Hp']; [by rewrite Hn|]. congruence. }
        unfold counter. rewrite Ht, Hf, Hi, Hnone. simpl.
        repeat split; try done; try (by intros [? ?]); by left. }
  split.
  - intros id. apply Hall.
  - intros id. apply Hall.
  - intros id n. apply Hall.
  - intros id n. apply Hall.
  - intros id. apply Hall.
Qed.

Lemma reachable_consistent (h : heap) (s : Aggregator) :
  reachable center_point h s → consistent s.
Proof.
  induction 1 as [h|h h' s _ IH Hdom|h s obs h' s' out Hreach IH Hfresh Hrun].
  - apply consistent_init.
  - done.
  - destruct (reachable_wf center_point h s Hreach) as [Hwf _].
    by eapply updateObstacles_consistent.
Qed.
(** An ID that is new in the frame goes through the rest of the frame with
    the found counter 1 and the lost counter 0. *)
Lemma stages_new_id (s1 s4 : Aggregator) (corr : gmap Z nat) (id : Z) (q : ptr) :
  tracked_models_ s1 !! id = Some q → model_idx_in_list_ s1 !! id = None →
  frames_found_ s1 !! id = Some 0 → is_Some (corr !! id) →
  materializeFoundObjects (dropLostObjects (updateLostAndFound s1 corr))
    = Some s4 →
  tracked_models_ s4 !! id = Some q ∧ frames_found_ s4 !! id = Some 1 ∧
  frames_lost_ s4 !! id = Some 0 ∧ model_idx_in_list_ s4 !! id = None.
Proof.
  intros Ht1 Hi1 Hf1 [k Hc] Hmat.
  destruct (updateLostAndFound_spec s1 corr) as ((_ & Ht2 & _ & Hi2 & _) & Hup & _).
  specialize (Hup id ltac:(by rewrite Ht1)).
  set (s2 := updateLostAndFound s1 corr) in *.
  unfold streaks_updated in Hup. rewrite Hc, Hi1 in Hup.
  destruct Hup as [Hl2 Hf2]. unfold counter in Hf2. rewrite Hf1 in Hf2.
  simpl in Hf2.
  destruct (dropLostObjects_cases s2 id)
    as [(Ht3 & Hf3 & Hl3 & Hi3 & _)|(_ & _ & _ & _ & n & Hn & Hlim)];
    [|rewrite Hl2 in Hn; injection Hn as <-; unfold LOST_LIMIT in Hlim; lia].
  set (s3 := dropLostObjects s2) in *.
  destruct (materializeFoundObjects_spec s3 s4 Hmat)
    as (_ & _ & Ht4 & Hl4 & Hkeep & _).
  destruct (Hkeep id) as [Hf4 Hi4].
  { intros n. rewrite Hf3, Hf2. intros [= <-]. unfold FOUND_LIMIT. lia. }
  rewrite Ht4, Ht3, Ht2, Hf4, Hf3, Hl4, Hl3, Hi4, Hi3, Hi2. done.
Qed.

Lemma elem_of_unmatched (h : heap) (s : Aggregator) (obs : list ptr) (q : ptr) :
  q ∈ unmatched center_point h s obs ↔
  q ∈ obs ∧ nearest center_point h (tracked_models_ s) q = Some None.
Proof. unfold unmatched. rewrite list_elem_of_filter. tauto. Qed.

(** The objects that a frame writes: the tracked models of the matched
    IDs and the new obstacles without a candidate. *)
Lemma updateObstacles_heap (h : heap) (s : Aggregator) (obs : list ptr) :
  wf h s → fresh_obstacles h s obs →
  ∃ h' s' out,
    updateObstacles center_point h s obs = Some (h', s', out) ∧
    (∀ a, (∀ id, matched_in center_point h s obs id →
                 tracked_models_ s !! id ≠ Some a) →
          a ∉ unmatched center_point h s obs → h' !! a = h !! a) ∧
    (∀ id p m, tracked_models_ s !! id = Some p →
       matched_in center_point h s obs id → h !! p = Some m →
       ∃ i q new_model, obs !! i = Some q ∧
         nearest center_point h (tracked_models_ s) q = Some (Some id) ∧
         (∀ k q', (i < k)%nat → obs !! k = Some q' →
            nearest center_point h (tracked_models_ s) q' ≠ Some (Some id)) ∧
         h !! q = Some new_model ∧
         h' !! p = Some (blend center_point (refresh_due s') false m new_model)) ∧
    (∀ q m, q ∈ unmatched center_point h s obs → h !! q = Some m →
       ∃ id, tracked_models_ s !! id = None ∧
         tracked_models_ s' !! id = Some q ∧
         h' !! q = Some (blend center_point (refresh_due s') true
                               (set_id id m) (set_id id m))).
Proof.
  intros Hwf Hfresh. unfold updateObstacles.
  destruct (matchToPrevious_wf center_point h
              (with_frame_cnt (frame_cnt_ s + 1) s) obs)
    as (corr & h1 & s1 & Hmatch & Hwf1 & Hdom1 & Hdef & Hsep & _);
    [by apply with_frame_cnt_wf|done|].
  rewrite Hmatch. simpl.
  pose proof (updateLostAndFound_wf h1 s1 corr Hwf1) as Hwf2.
  destruct (updateLostAndFound_spec s1 corr) as ((_ & Ht2 & _ & _ & Hc2) & _).
  set (s2 := updateLostAndFound s1 corr) in *.
  destruct (adaptTracked_spec center_point h1 s2 corr obs)
    as (h2 & Hadapt & Hblend & Hframe); [by rewrite Ht2..|].
  rewrite Hadapt. simpl.
  pose proof (adaptTracked_dom center_point h1 h2 s2 corr obs Hadapt) as Hdom2.
  assert (wf h2 (dropLostObjects s2)) as Hwf3.
  { apply dropLostObjects_wf. apply (wf_heap_grows h1); [done|]. by rewrite Hdom2. }
  destruct (materializeFoundObjects_wf h2 _ Hwf3) as (s4 & Hmat & Hwf4).
  rewrite Hmat. simpl.
  exists h2, s4, (copyMaterialized s4). split; [done|].
  destruct (dropLostObjects_spec s2) as (_ & Hc3 & _).
  destruct (materializeFoundObjects_spec _ s4 Hmat) as (_ & Hc4 & _).
  assert (refresh_due s4 = refresh_due s2) as Hdue.
  { unfold refresh_due. by rewrite Hc4, Hc3. }
  pose proof (wf_below h s Hwf) as Hbelow.
  destruct Hfresh as (Hobs & Hnd & Hnew).
  pose proof (matchToPrevious_spec _ _ _ _ _ _ _ Hmatch) as Hspec.
  cbv zeta in Hspec.
  destruct Hspec as (rs & Hrs & Hcorr & _ & _ & Hi1 & _ & _ & _ & _ & Hheap).
  simpl in Hrs, Hheap, Hi1.
  assert (∀ a, a ∉ unmatched center_point h s obs → h1 !! a = h !! a) as Hh1.
  { intros a Ha. apply Hheap. intros k id Hid HT Hk.
    destruct (ids_inv center_point h _ obs rs Hbelow Hrs k id Hid)
      as (p' & Hp' & [(_ & [q Hq] & _)|(Hn & _)]); simpl in *; [congruence|].
    apply Ha, elem_of_unmatched. assert (p' = a) as -> by congruence.
    split; [by eapply list_elem_of_lookup_2|done]. }
  assert (∀ id, is_Some (tracked_models_ s !! id) →
            is_Some (corr !! id) ↔ matched_in center_point h s obs id) as Hm.
  { intros id Hid.
    apply (matchToPrevious_matched center_point _ _ _ _ _ _ id Hmatch Hbelow Hid). }
  assert (∀ id p, tracked_models_ s !! id = Some p →
            p ∉ unmatched center_point h s obs) as Hold.
  { intros id p Hp Hin. apply elem_of_unmatched in Hin as [Hin _].
    by apply (Hnew id p). }
  split; [|split].
  - intros a Hmatched Hun. rewrite Hframe; [by apply Hh1|].
    intros id i Hc Ha. rewrite Ht2 in Ha.
    destruct (matchToPrevious_tracked_inv center_point _ _ _ _ _ _ id a
                Hmatch Hbelow Ha) as [Ht|(_ & k & Hk & _ & Hn)]; simpl in *.
    + apply (Hmatched id); [|done]. apply Hm; by eexists.
    + apply Hun, elem_of_unmatched. split; [by eapply list_elem_of_lookup_2|done].
  - intros id p m Hp Hmatched Hhp.
    destruct (proj2 (Hm id ltac:(by eexists)) Hmatched) as [i Hi].
    pose proof Hi as Hi'. rewrite Hcorr in Hi'.
    apply record_all_indexed in Hi' as [Hid Hlast].
    destruct (ids_inv center_point h _ obs rs Hbelow Hrs i id Hid)
      as (q & Hq & [(Hn & _)|(_ & _ & HT & _)]); simpl in *; [|congruence].
    assert (q ∈ obs) as Hin by by eapply list_elem_of_lookup_2.
    rewrite Forall_forall in Hobs. destruct (Hobs q Hin) as [new_model Hnm].
    exists i, q, new_model. do 2 (split; [done|]). split.
    { intros k q' Hlt Hq' Hn'.
      destruct (ids_matched center_point h _ obs rs Hbelow Hrs k q' id Hq' Hn')
        as (Hidk & _).
      by apply (Hlast k). }
    split; [done|].
    assert (p ≠ q) as Hne by (intros ->; by apply (Hnew id q)).
    rewrite Hdue, <- (bool_decide_eq_false_2 (p = q) Hne).
    apply (Hblend id i); [done| |done| |].
    + rewrite Ht2.
      destruct (matchToPrevious_cases center_point _ _ _ _ _ _ id Hmatch Hbelow)
        as [(-> & _)|(HT & _)]; simpl in *; congruence.
    + rewrite Hh1; [done|]. by apply (Hold id).
    + rewrite Hh1; [done|]. intros Hun. apply elem_of_unmatched in Hun as [_ Hun].
      congruence.
  - intros q m Hun Hq. apply elem_of_unmatched in Hun as [Hin Hn].
    apply list_elem_of_lookup_1 in Hin as [k Hk].
    destruct (matchToPrevious_unmatched center_point _ _ _ _ _ _ k q
                Hmatch Hbelow Hnd Hk Hn)
      as (id & Hc & HT & _ & Ht1 & Hset). simpl in HT.
    rewrite Hq in Hset. simpl in Hset.
    exists id. split; [done|].
    assert (model_idx_in_list_ s1 !! id = None) as Hidx.
    { rewrite Hi1. destruct (model_idx_in_list_ s !! id) as [it|] eqn:Hit; [|done].
      destruct (wf_idx h s Hwf id it Hit) as (p & Hp & _). congruence. }
    assert (frames_found_ s1 !! id = Some 0) as Hf1.
    { destruct (matchToPrevious_cases center_point _ _ _ _ _ _ id Hmatch Hbelow)
        as [(Ht & _)|(_ & _ & _ & _ & _ & _ & _ & Hf & _)]; simpl in *;
        [congruence|done]. }
    destruct (stages_new_id s1 s4 corr id q Ht1 Hidx Hf1 ltac:(by eexists) Hmat)
      as (Ht4 & _).
    split; [done|].
    rewrite Hdue, <- (bool_decide_eq_true_2 (q = q) eq_refl).
    apply (Hblend id k); [done|by rewrite Ht2|done..].
Qed.
Lemma id_of_accept (v : Coordinate) (m : ObjectModel) :
  id_of (accept v m) = id_of m.
Proof. by destruct m. Qed.

Lemma id_of_blend (due same : bool) (tracked new_model : ObjectModel) :
  id_of (blend center_point due same tracked new_model) = id_of tracked.
Proof.
  unfold blend, refreshed.
  set (t := accept (translation_vec center_point tracked new_model) tracked).
  assert (id_of t = id_of tracked) as Ht by apply id_of_accept.
  destruct due; [|done].
  destruct (as_composite t) as [ms|] eqn:Hc; [|done].
  destruct (as_composite (if same then t else new_model)) as [ms'|]; [|done].
  rewrite <- Ht. by destruct t.
Qed.

Lemma id_of_set_id (id : Z) (m : ObjectModel) : id_of (set_id id m) = id.
Proof. by destruct m. Qed.

(** A frame keeps the IDs written into the tracked objects. *)
Lemma updateObstacles_stamped_step (h h' : heap) (s s' : Aggregator)
    (obs out : list ptr) :
  wf h s → fresh_obstacles h s obs → stamped h s →
  updateObstacles center_point h s obs = Some (h', s', out) →
  stamped h' s'.
Proof.
  intros Hwf Hfresh Hst Hrun id p Hp'. simpl.
  destruct (updateObstacles_wf center_point h s obs Hwf Hfresh)
    as (h0 & s0 & out0 & Hrun0 & Hwf' & _).
  rewrite Hrun in Hrun0. injection Hrun0 as <- <- <-.
  destruct (updateObstacles_heap h s obs Hwf Hfresh)
    as (h0 & s0 & out0 & Hrun0 & Hother & Hmatched & Hnew).
  rewrite Hrun in Hrun0. injection Hrun0 as <- <- <-.
  destruct (tracked_models_ s !! id) as [p0|] eqn:Hp.
  - pose proof (updateObstacles_frame center_point h s obs id p0 Hwf Hfresh Hp)
      as Hframe. cbv zeta in Hframe.
    destruct Hframe as (h0 & s0 & out0 & Hrun0 & _ & Hdrop & Hkeep).
    rewrite Hrun in Hrun0. injection Hrun0 as <- <- <-.
    assert (p0 = p) as ->.
    { destruct (decide (LOST_LIMIT ≤ lost_streak center_point h s obs id))
        as [Hlim|Hlim].
      - destruct (Hdrop Hlim) as (Hnone & _). congruence.
      - destruct Hkeep as (Ht & _); [lia|]. congruence. }
    pose proof (Hst id p Hp) as Hid. simpl in Hid.
    destruct (h !! p) as [m|] eqn:Hm; [|done]. simpl in Hid.
    destruct (decide (matched_in center_point h s obs id)) as [Hmi|Hmi].
    + destruct (Hmatched id p m Hp Hmi Hm) as (i & q & nm & _ & _ & _ & _ & ->).
      simpl. by rewrite id_of_blend.
    + rewrite Hother, Hm; [done| |].
      * intros id' Hmi' Hp0.
        assert (id' = id) as -> by by apply (wf_inj h s Hwf id' id p). done.
      * intros Hun. apply elem_of_unmatched in Hun as [Hin _].
        destruct Hfresh as (_ & _ & Hnot). by apply (Hnot id p).
  - destruct (updateObstacles_untracked h s obs id Hwf Hfresh Hp)
      as (h0 & s0 & out0 & Hrun0 & Hcases).
    rewrite Hrun in Hrun0. injection Hrun0 as <- <- <-.
    destruct Hcases as [(_ & k & q & Hk & Hn & Ht & _)|(Ht & _)]; [|congruence].
    assert (q = p) as -> by congruence.
    assert (p ∈ unmatched center_point h s obs) as Hun.
    { apply elem_of_unmatched. split; [by eapply list_elem_of_lookup_2|done]. }
    destruct Hfresh as (Hobs & _ & _). rewrite Forall_forall in Hobs.
    destruct (Hobs p) as [m Hm]; [by eapply list_elem_of_lookup_2|].
    destruct (Hnew p m Hun Hm) as (id' & _ & Ht' & ->).
    assert (id' = id) as -> by by apply (wf_inj h' s' Hwf' id' id p).
    simpl. by rewrite id_of_blend, id_of_set_id.
Qed.

(** The first frame of a new obstacle without a candidate. *)
Lemma updateObstacles_first_frame (h : heap) (s : Aggregator) (obs : list ptr)
    (q : ptr) :
  wf h s → fresh_obstacles h s obs → q ∈ unmatched center_point h s obs →
  ∃ h' s' out id,
    updateObstacles center_point h s obs = Some (h', s', out) ∧
    next_model_id_ s ≤ id < next_model_id_ s' ∧
    tracked_models_ s !! id = None ∧ tracked_models_ s' !! id = Some q ∧
    frames_found_ s' !! id = Some 1 ∧ frames_lost_ s' !! id = Some 0 ∧
    model_idx_in_list_ s' !! id = None ∧ (q ∉ out) ∧
    id_of <$> h' !! q = Some id.
Proof.
  intros Hwf Hfresh Hun.
  destruct (updateObstacles_heap h s obs Hwf Hfresh)
    as (h' & s' & out & Hrun & _ & _ & Hnew).
  pose proof Hfresh as (Hobs & _ & _). rewrite Forall_forall in Hobs.
  destruct (Hobs q) as [m Hm]; [by apply elem_of_unmatched in Hun as [? _]|].
  destruct (Hnew q m Hun Hm) as (id & HT & Ht & Hh).
  exists h', s', out, id. split; [done|].
  destruct (updateObstacles_untracked h s obs id Hwf Hfresh HT)
    as (h0 & s0 & out0 & Hrun0 & Hcases).
  rewrite Hrun in Hrun0. injection Hrun0 as <- <- <-.
  destruct Hcases as [(Hrange & k & q' & _ & _ & Ht' & Hf & Hl & Hi & Hout)
                     |(Hnone & _)]; [|congruence].
  assert (q' = q) as -> by congruence.
  do 7 (split; [done|]). rewrite Hh. simpl.
  by rewrite id_of_blend, id_of_set_id.
Qed.
(** No object is twice in the list handed out. *)
Lemma copyMaterialized_NoDup (h : heap) (s : Aggregator) :
  wf h s → NoDup (copyMaterialized s).
Proof.
  intros Hwf. unfold copyMaterialized.
  apply NoDup_fmap_2_strong; [|eapply NoDup_fmap_1, (wf_iters h s Hwf)].
  intros [it1 p1] [it2 p2] H1 H2 Heq. simpl in Heq. subst p2.
  destruct (wf_nodes h s Hwf it1 p1 H1) as (id1 & Hi1 & Hp1).
  destruct (wf_nodes h s Hwf it2 p1 H2) as (id2 & Hi2 & Hp2).
  assert (id1 = id2) as -> by by apply (wf_inj h s Hwf id1 id2 p1).
  congruence.
Qed.

Lemma elem_of_tracked_ptrs (s : Aggregator) (p : ptr) :
  p ∈ tracked_ptrs s ↔ ∃ id, tracked_models_ s !! id = Some p.
Proof.
  unfold tracked_ptrs. rewrite list_elem_of_fmap. split.
  - intros ([id p'] & -> & Hin). exists id. by apply elem_of_map_to_list.
  - intros [id Hid]. exists (id, p). split; [done|]. by apply elem_of_map_to_list.
Qed.

Lemma fmap_filter_ext {A B} (f : A → B) (P : A → Prop) (Q : B → Prop)
    `{∀ x, Decision (P x)} `{∀ y, Decision (Q y)} (l : list A) :
  (∀ x, x ∈ l → P x ↔ Q (f x)) → f <$> filter P l = filter Q (f <$> l).
Proof.
  induction l as [|x l IH]; intros Hext; [done|].
  assert (∀ x0, x0 ∈ l → P x0 ↔ Q (f x0)) as Hl
    by (intros x0 Hx0; apply Hext; by right).
  rewrite fmap_cons.
  destruct (decide (P x)) as [HP|HP].
  - rewrite filter_cons_True by done.
    rewrite filter_cons_True by (apply Hext; [by left|done]).
    rewrite fmap_cons. f_equal. by apply IH.
  - rewrite filter_cons_False by done.
    rewrite filter_cons_False; [by apply IH|].
    intros HQ. apply HP, Hext; [by left|done].
Qed.

(** The list handed out after a frame: the models of the list before the
    frame that are still tracked, in their order, followed by the models
    materialised in the frame. *)
Lemma updateObstacles_output (h : heap) (s : Aggregator) (obs : list ptr) :
  wf h s → settled s → fresh_obstacles h s obs →
  ∃ h' s' out new,
    updateObstacles center_point h s obs = Some (h', s', out) ∧
    out = filter (λ p, p ∈ tracked_ptrs s') (copyMaterialized s) ++ new ∧
    NoDup out ∧
    ∀ p, p ∈ new ↔
      ∃ id, tracked_models_ s !! id = Some p ∧
            model_idx_in_list_ s !! id = None ∧
            found_streak center_point h s obs id = FOUND_LIMIT.
Proof.
  intros Hwf Hsettled Hfresh.
  destruct (updateObstacles_stages center_point h s obs Hwf Hfresh)
    as (corr & h1 & s1 & h2 & s4 & Hmatch & _ & Hmat & Hrun & Hwf1 & Hwf3
        & Hwf4 & _).
  pose proof (updateLostAndFound_wf h1 s1 corr Hwf1) as Hwf2.
  pose proof (wf_below h s Hwf) as Hbelow.
  pose proof (matchToPrevious_spec _ _ _ _ _ _ _ Hmatch) as Hspec.
  cbv zeta in Hspec. destruct Hspec as (rs & _ & _ & _ & Hm1 & _).
  simpl in Hm1.
  destruct (updateLostAndFound_spec s1 corr) as ((_ & Ht2 & Hm2 & Hi2 & _) & _).
  set (s2 := updateLostAndFound s1 corr) in *.
  destruct (dropLostObjects_spec s2) as (_ & _ & _ & _ & Hm3).
  set (s3 := dropLostObjects s2) in *.
  destruct (materializeFoundObjects_spec s3 s4 Hmat)
    as (_ & _ & Ht4 & _ & _ & new & Hm4 & _ & _ & _).
  assert (∀ id' q, tracked_models_ s4 !! id' = Some q →
                   tracked_models_ s2 !! id' = Some q) as Hsub.
  { intros id' q Hq. rewrite Ht4 in Hq.
    pose proof (dropLostObjects_cases s2 id') as Hcases. cbv zeta in Hcases.
    fold s3 in Hcases. destruct Hcases as [(Ht & _)|(Ht & _)]; congruence. }
  set (out := copyMaterialized s4).
  assert (out = filter (λ p, p ∈ tracked_ptrs s4) (copyMaterialized s) ++ new.*2)
    as Hout.
  { unfold out, copyMaterialized. rewrite Hm4, fmap_app. f_equal.
    rewrite Hm3, Hm2, Hm1. apply fmap_filter_ext.
    intros [it p] Hin. simpl.
    assert ((it, p) ∈ materialized_models_ s2) as Hin2 by by rewrite Hm2, Hm1.
    destruct (wf_nodes h1 s2 Hwf2 it p Hin2) as (id & Hit & Hp).
    rewrite elem_of_tracked_ptrs. split.
    - intros Hkeep.
      assert ((it, p) ∈ materialized_models_ s4) as Hin4.
      { rewrite Hm4, Hm3. apply elem_of_app. left.
        apply list_elem_of_filter. done. }
      destruct (wf_nodes h2 s4 Hwf4 it p Hin4) as (id' & _ & Hp').
      by exists id'.
    - intros [id' Hp'] Hdropped.
      apply elem_of_dropped_iters in Hdropped as (id'' & n & Hn & Hlim & Hit'').
      assert (id'' = id) as -> by by apply (wf_idx_inj h1 s2 Hwf2 id'' id it).
      apply Hsub in Hp' as Hp2.
      assert (id' = id) as -> by by apply (wf_inj h1 s2 Hwf2 id' id p).
      rewrite Ht4 in Hp'.
      pose proof (dropLostObjects_cases s2 id) as Hcases. cbv zeta in Hcases.
      fold s3 in Hcases.
      destruct Hcases as [(_ & _ & _ & _ & Hlt)|(Hnone & _)];
        [specialize (Hlt n Hn); lia|congruence]. }
  pose proof (copyMaterialized_NoDup h2 s4 Hwf4) as Hnd. fold out in Hnd.
  exists h2, s4, out, new.*2. do 3 (split; [done|]).
  intros p.
  assert (∀ id, tracked_models_ s !! id = Some p →
            model_idx_in_list_ s !! id = None → p ∉ copyMaterialized s) as Hnotin.
  { intros id Hp Hidx Hin.
    destruct (copyMaterialized_tracked h s p Hwf Hin) as (id' & it & Hit & Hq).
    assert (id' = id) as -> by by apply (wf_inj h s Hwf id' id p).
    congruence. }
  split.
  - intros Hnew.
    assert (p ∈ out) as Hin by (rewrite Hout; apply elem_of_app; by right).
    destruct (copyMaterialized_tracked h2 s4 p Hwf4 Hin) as (id & it & Hit & Hp4).
    destruct (tracked_models_ s !! id) as [p0|] eqn:Hp.
    + pose proof (updateObstacles_frame center_point h s obs id p0 Hwf Hfresh Hp)
        as Hframe. cbv zeta in Hframe.
      destruct Hframe as (h0 & s0 & out0 & Hrun0 & _ & Hdrop & Hkeep).
      rewrite Hrun in Hrun0. injection Hrun0 as <- <- <-.
      destruct (decide (LOST_LIMIT ≤ lost_streak center_point h s obs id))
        as [Hlim|Hlim].
      { destruct (Hdrop Hlim) as (Hnone & _). congruence. }
      destruct Hkeep as (Ht & _ & Hrest); [lia|].
      assert (p0 = p) as -> by congruence.
      exists id. split; [done|].
      destruct (model_idx_in_list_ s !! id) as [it0|] eqn:Hit0.
      * exfalso.
        assert (p ∈ copyMaterialized s) as Hold
          by by apply (copyMaterialized_confirmed h s id it0 p Hwf).
        rewrite Hout in Hnd. apply NoDup_app in Hnd as (_ & Hdisj & _).
        apply (Hdisj p); [|done]. apply list_elem_of_filter. split; [|done].
        apply elem_of_tracked_ptrs. by exists id.
      * split; [done|].
        destruct (decide (FOUND_LIMIT ≤ found_streak center_point h s obs id))
          as [Hge|Hge].
        -- pose proof (found_streak_bound center_point h s obs id Hsettled). lia.
        -- destruct Hrest as (_ & Hnone & _). congruence.
    + destruct (updateObstacles_untracked h s obs id Hwf Hfresh Hp)
        as (h0 & s0 & out0 & Hrun0 & Hcases).
      rewrite Hrun in Hrun0. injection Hrun0 as <- <- <-.
      destruct Hcases as [(_ & k & q & _ & _ & _ & _ & _ & Hi & _)|(Ht & _)];
        congruence.
  - intros (id & Hp & Hidx & Hfound).
    pose proof (updateObstacles_frame center_point h s obs id p Hwf Hfresh Hp)
      as Hframe. cbv zeta in Hframe.
    destruct Hframe as (h0 & s0 & out0 & Hrun0 & _ & _ & Hkeep).
    rewrite Hrun in Hrun0. injection Hrun0 as <- <- <-.
    assert (lost_streak center_point h s obs id = 0) as Hzero.
    { unfold found_streak, FOUND_LIMIT in Hfound. unfold lost_streak.
      destruct (bool_decide _); [done|lia]. }
    destruct Hkeep as (_ & _ & Hrest); [unfold LOST_LIMIT; lia|].
    rewrite Hidx in Hrest.
    destruct (decide (FOUND_LIMIT ≤ found_streak center_point h s obs id));
      [|lia].
    destruct Hrest as (_ & _ & Hin). fold out in Hin. rewrite Hout in Hin.
    apply elem_of_app in Hin as [Hin|Hin]; [|done].
    apply list_elem_of_filter in Hin as [_ Hin]. by destruct (Hnotin id).
Qed.
(** *** Frames without obstacles *)

Lemma elements_empty {V} : elements (∅ : gmap Z V) = [].
Proof. unfold elements. by rewrite map_to_list_empty. Qed.

Lemma fresh_obstacles_nil (h : heap) (s : Aggregator) : fresh_obstacles h s [].
Proof.
  split; [constructor|]. split; [constructor|].
  intros id p _. apply not_elem_of_nil.
Qed.

Lemma matched_in_nil (h : heap) (s : Aggregator) (id : Z) :
  ¬ matched_in center_point h s [] id.
Proof. unfold matched_in. by intros ?%Exists_nil. Qed.

Lemma updateObstacles_nil_heap (h h' : heap) (s s' : Aggregator) (out : list ptr) :
  updateObstacles center_point h s [] = Some (h', s', out) → h' = h.
Proof.
  unfold updateObstacles, matchToPrevious, adaptTracked. simpl.
  rewrite elements_empty. simpl.
  destruct (materializeFoundObjects _); simpl; [|done]. by intros [= <- _ _].
Qed.

(** A frame without obstacles. *)
Lemma updateObstacles_nil (h : heap) (s : Aggregator) :
  wf h s → settled s →
  ∃ s',
    updateObstacles center_point h s [] = Some (h, s', copyMaterialized s') ∧
    wf h s' ∧
    next_model_id_ s' = next_model_id_ s ∧
    (∀ id p, tracked_models_ s' !! id = Some p →
       tracked_models_ s !! id = Some p ∧
       frames_lost_ s' !! id = Some (counter (frames_lost_ s) id + 1) ∧
       counter (frames_found_ s') id = 0) ∧
    (∀ id, counter (frames_lost_ s) id + 1 < LOST_LIMIT →
       tracked_models_ s' !! id = tracked_models_ s !! id) ∧
    copyMaterialized s' =
      filter (λ p, p ∈ tracked_ptrs s') (copyMaterialized s).
Proof.
  intros Hwf Hsettled.
  pose proof (fresh_obstacles_nil h s) as Hfresh.
  destruct (updateObstacles_output h s [] Hwf Hsettled Hfresh)
    as (h' & s' & out & new & Hrun & Hout & _ & Hnew).
  pose proof (updateObstacles_nil_heap _ _ _ _ _ Hrun) as ->.
  destruct (updateObstacles_wf center_point h s [] Hwf Hfresh)
    as (h0 & s0 & out0 & Hrun0 & Hwf' & _ & _ & Hcopy).
  rewrite Hrun in Hrun0. injection Hrun0 as <- <- <-.
  destruct (updateObstacles_counters h s [] Hwf Hfresh)
    as (h0 & s0 & out0 & Hrun0 & _ & _ & rs & Hrs & Hnext).
  rewrite Hrun in Hrun0. injection Hrun0 as <- <- <-.
  apply Forall2_nil_inv_l in Hrs as ->. simpl in Hnext.
  assert (new = []) as ->.
  { destruct new as [|p new]; [done|].
    destruct (proj1 (Hnew p) ltac:(by left)) as (id & _ & _ & Hf).
    unfold found_streak in Hf.
    rewrite bool_decide_eq_false_2 in Hf by apply matched_in_nil. done. }
  rewrite app_nil_r in Hout.
  exists s'. rewrite <- Hcopy. split; [done|]. split; [done|].
  split; [lia|].
  assert (∀ id, lost_streak center_point h s [] id
                = counter (frames_lost_ s) id + 1) as Hls.
  { intros id. unfold lost_streak.
    by rewrite bool_decide_eq_false_2 by apply matched_in_nil. }
  assert (∀ id, found_streak center_point h s [] id = 0) as Hfs.
  { intros id. unfold found_streak.
    by rewrite bool_decide_eq_false_2 by apply matched_in_nil. }
  split; [|split; [|exact Hout]].
  - intros id p Hp'.
    destruct (tracked_models_ s !! id) as [p0|] eqn:Hp.
    + pose proof (updateObstacles_frame center_point h s [] id p0 Hwf Hfresh Hp)
        as Hframe. cbv zeta in Hframe.
      destruct Hframe as (h0 & s0 & out0 & Hrun0 & _ & Hdrop & Hkeep).
      rewrite Hrun in Hrun0. injection Hrun0 as _ <- _.
      rewrite Hls, Hfs in *.
      destruct (decide (LOST_LIMIT ≤ counter (frames_lost_ s) id + 1))
        as [Hlim|Hlim].
      { destruct (Hdrop Hlim) as (Hnone & _). congruence. }
      destruct Hkeep as (Ht & Hl & Hrest); [lia|].
      split; [congruence|]. split; [done|].
      destruct (model_idx_in_list_ s !! id) as [it|].
      * by destruct Hrest as (_ & _ & ?).
      * destruct (decide (FOUND_LIMIT ≤ 0)) as [Hge|Hge];
          [unfold FOUND_LIMIT in Hge; lia|].
        destruct Hrest as (Hf & _). unfold counter. by rewrite Hf.
    + destruct (updateObstacles_untracked h s [] id Hwf Hfresh Hp)
        as (h0 & s0 & out0 & Hrun0 & Hcases).
      rewrite Hrun in Hrun0. injection Hrun0 as _ <- _.
      destruct Hcases as [(_ & k & q & Hk & _)|(Ht & _)]; [done|congruence].
  - intros id Hlt.
    destruct (tracked_models_ s !! id) as [p0|] eqn:Hp.
    + pose proof (updateObstacles_frame center_point h s [] id p0 Hwf Hfresh Hp)
        as Hframe. cbv zeta in Hframe.
      destruct Hframe as (h0 & s0 & out0 & Hrun0 & _ & _ & Hkeep).
      rewrite Hrun in Hrun0. injection Hrun0 as _ <- _.
      rewrite Hls in Hkeep. by destruct Hkeep as (Ht & _).
    + destruct (updateObstacles_untracked h s [] id Hwf Hfresh Hp)
        as (h0 & s0 & out0 & Hrun0 & Hcases).
      rewrite Hrun in Hrun0. injection Hrun0 as _ <- _.
      destruct Hcases as [(_ & k & q & Hk & _)|(Ht & _)]; [done|congruence].
Qed.

(** Frames without obstacles, one after the other: the lost counters of
    the models that stay tracked grow with the frames. *)
Lemma run_nil (n : nat) (h : heap) (s : Aggregator) (k : Z) :
  reachable center_point h s →
  (∀ id, is_Some (tracked_models_ s !! id) → k ≤ counter (frames_lost_ s) id) →
  ∃ s' outs,
    run center_point h s (replicate n []) = Some (h, s', outs) ∧
    reachable center_point h s' ∧
    next_model_id_ s' = next_model_id_ s ∧ length outs = n ∧
    (∀ id p, tracked_models_ s' !! id = Some p →
       tracked_models_ s !! id = Some p ∧
       k + Z.of_nat n ≤ counter (frames_lost_ s') id) ∧
    (n ≠ 0%nat → last outs = Some (copyMaterialized s')).
Proof.
  revert s k. induction n as [|n IH]; intros s k Hreach Hk.
  - exists s, []. simpl. do 4 (split; [done|]). split; [|done].
    intros id p Hp. split; [done|].
    specialize (Hk id ltac:(by eexists)). lia.
  - destruct (reachable_wf center_point h s Hreach) as [Hwf Hsettled].
    destruct (updateObstacles_nil h s Hwf Hsettled)
      as (s1 & Hrun1 & _ & Hn1 & Hstep & _).
    assert (reachable center_point h s1) as Hreach1.
    { eapply reach_frame; [exact Hreach|apply fresh_obstacles_nil|exact Hrun1]. }
    destruct (IH s1 (k + 1)) as (s' & outs & Hrun & Hreach' & Hn & Hlen & Hall & Hlast);
      [done| |].
    { intros id [p Hp]. destruct (Hstep id p Hp) as (Hp0 & Hl & _).
      unfold counter at 1. rewrite Hl. simpl.
      specialize (Hk id ltac:(by eexists)). lia. }
    exists s', (copyMaterialized s1 :: outs).
    cbn [replicate run]. rewrite Hrun1. simpl. rewrite Hrun. simpl.
    split; [done|]. split; [done|]. split; [congruence|].
    split; [by rewrite Hlen|]. split.
    + intros id p Hp. destruct (Hall id p Hp) as [Hp1 Hle].
      destruct (Hstep id p Hp1) as (Hp0 & _). split; [done|]. lia.
    + intros _. destruct n as [|n].
      * simpl in Hrun. injection Hrun as <- <-. done.
      * rewrite last_cons. by rewrite Hlast.
Qed.
(** *** Fresh IDs in the order of the batch *)




(** *** The two sweeps, repeated *)

Lemma dropLostObjects_fixed (s : Aggregator) :
  map_Forall (λ _ n, n < LOST_LIMIT) (frames_lost_ s) → dropLostObjects s = s.
Proof.
  intros Hall. unfold dropLostObjects.
  assert (Forall (λ e, e.2 < LOST_LIMIT) (elements (frames_lost_ s))) as Hl.
  { apply Forall_forall. intros [id n] Hin. apply elem_of_elements in Hin.
    apply (Hall id n Hin). }
  induction Hl as [|e l He _ IH]; [done|]. simpl.
  assert (drop_one s e = s) as ->; [|done].
  unfold drop_one. destruct (decide (LOST_LIMIT ≤ e.2)); [lia|done].
Qed.

Lemma materializeFoundObjects_fixed (s : Aggregator) :
  map_Forall (λ _ n, n < FOUND_LIMIT) (frames_found_ s) →
  materializeFoundObjects s = Some s.
Proof.
  intros Hall. unfold materializeFoundObjects.
  assert (Forall (λ e, e.2 < FOUND_LIMIT) (elements (frames_found_ s))) as Hl.
  { apply Forall_forall. intros [id n] Hin. apply elem_of_elements in Hin.
    apply (Hall id n Hin). }
  induction Hl as [|e l He _ IH]; [done|]. simpl.
  assert (materialize_one s e = Some s) as ->; [|done].
  unfold materialize_one. destruct (decide (FOUND_LIMIT ≤ e.2)); [lia|done].
Qed.
(** *** Properties of a run *)


(** X2.  Between two frames the tables agree on the IDs: the lost
    counters exist exactly for the tracked IDs, the found counters and the
    index of the materialised models only for tracked IDs, every tracked
    ID has a found counter or is materialised, and the nodes of the list
    of materialised models are exactly the ones the index records. *)
Theorem reachable_tables (h : heap) (s : Aggregator) :
  reachable center_point h s →
  dom (frames_lost_ s) = dom (tracked_models_ s) ∧
  dom (frames_found_ s) ⊆ dom (tracked_models_ s) ∧
  dom (model_idx_in_list_ s) ⊆ dom (tracked_models_ s) ∧
  (∀ id, is_Some (tracked_models_ s !! id) →
     is_Some (frames_found_ s !! id) ∨ is_Some (model_idx_in_list_ s !! id)) ∧
  (∀ it, it ∈ (materialized_models_ s).*1 ↔
         ∃ id, model_idx_in_list_ s !! id = Some it).
Proof.
  intros Hreach.
  destruct (reachable_wf center_point h s Hreach) as [Hwf _].
  destruct (reachable_consistent h s Hreach) as [Hlost Hfound _ _ _].
  split; [|split; [|split; [|split; [done|]]]].
  - apply set_eq. intros id. rewrite !elem_of_dom. apply Hlost.
  - intros id. rewrite !elem_of_dom. apply (wf_found h s Hwf).
  - intros id. rewrite !elem_of_dom. intros [it Hit].
    destruct (wf_idx h s Hwf id it Hit) as (p & Hp & _). by exists p.
  - intros it. split.
    + intros Hin. apply list_elem_of_fmap in Hin as ([it' p] & -> & Hin).
      destruct (wf_nodes h s Hwf it' p Hin) as (id & Hit & _). by exists id.
    + intros [id Hit]. destruct (wf_idx h s Hwf id it Hit) as (p & _ & Hin).
      by apply (list_elem_of_fmap_2 fst _ (it, p)).
Qed.

(** X3.  Between two frames every found counter is between 0 and 4 and
    every lost counter between 0 and 9. *)
Theorem reachable_counters_range (h : heap) (s : Aggregator) (id n : Z) :
  reachable center_point h s →
  (frames_found_ s !! id = Some n → 0 ≤ n ≤ 4) ∧
  (frames_lost_ s !! id = Some n → 0 ≤ n ≤ 9).
Proof.
  intros Hreach.
  destruct (reachable_wf center_point h s Hreach) as [_ [Hf Hl]].
  destruct (reachable_consistent h s Hreach) as [_ _ Hfnn Hlnn _].
  split; intros Hn.
  - specialize (Hf id n Hn). specialize (Hfnn id n Hn). simpl in *.
    unfold FOUND_LIMIT in Hf. lia.
  - specialize (Hl id n Hn). specialize (Hlnn id n Hn). simpl in *.
    unfold LOST_LIMIT in Hl. lia.
Qed.

(** X4.  Between two frames no ID has both a found streak and a lost
    streak: one of its two counters is 0 or absent. *)
Theorem reachable_streaks_exclusive (h : heap) (s : Aggregator) (id : Z) :
  reachable center_point h s →
  counter (frames_found_ s) id = 0 ∨ counter (frames_lost_ s) id = 0.
Proof. intros Hreach. apply (cons_exclusive s (reachable_consistent h s Hreach)). Qed.

(** X5.  The list handed out by a frame holds no object twice, and its
    members are exactly the tracked models of the materialised IDs. *)
Theorem updateObstacles_output_members (h : heap) (s : Aggregator)
    (obs : list ptr) :
  reachable center_point h s → fresh_obstacles h s obs →
  ∃ h' s' out,
    updateObstacles center_point h s obs = Some (h', s', out) ∧
    NoDup out ∧
    ∀ p, p ∈ out ↔
      ∃ id, is_Some (model_idx_in_list_ s' !! id) ∧
            tracked_models_ s' !! id = Some p.
Proof.
  intros Hreach Hfresh.
  destruct (reachable_wf center_point h s Hreach) as [Hwf _].
  destruct (updateObstacles_wf center_point h s obs Hwf Hfresh)
    as (h' & s' & out & Hrun & Hwf' & _ & _ & ->).
  exists h', s', (copyMaterialized s'). split; [done|].
  split; [by apply (copyMaterialized_NoDup h')|].
  intros p. split.
  - intros Hin.
    destruct (copyMaterialized_tracked h' s' p Hwf' Hin) as (id & it & Hit & Hp).
    exists id. split; [by eexists|done].
  - intros (id & [it Hit] & Hp).
    by apply (copyMaterialized_confirmed h' s' id it p Hwf').
Qed.

(** X6.  The list handed out by a frame is the list of the materialised
    models before the frame without the models that are no longer
    tracked, in the same order, followed by the models materialised in
    the frame; these are the tracked models, not materialised before,
    whose found streak reaches 5 with the frame. *)
Theorem updateObstacles_output_order (h : heap) (s : Aggregator)
    (obs : list ptr) :
  reachable center_point h s → fresh_obstacles h s obs →
  ∃ h' s' out new,
    updateObstacles center_point h s obs = Some (h', s', out) ∧
    out = filter (λ p, p ∈ tracked_ptrs s') (copyMaterialized s) ++ new ∧
    ∀ p, p ∈ new ↔
      ∃ id, tracked_models_ s !! id = Some p ∧
            model_idx_in_list_ s !! id = None ∧
            found_streak center_point h s obs id = 5.
Proof.
  intros Hreach Hfresh.
  destruct (reachable_wf center_point h s Hreach) as [Hwf Hsettled].
  destruct (updateObstacles_output h s obs Hwf Hsettled Hfresh)
    as (h' & s' & out & new & Hrun & Hout & _ & Hnew).
  by exists h', s', out, new.
Qed.

(** X7.  The first frame of a new obstacle without a candidate: it is
    tracked under an ID that the counter hands out in that frame, with the
    found counter 1 and the lost counter 0; it is not materialised and
    not handed out, and its object carries the ID. *)
Theorem updateObstacles_new_obstacle (h : heap) (s : Aggregator)
    (obs : list ptr) (q : ptr) :
  reachable center_point h s → fresh_obstacles h s obs →
  q ∈ obs → nearest center_point h (tracked_models_ s) q = Some None →
  ∃ h' s' out id,
    updateObstacles center_point h s obs = Some (h', s', out) ∧
    next_model_id_ s ≤ id < next_model_id_ s' ∧
    tracked_models_ s !! id = None ∧ tracked_models_ s' !! id = Some q ∧
    frames_found_ s' !! id = Some 1 ∧ frames_lost_ s' !! id = Some 0 ∧
    model_idx_in_list_ s' !! id = None ∧ (q ∉ out) ∧
    id_of <$> h' !! q = Some id.
Proof.
  intros Hreach Hfresh Hin Hn.
  destruct (reachable_wf center_point h s Hreach) as [Hwf _].
  apply (updateObstacles_first_frame h s obs q Hwf Hfresh).
  by apply elem_of_unmatched.
Qed.

(** X8.  What a frame leaves untouched: a new obstacle that has a match,
    the tracked model of an ID without a match in the frame, and every
    object that is neither a new obstacle nor a tracked model. *)
Theorem updateObstacles_untouched (h : heap) (s : Aggregator) (obs : list ptr) :
  reachable center_point h s → fresh_obstacles h s obs →
  ∃ h' s' out,
    updateObstacles center_point h s obs = Some (h', s', out) ∧
    (∀ q id, q ∈ obs →
       nearest center_point h (tracked_models_ s) q = Some (Some id) →
       h' !! q = h !! q) ∧
    (∀ id p, tracked_models_ s !! id = Some p →
       ¬ matched_in center_point h s obs id → h' !! p = h !! p) ∧
    (∀ a, a ∉ obs → a ∉ tracked_ptrs s → h' !! a = h !! a).
Proof.
  intros Hreach Hfresh.
  destruct (reachable_wf center_point h s Hreach) as [Hwf _].
  destruct (updateObstacles_heap h s obs Hwf Hfresh)
    as (h' & s' & out & Hrun & Hother & _).
  exists h', s', out. split; [done|].
  destruct Hfresh as (_ & _ & Hnot).
  split; [|split].
  - intros q id Hin Hn. apply Hother.
    + intros id' _ Hp. by apply (Hnot id' q).
    + intros Hun. apply elem_of_unmatched in Hun as [_ Hun]. congruence.
  - intros id p Hp Hmi. apply Hother.
    + intros id' Hmi' Hp'.
      assert (id' = id) as -> by by apply (wf_inj h s Hwf id' id p). done.
    + intros Hun. apply elem_of_unmatched in Hun as [Hin _].
      by apply (Hnot id p).
  - intros a Hobs Htr. apply Hother.
    + intros id _ Hp. apply Htr, elem_of_tracked_ptrs. by exists id.
    + intros Hun. apply elem_of_unmatched in Hun as [Hin _]. done.
Qed.

(** X9.  A frame keeps the IDs of the tracked objects: if every tracked
    object carries the ID under which it is tracked, the same holds after
    the frame, the new tracked objects included. *)
Theorem updateObstacles_stamped (h : heap) (s : Aggregator) (obs : list ptr) :
  reachable center_point h s → fresh_obstacles h s obs → stamped h s →
  ∃ h' s' out,
    updateObstacles center_point h s obs = Some (h', s', out) ∧
    stamped h' s'.
Proof.
  intros Hreach Hfresh Hst.
  destruct (reachable_wf center_point h s Hreach) as [Hwf _].
  destruct (updateObstacles_wf center_point h s obs Hwf Hfresh)
    as (h' & s' & out & Hrun & _).
  exists h', s', out. split; [done|].
  by apply (updateObstacles_stamped_step h h' s s' obs out).
Qed.
(** X18.  The tracked model of a matched ID after the frame: it is still
    tracked at the same address, and the object there is the blend of the
    object before the frame with the last obstacle of the batch whose
    match is that ID, whatever the other obstacles with the same match
    were: translated by half the difference of the two reference points
    and, in a frame whose count is a multiple of 30, refreshed from that
    obstacle when both are composites. *)
Theorem updateObstacles_blends_last (h : heap) (s : Aggregator)
    (obs : list ptr) (id : Z) (p : ptr) (m : ObjectModel) :
  reachable center_point h s → fresh_obstacles h s obs →
  tracked_models_ s !! id = Some p → h !! p = Some m →
  matched_in center_point h s obs id →
  ∃ h' s' out i q new_model,
    updateObstacles center_point h s obs = Some (h', s', out) ∧
    obs !! i = Some q ∧
    nearest center_point h (tracked_models_ s) q = Some (Some id) ∧
    (∀ k q', (i < k)%nat → obs !! k = Some q' →
       nearest center_point h (tracked_models_ s) q' ≠ Some (Some id)) ∧
    h !! q = Some new_model ∧
    tracked_models_ s' !! id = Some p ∧
    h' !! p =
      Some (refreshed (refresh_due s')
              (accept (translation_vec center_point m new_model) m) new_model).
Proof.
  intros Hreach Hfresh Hp Hm Hmi.
  destruct (reachable_wf center_point h s Hreach) as [Hwf _].
  destruct (updateObstacles_heap h s obs Hwf Hfresh)
    as (h' & s' & out & Hrun & _ & Hmatched & _).
  destruct (Hmatched id p m Hp Hmi Hm)
    as (i & q & new_model & Hq & Hn & Hlast & Hnm & Hblend).
  exists h', s', out, i, q, new_model. do 5 (split; [done|]).
  split; [|exact Hblend].
  pose proof (updateObstacles_frame center_point h s obs id p Hwf Hfresh Hp)
    as Hframe. cbv zeta in Hframe.
  destruct Hframe as (h0 & s0 & out0 & Hrun0 & _ & _ & Hkeep).
  rewrite Hrun in Hrun0. injection Hrun0 as <- <- <-.
  destruct Hkeep as (Ht & _); [|done].
  unfold lost_streak. rewrite bool_decide_eq_true_2 by done.
  unfold LOST_LIMIT. lia.
Qed.

(** X10.  A frame without obstacles writes no object and hands out no new
    ID; a model that is still tracked after it was tracked before, has
    one more lost frame and no found streak; a model whose lost counter
    stays below 10 stays tracked; the list handed out is the previous one
    without the models dropped. *)
Theorem updateObstacles_no_obstacles (h : heap) (s : Aggregator) :
  reachable center_point h s →
  ∃ s' out,
    updateObstacles center_point h s [] = Some (h, s', out) ∧
    next_model_id_ s' = next_model_id_ s ∧
    (∀ id p, tracked_models_ s' !! id = Some p →
       tracked_models_ s !! id = Some p ∧
       frames_lost_ s' !! id = Some (counter (frames_lost_ s) id + 1) ∧
       counter (frames_found_ s') id = 0) ∧
    (∀ id, counter (frames_lost_ s) id + 1 < 10 →
       tracked_models_ s' !! id = tracked_models_ s !! id) ∧
    out = filter (λ p, p ∈ tracked_ptrs s') (copyMaterialized s).
Proof.
  intros Hreach.
  destruct (reachable_wf center_point h s Hreach) as [Hwf Hsettled].
  destruct (updateObstacles_nil h s Hwf Hsettled)
    as (s' & Hrun & _ & Hnext & Hstep & Hkeep & Hout).
  by exists s', (copyMaterialized s').
Qed.

(** X11.  Ten frames without obstacles empty the aggregator: whatever was
    tracked, the tracked table, the two counter maps, the list of
    materialised models and its index are empty afterwards, the last list
    handed out is empty, no object has been written and the counter of
    the IDs is where it was. *)
Theorem run_no_obstacles_drains (h : heap) (s : Aggregator) :
  reachable center_point h s →
  ∃ s' outs,
    run center_point h s (replicate 10 []) = Some (h, s', outs) ∧
    tracked_models_ s' = ∅ ∧ frames_found_ s' = ∅ ∧ frames_lost_ s' = ∅ ∧
    model_idx_in_list_ s' = ∅ ∧ materialized_models_ s' = [] ∧
    next_model_id_ s' = next_model_id_ s ∧ last outs = Some [].
Proof.
  intros Hreach.
  destruct (reachable_consistent h s Hreach) as [_ _ _ Hlnn _].
  destruct (run_nil 10 h s 0 Hreach)
    as (s' & outs & Hrun & Hreach' & Hnext & _ & Hall & Hlast).
  { intros id _. unfold counter.
    destruct (frames_lost_ s !! id) as [n|] eqn:Hn; simpl; [|lia].
    apply (Hlnn id n Hn). }
  destruct (reachable_wf center_point h s' Hreach') as [Hwf' [_ Hl']].
  destruct (reachable_consistent h s' Hreach') as [Hlost' _ _ _ _].
  assert (tracked_models_ s' = ∅) as Ht.
  { apply map_empty. intros id.
    destruct (tracked_models_ s' !! id) as [p|] eqn:Hp; [|done].
    destruct (Hall id p Hp) as [_ Hge].
    destruct (proj2 (Hlost' id)) as [n Hn]; [by eexists|].
    unfold counter in Hge. rewrite Hn in Hge. simpl in Hge.
    specialize (Hl' id n Hn). simpl in Hl'. unfold LOST_LIMIT in Hl'. lia. }
  assert (materialized_models_ s' = []) as Hm.
  { destruct (materialized_models_ s') as [|[it p] l] eqn:Hl; [done|].
    destruct (wf_nodes h s' Hwf' it p) as (id & _ & Hp); [rewrite Hl; by left|].
    by rewrite Ht, lookup_empty in Hp. }
  exists s', outs. split; [done|]. split; [done|].
  split; [|split; [|split; [|split; [done|split; [done|]]]]].
  - apply map_empty. intros id.
    destruct (frames_found_ s' !! id) as [n|] eqn:Hn; [|done].
    destruct (wf_found h s' Hwf' id) as [p Hp]; [by rewrite Hn|].
    by rewrite Ht, lookup_empty in Hp.
  - apply map_empty. intros id.
    destruct (frames_lost_ s' !! id) as [n|] eqn:Hn; [|done].
    destruct (proj1 (Hlost' id)) as [p Hp]; [by rewrite Hn|].
    by rewrite Ht, lookup_empty in Hp.
  - apply map_empty. intros id.
    destruct (model_idx_in_list_ s' !! id) as [it|] eqn:Hit; [|done].
    destruct (wf_idx h s' Hwf' id it Hit) as (p & Hp & _).
    by rewrite Ht, lookup_empty in Hp.
  - rewrite Hlast by done. unfold copyMaterialized. by rewrite Hm.
Qed.

(** The IDs over the frames of a run. *)
Lemma run_ids_retired (h h' : heap) (s s' : Aggregator)
    (frames outs : list (list ptr)) :
  reachable center_point h s → fresh_run center_point h s frames = true →
  run center_point h s frames = Some (h', s', outs) →
  next_model_id_ s ≤ next_model_id_ s' ∧
  (∀ id, id < next_model_id_ s → tracked_models_ s !! id = None →
         tracked_models_ s' !! id = None) ∧
  (∀ id p p', tracked_models_ s !! id = Some p →
              tracked_models_ s' !! id = Some p' → p' = p).
Proof.
  revert h s outs.
  induction frames as [|obs frames IH]; intros h s outs Hreach Hfr Hrun.
  - simpl in Hrun. injection Hrun as <- <- _.
    split; [lia|]. split; [done|]. intros id p p' Hp Hp'. congruence.
  - simpl in Hfr, Hrun. apply andb_true_iff in Hfr as [Hfresh Hfr].
    apply bool_decide_eq_true in Hfresh.
    destruct (updateObstacles center_point h s obs) as [[[h1 s1] out]|] eqn:Hup;
      simpl in Hrun; [|done].
    destruct (run center_point h1 s1 frames) as [[[h2 s2] outs']|] eqn:Hrest;
      simpl in Hrun; [|done].
    injection Hrun as <- <- _.
    assert (reachable center_point h1 s1) as Hreach1 by by eapply reach_frame.
    destruct (IH h1 s1 outs' Hreach1 Hfr Hrest) as (Hn & Hgone & Hsame).
    destruct (reachable_wf center_point h s Hreach) as [Hwf _].
    destruct (updateObstacles_counters h s obs Hwf Hfresh)
      as (h0 & s0 & out0 & Hrun0 & _ & Hn1 & _).
    rewrite Hup in Hrun0. injection Hrun0 as <- <- <-.
    assert (∀ id, id < next_model_id_ s → tracked_models_ s !! id = None →
                  tracked_models_ s1 !! id = None) as Hgone1.
    { intros id Hlt HT.
      destruct (updateObstacles_untracked h s obs id Hwf Hfresh HT)
        as (h0 & s0 & out0 & Hrun0 & Hcases).
      rewrite Hup in Hrun0. injection Hrun0 as <- <- <-.
      destruct Hcases as [(Hrange & _)|(Ht & _)]; [lia|done]. }
    split; [lia|]. split.
    + intros id Hlt HT. apply Hgone; [lia|]. by apply Hgone1.
    + intros id p p' Hp Hp'.
      pose proof (updateObstacles_frame center_point h s obs id p Hwf Hfresh Hp)
        as Hframe. cbv zeta in Hframe.
      destruct Hframe as (h0 & s0 & out0 & Hrun0 & _ & Hdrop & Hkeep).
      rewrite Hup in Hrun0. injection Hrun0 as <- <- <-.
      destruct (decide (LOST_LIMIT ≤ lost_streak center_point h s obs id))
        as [Hlim|Hlim].
      * destruct (Hdrop Hlim) as (Hnone & _).
        pose proof (wf_below h s Hwf id p Hp) as Hlt. simpl in Hlt.
        rewrite Hgone in Hp'; [done|lia|done].
      * destruct Hkeep as (Ht & _); [lia|]. by apply (Hsame id).
Qed.


(** The frame count of a frame that returns. *)
Lemma updateObstacles_frame_cnt (h h' : heap) (s s' : Aggregator)
    (obs out : list ptr) :
  updateObstacles center_point h s obs = Some (h', s', out) →
  frame_cnt_ s' = frame_cnt_ s + 1 ∧ out = copyMaterialized s'.
Proof.
  unfold updateObstacles. intros Hrun.
  destruct (matchToPrevious _ _ _ _) as [[[corr h1] s1]|] eqn:Hmatch;
    simpl in Hrun; [|done].
  destruct (adaptTracked _ _ _ _ _) as [h2|]; simpl in Hrun; [|done].
  destruct (materializeFoundObjects _) as [s4|] eqn:Hmat; simpl in Hrun; [|done].
  injection Hrun as <- <- <-.
  pose proof (matchToPrevious_spec _ _ _ _ _ _ _ Hmatch) as Hspec.
  cbv zeta in Hspec. destruct Hspec as (rs & _ & _ & _ & _ & _ & Hcnt & _).
  simpl in Hcnt.
  destruct (updateLostAndFound_spec s1 corr) as ((_ & _ & _ & _ & Hc2) & _).
  destruct (dropLostObjects_spec (updateLostAndFound s1 corr)) as (_ & Hc3 & _).
  destruct (materializeFoundObjects_spec _ s4 Hmat) as (_ & Hc4 & _).
  split; [|done]. by rewrite Hc4, Hc3, Hc2, Hcnt.
Qed.


End Coverage.

(** X14.  [dropLostObjects] twice is [dropLostObjects] once: after the
    call no lost counter is at the limit, on any state. *)
Theorem dropLostObjects_idempotent (s : Aggregator) :
  map_Forall (λ _ n, n < LOST_LIMIT) (frames_lost_ (dropLostObjects s)) ∧
  dropLostObjects (dropLostObjects s) = dropLostObjects s.
Proof.
  split; [apply dropLostObjects_settled|].
  apply dropLostObjects_fixed, dropLostObjects_settled.
Qed.

(** X15.  [materializeFoundObjects] twice is [materializeFoundObjects]
    once: when the call returns, no found counter is at the limit and a
    second call changes nothing. *)
Theorem materializeFoundObjects_idempotent (s s' : Aggregator) :
  materializeFoundObjects s = Some s' →
  map_Forall (λ _ n, n < FOUND_LIMIT) (frames_found_ s') ∧
  materializeFoundObjects s' = Some s'.
Proof.
  intros Hrun.
  pose proof (materializeFoundObjects_settled s s' Hrun) as Hall.
  split; [done|]. by apply materializeFoundObjects_fixed.
Qed.

(** ** The properties of a run on worked inputs *)

Ltac reach_by_run frames :=
  lazymatch goal with
  | |- reachable ?cp ?h ?s =>
      apply (run_reachable cp h h SmoothObstacleAggregator s frames);
      [apply reach_init|vm_compute; reflexivity..]
  end.


(** X2, witness: the materialised model of scenario A, lost for 9 frames. *)
Lemma reachable_tables_witness :
  reachable example_center_point scenario_heap fading_agg ∧
  dom (frames_lost_ fading_agg) = dom (tracked_models_ fading_agg) ∧
  dom (frames_found_ fading_agg) ⊆ dom (tracked_models_ fading_agg) ∧
  dom (model_idx_in_list_ fading_agg) ⊆ dom (tracked_models_ fading_agg).
Proof.
  assert (reachable example_center_point scenario_heap fading_agg) as H1
    by reach_by_run (scenario_frames ++ replicate 9 []).
  split; [assumption|].
  destruct (reachable_tables example_center_point scenario_heap fading_agg H1)
    as (Hl & Hf & Hi & _).
  repeat split; assumption.
Defined.

(** X3, witness: the lost counter 9 of that model. *)
Lemma reachable_counters_range_witness :
  reachable example_center_point scenario_heap fading_agg ∧
  frames_lost_ fading_agg !! 0 = Some 9 ∧ 0 ≤ 9 ≤ 9.
Proof.
  assert (reachable example_center_point scenario_heap fading_agg) as H1
    by reach_by_run (scenario_frames ++ replicate 9 []).
  assert (frames_lost_ fading_agg !! 0 = Some 9) as H2 by reflexivity.
  do 2 (split; [assumption|]).
  exact (proj2 (reachable_counters_range example_center_point scenario_heap
                  fading_agg 0 9 H1) H2).
Defined.

(** X4, witness: the model of scenario A after frame 4, found 4 times and
    never lost. *)
Lemma reachable_streaks_exclusive_witness :
  reachable example_center_point scenario_heap pending_agg ∧
  (counter (frames_found_ pending_agg) 0 = 0 ∨
   counter (frames_lost_ pending_agg) 0 = 0).
Proof.
  assert (reachable example_center_point scenario_heap pending_agg) as H1
    by reach_by_run (take 4 scenario_frames).
  split; [assumption|].
  exact (reachable_streaks_exclusive example_center_point scenario_heap
           pending_agg 0 H1).
Defined.

(** X5, witness: frame 5 of scenario A. *)
Lemma updateObstacles_output_members_witness :
  reachable example_center_point scenario_heap pending_agg ∧
  fresh_obstacles scenario_heap pending_agg [5%nat] ∧
  ∃ h' s' out,
    updateObstacles example_center_point scenario_heap pending_agg [5%nat]
      = Some (h', s', out) ∧
    NoDup out ∧
    ∀ p, p ∈ out ↔
      ∃ id, is_Some (model_idx_in_list_ s' !! id) ∧
            tracked_models_ s' !! id = Some p.
Proof.
  assert (reachable example_center_point scenario_heap pending_agg) as H1
    by reach_by_run (take 4 scenario_frames).
  assert (fresh_obstacles scenario_heap pending_agg [5%nat]) as H2
    by by_compute.
  do 2 (split; [assumption|]).
  exact (updateObstacles_output_members example_center_point scenario_heap
           pending_agg [5%nat] H1 H2).
Defined.

(** X6, witness: frame 5 of scenario A. *)
Lemma updateObstacles_output_order_witness :
  reachable example_center_point scenario_heap pending_agg ∧
  fresh_obstacles scenario_heap pending_agg [5%nat] ∧
  ∃ h' s' out new,
    updateObstacles example_center_point scenario_heap pending_agg [5%nat]
      = Some (h', s', out) ∧
    out = filter (λ p, p ∈ tracked_ptrs s') (copyMaterialized pending_agg)
          ++ new ∧
    ∀ p, p ∈ new ↔
      ∃ id, tracked_models_ pending_agg !! id = Some p ∧
            model_idx_in_list_ pending_agg !! id = None ∧
            found_streak example_center_point scenario_heap pending_agg
              [5%nat] id = 5.
Proof.
  assert (reachable example_center_point scenario_heap pending_agg) as H1
    by reach_by_run (take 4 scenario_frames).
  assert (fresh_obstacles scenario_heap pending_agg [5%nat]) as H2
    by by_compute.
  do 2 (split; [assumption|]).
  exact (updateObstacles_output_order example_center_point scenario_heap
           pending_agg [5%nat] H1 H2).
Defined.

(** X7, witness: the new sphere at 1, far from the tracked sphere. *)
Lemma updateObstacles_new_obstacle_witness :
  reachable example_center_point crowd_heap crowd_agg ∧
  fresh_obstacles crowd_heap crowd_agg [22%nat] ∧
  22%nat ∈ [22%nat] ∧
  nearest example_center_point crowd_heap (tracked_models_ crowd_agg) 22%nat
    = Some None ∧
  ∃ h' s' out id,
    updateObstacles example_center_point crowd_heap crowd_agg [22%nat]
      = Some (h', s', out) ∧
    tracked_models_ s' !! id = Some 22%nat ∧
    frames_found_ s' !! id = Some 1 ∧ frames_lost_ s' !! id = Some 0 ∧
    (22%nat ∉ out) ∧ id_of <$> h' !! 22%nat = Some id.
Proof.
  assert (reachable example_center_point crowd_heap crowd_agg) as H1
    by reach_by_run [[10%nat]].
  assert (fresh_obstacles crowd_heap crowd_agg [22%nat]) as H2 by by_compute.
  assert (22%nat ∈ [22%nat]) as H3 by by_compute.
  assert (nearest example_center_point crowd_heap (tracked_models_ crowd_agg)
            22%nat = Some None) as H4 by (vm_compute; reflexivity).
  do 4 (split; [assumption|]).
  destruct (updateObstacles_new_obstacle example_center_point crowd_heap
              crowd_agg [22%nat] 22%nat H1 H2 H3 H4)
    as (h' & s' & out & id & Hrun & _ & _ & Ht & Hf & Hl & _ & Hout & Hid).
  exists h', s', out, id. repeat split; assumption.
Defined.

(** X8, witness: the new sphere at 1/16, matched to the tracked sphere. *)
Lemma updateObstacles_untouched_witness :
  reachable example_center_point crowd_heap crowd_agg ∧
  fresh_obstacles crowd_heap crowd_agg [20%nat] ∧
  nearest example_center_point crowd_heap (tracked_models_ crowd_agg) 20%nat
    = Some (Some 0) ∧
  ∃ h' s' out,
    updateObstacles example_center_point crowd_heap crowd_agg [20%nat]
      = Some (h', s', out) ∧
    h' !! 20%nat = crowd_heap !! 20%nat.
Proof.
  assert (reachable example_center_point crowd_heap crowd_agg) as H1
    by reach_by_run [[10%nat]].
  assert (fresh_obstacles crowd_heap crowd_agg [20%nat]) as H2 by by_compute.
  assert (nearest example_center_point crowd_heap (tracked_models_ crowd_agg)
            20%nat = Some (Some 0)) as H3 by (vm_compute; reflexivity).
  do 3 (split; [assumption|]).
  destruct (updateObstacles_untouched example_center_point crowd_heap
              crowd_agg [20%nat] H1 H2) as (h' & s' & out & Hrun & Hobs & _).
  exists h', s', out. split; [exact Hrun|].
  apply (Hobs 20%nat 0); [by_compute|exact H3].
Defined.

(** X9, witness: the new sphere at 1 in front of the tracked sphere. *)
Lemma updateObstacles_stamped_witness :
  reachable example_center_point crowd_heap crowd_agg ∧
  fresh_obstacles crowd_heap crowd_agg [22%nat] ∧
  stamped crowd_heap crowd_agg ∧
  ∃ h' s' out,
    updateObstacles example_center_point crowd_heap crowd_agg [22%nat]
      = Some (h', s', out) ∧
    stamped h' s'.
Proof.
  assert (reachable example_center_point crowd_heap crowd_agg) as H1
    by reach_by_run [[10%nat]].
  assert (fresh_obstacles crowd_heap crowd_agg [22%nat]) as H2 by by_compute.
  assert (stamped crowd_heap crowd_agg) as H3 by (unfold stamped; by_compute).
  do 3 (split; [assumption|]).
  exact (updateObstacles_stamped example_center_point crowd_heap crowd_agg
           [22%nat] H1 H2 H3).
Defined.

(** X10, witness: a frame without obstacles for the materialised model of
    scenario A. *)
Lemma updateObstacles_no_obstacles_witness :
  reachable example_center_point scenario_heap confirmed_agg ∧
  ∃ s' out,
    updateObstacles example_center_point scenario_heap confirmed_agg []
      = Some (scenario_heap, s', out) ∧
    next_model_id_ s' = next_model_id_ confirmed_agg ∧
    tracked_models_ s' !! 0 = tracked_models_ confirmed_agg !! 0.
Proof.
  assert (reachable example_center_point scenario_heap confirmed_agg) as H1
    by reach_by_run scenario_frames.
  split; [assumption|].
  destruct (updateObstacles_no_obstacles example_center_point scenario_heap
              confirmed_agg H1) as (s' & out & Hrun & Hn & _ & Hkeep & _).
  exists s', out. do 2 (split; [assumption|]).
  apply Hkeep. vm_compute. reflexivity.
Defined.

(** X11, witness: ten frames without obstacles after frame 4 of
    scenario A. *)
Lemma run_no_obstacles_drains_witness :
  reachable example_center_point scenario_heap pending_agg ∧
  ∃ s' outs,
    run example_center_point scenario_heap pending_agg (replicate 10 [])
      = Some (scenario_heap, s', outs) ∧
    tracked_models_ s' = ∅ ∧ frames_found_ s' = ∅ ∧ frames_lost_ s' = ∅ ∧
    model_idx_in_list_ s' = ∅ ∧ materialized_models_ s' = [] ∧
    next_model_id_ s' = next_model_id_ pending_agg ∧ last outs = Some [].
Proof.
  assert (reachable example_center_point scenario_heap pending_agg) as H1
    by reach_by_run (take 4 scenario_frames).
  split; [assumption|].
  exact (run_no_obstacles_drains example_center_point scenario_heap
           pending_agg H1).
Defined.



(** X15, witness: the materialisation of scenario A. *)
Lemma materializeFoundObjects_idempotent_witness :
  ∃ s',
    materializeFoundObjects (with_found {[0 := 5]} pending_agg) = Some s' ∧
    materializeFoundObjects s' = Some s'.
Proof.
  destruct (materializeFoundObjects (with_found {[0 := 5]} pending_agg))
    as [s'|] eqn:Hrun; [|exfalso; vm_compute in Hrun; discriminate].
  exists s'. split; [reflexivity|].
  exact (proj2 (materializeFoundObjects_idempotent _ s' Hrun)).
Defined.



(** X18, witness: the new spheres at 1/16 and 1/8, both matched to the
    tracked sphere at the origin, which moves to 1/16, halfway to the
    second of them. *)
Lemma updateObstacles_blends_last_witness :
  reachable example_center_point crowd_heap crowd_agg ∧
  fresh_obstacles crowd_heap crowd_agg [20%nat; 21%nat] ∧
  tracked_models_ crowd_agg !! 0 = Some 10%nat ∧
  crowd_heap !! 10%nat = Some (SphereModel 0 origin) ∧
  matched_in example_center_point crowd_heap crowd_agg [20%nat; 21%nat] 0 ∧
  ∃ h' s' out,
    updateObstacles example_center_point crowd_heap crowd_agg [20%nat; 21%nat]
      = Some (h', s', out) ∧
    h' !! 10%nat = Some (SphereModel 0 (on_x_axis 1 (-4))).
Proof.
  assert (reachable example_center_point crowd_heap crowd_agg) as H1
    by reach_by_run [[10%nat]].
  assert (fresh_obstacles crowd_heap crowd_agg [20%nat; 21%nat]) as H2
    by by_compute.
  assert (tracked_models_ crowd_agg !! 0 = Some 10%nat) as H3 by reflexivity.
  assert (crowd_heap !! 10%nat = Some (SphereModel 0 origin)) as H4
    by reflexivity.
  assert (matched_in example_center_point crowd_heap crowd_agg
            [20%nat; 21%nat] 0) as H5 by by_compute.
  do 5 (split; [assumption|]).
  destruct (updateObstacles_blends_last example_center_point crowd_heap
              crowd_agg [20%nat; 21%nat] 0 10%nat _ H1 H2 H3 H4 H5)
    as (h' & s' & out & i & q & new_model & Hrun & Hq & Hn & Hlast & Hnm & _
        & Hres).
  exists h', s', out. split; [exact Hrun|].
  destruct i as [|[|i]]; [| |discriminate].
  - exfalso. apply (Hlast 1%nat 21%nat); [lia|reflexivity|].
    vm_compute. reflexivity.
  - injection Hq as <-. rewrite Hres.
    assert (new_model = SphereModel 0 (on_x_axis 1 (-3))) as ->.
    { vm_compute in Hnm. injection Hnm as <-. reflexivity. }
    assert (refresh_due s' = false) as ->.
    { destruct (updateObstacles_frame_cnt _ _ _ _ _ _ _ Hrun) as [Hcnt _].
      unfold refresh_due. rewrite Hcnt. reflexivity. }
    vm_compute. reflexivity.
Defined.

(** ** Properties of single steps *)

Section Steps.
Variable center_point : ObjectModel → Coordinate.

(** X19.  The map that [matchToPrevious] returns: every entry gives a
    tracked ID and the index of a new obstacle, and no index is given to
    two IDs.  The call only adds to the tracked table: the IDs tracked
    before keep their model and their counters, and the list of the
    materialised models, its index, the frame count and the set of the
    objects are as they were. *)
Theorem matchToPrevious_correspondence (h : heap) (s : Aggregator)
    (obs : list ptr) :
  Forall (λ p, is_Some (h !! p)) obs → tracked_alive h (tracked_models_ s) →
  ids_below s →
  ∃ corr h' s', matchToPrevious center_point h s obs = Some (corr, h', s') ∧
    (∀ id k, corr !! id = Some k →
       is_Some (obs !! k) ∧ is_Some (tracked_models_ s' !! id) ∧
       ∀ id', corr !! id' = Some k → id' = id) ∧
    (∀ id p, tracked_models_ s !! id = Some p →
       tracked_models_ s' !! id = Some p ∧
       frames_found_ s' !! id = frames_found_ s !! id ∧
       frames_lost_ s' !! id = frames_lost_ s !! id) ∧
    materialized_models_ s' = materialized_models_ s ∧
    model_idx_in_list_ s' = model_idx_in_list_ s ∧
    frame_cnt_ s' = frame_cnt_ s ∧ dom h' = dom h.
Proof.
  intros Hobs Halive Hbelow.
  destruct (matchToPrevious_defined center_point h s obs Hobs Halive)
    as [[[corr h'] s'] Hrun].
  exists corr, h', s'. split; [done|].
  pose proof (matchToPrevious_spec _ _ _ _ _ _ _ Hrun) as Hspec.
  cbv zeta in Hspec.
  destruct Hspec as (rs & _ & _ & _ & Hmat & Hidx & Hcnt & Hdom & _).
  split; [|split; [|done]].
  - intros id k Hid.
    apply (matchToPrevious_corr center_point h h' s s' obs corr id k Hrun Hbelow Hid).
  - intros id p Hp.
    destruct (matchToPrevious_cases center_point h h' s s' obs corr id Hrun Hbelow)
      as [(Ht & Hf & Hl)|(HT & _)]; [|congruence].
    by rewrite Ht.
Qed.
End Steps.

(** X20.  [dropLostObjects] only removes, on every state: each of the
    four maps after the call is a part of the map before it, the list of
    the materialised models is a sublist of the list before it, in the
    same order, and the two counters [next_model_id_] and [frame_cnt_] are
    as they were. *)
Theorem dropLostObjects_only_removes (s : Aggregator) :
  let s' := dropLostObjects s in
  tracked_models_ s' ⊆ tracked_models_ s ∧
  frames_found_ s' ⊆ frames_found_ s ∧
  frames_lost_ s' ⊆ frames_lost_ s ∧
  model_idx_in_list_ s' ⊆ model_idx_in_list_ s ∧
  sublist (materialized_models_ s') (materialized_models_ s) ∧
  next_model_id_ s' = next_model_id_ s ∧ frame_cnt_ s' = frame_cnt_ s.
Proof.
  intros s'.
  destruct (dropLostObjects_spec s) as (Hn & Hc & _ & _ & Hmat).
  fold s' in Hn, Hc, Hmat.
  pose proof (dropLostObjects_cases s) as Hcases. cbv zeta in Hcases.
  fold s' in Hcases.
  split; [|split; [|split; [|split; [|split; [|done]]]]].
  - apply map_subseteq_spec. intros id p Hp.
    destruct (Hcases id) as [(Ht & _)|(Ht & _)]; congruence.
  - apply map_subseteq_spec. intros id n Hn'.
    destruct (Hcases id) as [(_ & Hf & _)|(_ & Hf & _)]; congruence.
  - apply map_subseteq_spec. intros id n Hn'.
    destruct (Hcases id) as [(_ & _ & Hl & _)|(_ & _ & Hl & _)]; congruence.
  - apply map_subseteq_spec. intros id it Hit.
    destruct (Hcases id) as [(_ & _ & _ & Hi & _)|(_ & _ & _ & Hi & _)];
      congruence.
  - rewrite Hmat. apply sublist_filter.
Qed.

(** X19, witness: the new spheres at 1/16 and at 1 in front of the tracked
    sphere at the origin. *)
Lemma matchToPrevious_correspondence_witness :
  Forall (λ p, is_Some (crowd_heap !! p)) [20%nat; 22%nat] ∧
  tracked_alive crowd_heap (tracked_models_ crowd_agg) ∧
  ids_below crowd_agg ∧
  ∃ corr h' s',
    matchToPrevious example_center_point crowd_heap crowd_agg [20%nat; 22%nat]
      = Some (corr, h', s') ∧
    tracked_models_ s' !! 0 = Some 10%nat ∧
    frames_found_ s' !! 0 = frames_found_ crowd_agg !! 0 ∧
    dom h' = dom crowd_heap.
Proof.
  assert (Forall (λ p, is_Some (crowd_heap !! p)) [20%nat; 22%nat]) as H1
    by by_compute.
  assert (tracked_alive crowd_heap (tracked_models_ crowd_agg)) as H2
    by (unfold tracked_alive; by_compute).
  assert (ids_below crowd_agg) as H3 by (unfold ids_below; by_compute).
  do 3 (split; [assumption|]).
  destruct (matchToPrevious_correspondence example_center_point crowd_heap
              crowd_agg [20%nat; 22%nat] H1 H2 H3)
    as (corr & h' & s' & Hrun & _ & Hold & _ & _ & _ & Hdom).
  exists corr, h', s'. split; [exact Hrun|].
  destruct (Hold 0 10%nat eq_refl) as (Ht & Hf & _).
  repeat split; assumption.
Defined.

(** ** Streaks over the frames of a run *)

Section Streaks.
Variable center_point : ObjectModel → Coordinate.

(** One frame of a run, with the condition of [run_all]. *)
Lemma run_all_cons (P : heap → Aggregator → list ptr → bool)
    (h h' : heap) (s s' : Aggregator) (obs : list ptr)
    (frames outs : list (list ptr)) :
  reachable center_point h s →
  fresh_run center_point h s (obs :: frames) = true →
  run_all center_point P h s (obs :: frames) = true →
  run center_point h s (obs :: frames) = Some (h', s', outs) →
  ∃ h1 s1 out outs',
    updateObstacles center_point h s obs = Some (h1, s1, out) ∧
    outs = out :: outs' ∧ fresh_obstacles h s obs ∧ P h s obs = true ∧
    reachable center_point h1 s1 ∧
    fresh_run center_point h1 s1 frames = true ∧
    run_all center_point P h1 s1 frames = true ∧
    run center_point h1 s1 frames = Some (h', s', outs').
Proof.
  intros Hreach Hfr Hall Hrun. simpl in Hfr, Hall, Hrun.
  apply andb_true_iff in Hfr as [Hfresh Hfr].
  apply bool_decide_eq_true in Hfresh.
  apply andb_true_iff in Hall as [HP Hall].
  destruct (updateObstacles center_point h s obs) as [[[h1 s1] out]|] eqn:Hup;
    simpl in Hrun; [|done].
  destruct (run center_point h1 s1 frames) as [[[h2 s2] outs']|] eqn:Hrest;
    simpl in Hrun; [|done].
  injection Hrun as <- <- <-.
  exists h1, s1, out, outs'. do 4 (split; [done|]).
  split; [by eapply reach_frame|done].
Qed.

(** A materialised model that has a match in every frame stays in the
    lists handed out. *)
Lemma run_confirmed_matched (frames : list (list ptr)) (h h' : heap)
    (s s' : Aggregator) (outs : list (list ptr)) (id : Z) (p : ptr) :
  reachable center_point h s → fresh_run center_point h s frames = true →
  run_all center_point (matched_frame center_point id) h s frames = true →
  tracked_models_ s !! id = Some p → is_Some (model_idx_in_list_ s !! id) →
  run center_point h s frames = Some (h', s', outs) →
  tracked_models_ s' !! id = Some p ∧ is_Some (model_idx_in_list_ s' !! id) ∧
  Forall (λ out, p ∈ out) outs.
Proof.
  revert h s outs.
  induction frames as [|obs frames IH]; intros h s outs Hreach Hfr Hall Hp Hidx Hrun.
  - simpl in Hrun. injection Hrun as <- <- <-. done.
  - destruct (run_all_cons _ _ _ _ _ _ _ _ Hreach Hfr Hall Hrun)
      as (h1 & s1 & out & outs' & Hup & -> & Hfresh & HP & Hreach1 & Hfr1
          & Hall1 & Hrest).
    apply bool_decide_eq_true in HP.
    destruct (reachable_wf center_point h s Hreach) as [Hwf _].
    pose proof (updateObstacles_frame center_point h s obs id p Hwf Hfresh Hp)
      as Hframe. cbv zeta in Hframe.
    destruct Hframe as (h0 & s0 & out0 & Hrun0 & _ & _ & Hkeep).
    rewrite Hup in Hrun0. injection Hrun0 as <- <- <-.
    destruct Hkeep as (Ht & _ & Hrest1).
    { unfold lost_streak. rewrite bool_decide_eq_true_2 by done.
      unfold LOST_LIMIT. lia. }
    destruct Hidx as [it Hit]. rewrite Hit in Hrest1.
    destruct Hrest1 as (Hi1 & Hout & _).
    destruct (IH h1 s1 outs' Hreach1 Hfr1 Hall1 Ht ltac:(by eexists) Hrest)
      as (Ht' & Hi' & Houts).
    do 2 (split; [done|]). by constructor.
Qed.

(** An object that is not tracked and is not among the new obstacles is
    not tracked after the frame. *)
Lemma updateObstacles_stranger (h h' : heap) (s s' : Aggregator)
    (obs out : list ptr) (p : ptr) :
  wf h s → fresh_obstacles h s obs →
  updateObstacles center_point h s obs = Some (h', s', out) →
  p ∉ tracked_ptrs s → p ∉ obs → (p ∉ tracked_ptrs s') ∧ p ∉ out.
Proof.
  intros Hwf Hfresh Hrun Hnot Hobs.
  assert (p ∉ tracked_ptrs s') as Hnot'.
  { intros Hin. apply elem_of_tracked_ptrs in Hin as [id Hp'].
    destruct (tracked_models_ s !! id) as [p0|] eqn:Hp.
    - pose proof (updateObstacles_frame center_point h s obs id p0 Hwf Hfresh Hp)
        as Hframe. cbv zeta in Hframe.
      destruct Hframe as (h0 & s0 & out0 & Hrun0 & _ & Hdrop & Hkeep).
      rewrite Hrun in Hrun0. injection Hrun0 as <- <- <-.
      destruct (decide (LOST_LIMIT ≤ lost_streak center_point h s obs id))
        as [Hlim|Hlim].
      + destruct (Hdrop Hlim) as (Hnone & _). congruence.
      + destruct Hkeep as (Ht & _); [lia|].
        apply Hnot, elem_of_tracked_ptrs. exists id. congruence.
    - destruct (updateObstacles_untracked center_point h s obs id Hwf Hfresh Hp)
        as (h0 & s0 & out0 & Hrun0 & Hcases).
      rewrite Hrun in Hrun0. injection Hrun0 as <- <- <-.
      destruct Hcases as [(_ & k & q & Hk & _ & Ht & _)|(Ht & _)]; [|congruence].
      apply Hobs. assert (q = p) as -> by congruence.
      by eapply list_elem_of_lookup_2. }
  split; [done|]. intros Hin.
  destruct (updateObstacles_wf center_point h s obs Hwf Hfresh)
    as (h0 & s0 & out0 & Hrun0 & Hwf' & _ & _ & Hout).
  rewrite Hrun in Hrun0. injection Hrun0 as <- <- <-. rewrite Hout in Hin.
  destruct (copyMaterialized_tracked h' s' p Hwf' Hin) as (id & _ & _ & Hp).
  apply Hnot', elem_of_tracked_ptrs. by exists id.
Qed.
(** An object that is not tracked and does not come back among the new
    obstacles is in none of the lists handed out. *)
Lemma run_stranger (frames : list (list ptr)) (h h' : heap)
    (s s' : Aggregator) (outs : list (list ptr)) (id : Z) (p : ptr) :
  reachable center_point h s → fresh_run center_point h s frames = true →
  run_all center_point (missed_frame center_point id p) h s frames = true →
  p ∉ tracked_ptrs s →
  run center_point h s frames = Some (h', s', outs) →
  (p ∉ tracked_ptrs s') ∧ Forall (λ out, p ∉ out) outs.
Proof.
  revert h s outs.
  induction frames as [|obs frames IH]; intros h s outs Hreach Hfr Hall Hnot Hrun.
  - simpl in Hrun. injection Hrun as <- <- <-. done.
  - destruct (run_all_cons _ _ _ _ _ _ _ _ Hreach Hfr Hall Hrun)
      as (h1 & s1 & out & outs' & Hup & -> & Hfresh & HP & Hreach1 & Hfr1
          & Hall1 & Hrest).
    apply andb_true_iff in HP as [_ Hobs]. apply bool_decide_eq_true in Hobs.
    destruct (reachable_wf center_point h s Hreach) as [Hwf _].
    destruct (updateObstacles_stranger h h1 s s1 obs out p Hwf Hfresh Hup Hnot Hobs)
      as [Hnot1 Hout].
    destruct (IH h1 s1 outs' Hreach1 Hfr1 Hall1 Hnot1 Hrest) as [Hnot' Houts].
    split; [done|]. by constructor.
Qed.

(** X21.  A tracked model that is not materialised and has a match in
    every frame of a run stays tracked, and it is in the list handed out
    by a frame exactly from the frame on with which its found streak
    reaches 5: in the list of the frame number [j] (from 0) if and only if
    the found counter it started with plus [j + 1] is at least 5. *)
Theorem run_found_streak (frames : list (list ptr)) (h h' : heap)
    (s s' : Aggregator) (outs : list (list ptr)) (id : Z) (p : ptr) :
  reachable center_point h s → fresh_run center_point h s frames = true →
  run_all center_point (matched_frame center_point id) h s frames = true →
  tracked_models_ s !! id = Some p → model_idx_in_list_ s !! id = None →
  run center_point h s frames = Some (h', s', outs) →
  tracked_models_ s' !! id = Some p ∧
  ∀ j out, outs !! j = Some out →
    (p ∈ out ↔ 5 ≤ counter (frames_found_ s) id + Z.of_nat j + 1).
Proof.
  revert h s outs.
  induction frames as [|obs frames IH]; intros h s outs Hreach Hfr Hall Hp Hidx Hrun.
  - simpl in Hrun. injection Hrun as <- <- <-. done.
  - destruct (run_all_cons _ _ _ _ _ _ _ _ Hreach Hfr Hall Hrun)
      as (h1 & s1 & out & outs' & Hup & -> & Hfresh & HP & Hreach1 & Hfr1
          & Hall1 & Hrest).
    apply bool_decide_eq_true in HP.
    destruct (reachable_wf center_point h s Hreach) as [Hwf _].
    pose proof (updateObstacles_frame center_point h s obs id p Hwf Hfresh Hp)
      as Hframe. cbv zeta in Hframe.
    destruct Hframe as (h0 & s0 & out0 & Hrun0 & _ & _ & Hkeep).
    rewrite Hup in Hrun0. injection Hrun0 as <- <- <-.
    destruct Hkeep as (Ht & _ & Hrest1).
    { unfold lost_streak. rewrite bool_decide_eq_true_2 by done.
      unfold LOST_LIMIT. lia. }
    rewrite Hidx in Hrest1.
    assert (found_streak center_point h s obs id
            = counter (frames_found_ s) id + 1) as Hfs.
    { unfold found_streak. by rewrite bool_decide_eq_true_2 by done. }
    rewrite Hfs in Hrest1. unfold FOUND_LIMIT in Hrest1.
    destruct (decide (5 ≤ counter (frames_found_ s) id + 1)) as [Hge|Hlt].
    + destruct Hrest1 as (_ & Hi1 & Hout).
      destruct (run_confirmed_matched frames h1 h' s1 s' outs' id p
                  Hreach1 Hfr1 Hall1 Ht Hi1 Hrest) as (Ht' & _ & Houts).
      split; [done|]. intros [|j] o Ho; simpl in Ho.
      * injection Ho as <-. split; [lia|done].
      * rewrite Forall_forall in Houts. split; [lia|].
        intros _. apply Houts. by eapply list_elem_of_lookup_2.
    + destruct Hrest1 as (Hf1 & Hi1 & Hout).
      destruct (IH h1 s1 outs' Hreach1 Hfr1 Hall1 Ht Hi1 Hrest) as (Ht' & Houts).
      split; [done|]. intros [|j] o Ho; simpl in Ho.
      * injection Ho as <-. split; [done|lia].
      * rewrite (Houts j o Ho). unfold counter at 1. rewrite Hf1. simpl. lia.
Qed.

(** X22.  A tracked model without a match in any frame of a run, whose
    object does not come back among the new obstacles: it is in the list
    handed out by the frame number [j] (from 0) if and only if it was
    materialised when the run began and the lost counter it started with
    plus [j + 1] is below 10; it is still tracked at the end if and only
    if that counter plus the number of frames is below 10. *)
Theorem run_lost_streak (frames : list (list ptr)) (h h' : heap)
    (s s' : Aggregator) (outs : list (list ptr)) (id : Z) (p : ptr) :
  reachable center_point h s → fresh_run center_point h s frames = true →
  run_all center_point (missed_frame center_point id p) h s frames = true →
  tracked_models_ s !! id = Some p →
  run center_point h s frames = Some (h', s', outs) →
  (is_Some (tracked_models_ s' !! id) ↔
     counter (frames_lost_ s) id + Z.of_nat (length frames) < 10) ∧
  ∀ j out, outs !! j = Some out →
    (p ∈ out ↔ is_Some (model_idx_in_list_ s !! id) ∧
               counter (frames_lost_ s) id + Z.of_nat j + 1 < 10).
Proof.
  revert h s outs.
  induction frames as [|obs frames IH]; intros h s outs Hreach Hfr Hall Hp Hrun.
  - simpl in Hrun. injection Hrun as <- <- <-. split; [|done].
    destruct (reachable_wf center_point h s Hreach) as [_ [_ Hl]].
    split; [intros _|by eexists]. unfold counter. simpl.
    destruct (frames_lost_ s !! id) as [n|] eqn:Hn; simpl; [|lia].
    specialize (Hl id n Hn). simpl in Hl. unfold LOST_LIMIT in Hl. lia.
  - destruct (run_all_cons _ _ _ _ _ _ _ _ Hreach Hfr Hall Hrun)
      as (h1 & s1 & out & outs' & Hup & -> & Hfresh & HP & Hreach1 & Hfr1
          & Hall1 & Hrest).
    apply andb_true_iff in HP as [Hmiss Hobs].
    apply bool_decide_eq_true in Hmiss. apply bool_decide_eq_true in Hobs.
    destruct (reachable_wf center_point h s Hreach) as [Hwf _].
    destruct (reachable_consistent center_point h s Hreach) as [_ _ _ Hlnn _].
    assert (0 ≤ counter (frames_lost_ s) id) as Hc0.
    { unfold counter. destruct (frames_lost_ s !! id) as [n|] eqn:Hn; simpl; [|lia].
      apply (Hlnn id n Hn). }
    pose proof (updateObstacles_frame center_point h s obs id p Hwf Hfresh Hp)
      as Hframe. cbv zeta in Hframe.
    destruct Hframe as (h0 & s0 & out0 & Hrun0 & _ & Hdrop & Hkeep).
    rewrite Hup in Hrun0. injection Hrun0 as <- <- <-.
    assert (lost_streak center_point h s obs id
            = counter (frames_lost_ s) id + 1) as Hls.
    { unfold lost_streak. by rewrite bool_decide_eq_false_2 by done. }
    assert (found_streak center_point h s obs id = 0) as Hfs.
    { unfold found_streak. by rewrite bool_decide_eq_false_2 by done. }
    rewrite Hls in Hdrop, Hkeep. rewrite Hfs in Hkeep.
    unfold LOST_LIMIT, FOUND_LIMIT in *. simpl length.
    destruct (decide (10 ≤ counter (frames_lost_ s) id + 1)) as [Hlim|Hlim].
    + destruct (Hdrop Hlim) as (Ht1 & _ & _ & _ & Hout).
      assert (p ∉ tracked_ptrs s1) as Hnot.
      { intros Hin. apply elem_of_tracked_ptrs in Hin as [id' Hp'].
        destruct (tracked_models_ s !! id') as [p0|] eqn:Hp0.
        - pose proof (updateObstacles_frame center_point h s obs id' p0
                        Hwf Hfresh Hp0) as Hframe. cbv zeta in Hframe.
          destruct Hframe as (h0 & s0 & out0 & Hrun0 & _ & Hdrop' & Hkeep').
          rewrite Hup in Hrun0. injection Hrun0 as <- <- <-.
          destruct (decide (10 ≤ lost_streak center_point h s obs id'))
            as [Hl'|Hl'].
          + destruct (Hdrop' Hl') as (Hnone & _). congruence.
          + destruct Hkeep' as (Ht' & _); [unfold LOST_LIMIT; lia|].
            assert (p0 = p) as -> by congruence.
            assert (id' = id) as -> by by apply (wf_inj h s Hwf id' id p).
            congruence.
        - destruct (updateObstacles_untracked center_point h s obs id'
                      Hwf Hfresh Hp0) as (h0 & s0 & out0 & Hrun0 & Hcases).
          rewrite Hup in Hrun0. injection Hrun0 as <- <- <-.
          destruct Hcases as [(_ & k & q & Hk & _ & Ht & _)|(Ht & _)];
            [|congruence].
          apply Hobs. assert (q = p) as -> by congruence.
          by eapply list_elem_of_lookup_2. }
      destruct (run_stranger frames h1 h' s1 s' outs' id p Hreach1 Hfr1 Hall1
                  Hnot Hrest) as [Hnot' Houts].
      split.
      * split; [|lia]. intros [p' Hp']. exfalso.
        destruct (run_ids_retired center_point h1 h' s1 s' frames outs'
                    Hreach1 Hfr1 Hrest) as (_ & Hgone & _).
        rewrite Hgone in Hp'; [done| |done].
        pose proof (wf_below h s Hwf id p Hp) as Hlt. simpl in Hlt.
        destruct (updateObstacles_counters center_point h s obs Hwf Hfresh)
          as (h0 & s0 & out0 & Hrun0 & _ & Hn1 & _).
        rewrite Hup in Hrun0. injection Hrun0 as <- <- <-. lia.
      * intros [|j] o Ho; simpl in Ho.
        -- injection Ho as <-. split; [done|]. intros [_ ?]. lia.
        -- rewrite Forall_forall in Houts. split; [|intros [_ ?]; lia].
           intros Hin. destruct (Houts o); [by eapply list_elem_of_lookup_2|done].
    + destruct Hkeep as (Ht1 & Hl1 & Hrest1); [lia|].
      destruct (IH h1 s1 outs' Hreach1 Hfr1 Hall1 Ht1 Hrest) as (Hend & Houts).
      assert (counter (frames_lost_ s1) id = counter (frames_lost_ s) id + 1)
        as Hc1 by (unfold counter at 1; by rewrite Hl1).
      rewrite Hc1 in Hend, Houts.
      assert ((p ∈ out ↔ is_Some (model_idx_in_list_ s !! id)) ∧
              (is_Some (model_idx_in_list_ s1 !! id)
               ↔ is_Some (model_idx_in_list_ s !! id))) as [Hout Hidx].
      { destruct (model_idx_in_list_ s !! id) as [it|] eqn:Hit.
        - destruct Hrest1 as (Hi1 & Hin & _). rewrite Hi1.
          split; (split; [by eexists|done]).
        - destruct (decide (5 ≤ 0)) as [?|_]; [lia|].
          destruct Hrest1 as (_ & Hi1 & Hin). rewrite Hi1.
          split; (split; [done|by intros [? ?]]). }
      split.
      * rewrite Hend. lia.
      * intros [|j] o Ho; simpl in Ho.
        -- injection Ho as <-. rewrite Hout. split; [intros ?; split; [done|lia]|].
           by intros [? _].
        -- rewrite (Houts j o Ho), Hidx.
           replace (counter (frames_lost_ s) id + 1 + Z.of_nat j + 1)
             with (counter (frames_lost_ s) id + Z.of_nat (S j) + 1) by lia.
           done.
Qed.
End Streaks.

(** X21, witness: the frames 2 to 5 of scenario A. *)
Lemma run_found_streak_witness :
  reachable example_center_point scenario_heap sighted_agg ∧
  fresh_run example_center_point scenario_heap sighted_agg
    (drop 1 scenario_frames) = true ∧
  run_all example_center_point (matched_frame example_center_point 0)
    scenario_heap sighted_agg (drop 1 scenario_frames) = true ∧
  tracked_models_ sighted_agg !! 0 = Some 1%nat ∧
  model_idx_in_list_ sighted_agg !! 0 = None ∧
  ∃ h' s' outs,
    run example_center_point scenario_heap sighted_agg (drop 1 scenario_frames)
      = Some (h', s', outs) ∧
    tracked_models_ s' !! 0 = Some 1%nat ∧
    ∀ j out, outs !! j = Some out →
      (1%nat ∈ out ↔ 5 ≤ counter (frames_found_ sighted_agg) 0 + Z.of_nat j + 1).
Proof.
  assert (reachable example_center_point scenario_heap sighted_agg) as H1
    by reach_by_run (take 1 scenario_frames).
  assert (fresh_run example_center_point scenario_heap sighted_agg
            (drop 1 scenario_frames) = true) as H2 by (vm_compute; reflexivity).
  assert (run_all example_center_point (matched_frame example_center_point 0)
            scenario_heap sighted_agg (drop 1 scenario_frames) = true) as H3
    by (vm_compute; reflexivity).
  assert (tracked_models_ sighted_agg !! 0 = Some 1%nat) as H4 by reflexivity.
  assert (model_idx_in_list_ sighted_agg !! 0 = None) as H5 by reflexivity.
  do 5 (split; [assumption|]).
  destruct (run example_center_point scenario_heap sighted_agg
              (drop 1 scenario_frames)) as [[[h' s'] outs]|] eqn:Hrun;
    [|exfalso; vm_compute in Hrun; discriminate].
  exists h', s', outs. split; [reflexivity|].
  exact (run_found_streak example_center_point (drop 1 scenario_frames)
           scenario_heap h' sighted_agg s' outs 0 1%nat H1 H2 H3 H4 H5 Hrun).
Defined.

(** X22, witness: ten frames without obstacles after scenario A. *)
Lemma run_lost_streak_witness :
  reachable example_center_point scenario_heap confirmed_agg ∧
  fresh_run example_center_point scenario_heap confirmed_agg
    (replicate 10 []) = true ∧
  run_all example_center_point (missed_frame example_center_point 0 1%nat)
    scenario_heap confirmed_agg (replicate 10 []) = true ∧
  tracked_models_ confirmed_agg !! 0 = Some 1%nat ∧
  ∃ h' s' outs,
    run example_center_point scenario_heap confirmed_agg (replicate 10 [])
      = Some (h', s', outs) ∧
    ¬ is_Some (tracked_models_ s' !! 0) ∧
    ∀ j out, outs !! j = Some out →
      (1%nat ∈ out ↔ is_Some (model_idx_in_list_ confirmed_agg !! 0) ∧
                     counter (frames_lost_ confirmed_agg) 0 + Z.of_nat j + 1 < 10).
Proof.
  assert (reachable example_center_point scenario_heap confirmed_agg) as H1
    by reach_by_run scenario_frames.
  assert (fresh_run example_center_point scenario_heap confirmed_agg
            (replicate 10 []) = true) as H2 by (vm_compute; reflexivity).
  assert (run_all example_center_point (missed_frame example_center_point 0 1%nat)
            scenario_heap confirmed_agg (replicate 10 []) = true) as H3
    by (vm_compute; reflexivity).
  assert (tracked_models_ confirmed_agg !! 0 = Some 1%nat) as H4 by reflexivity.
  do 4 (split; [assumption|]).
  destruct (run example_center_point scenario_heap confirmed_agg
              (replicate 10 [])) as [[[h' s'] outs]|] eqn:Hrun;
    [|exfalso; vm_compute in Hrun; discriminate].
  exists h', s', outs. split; [reflexivity|].
  destruct (run_lost_streak example_center_point (replicate 10 [])
              scenario_heap h' confirmed_agg s' outs 0 1%nat H1 H2 H3 H4 Hrun)
    as [Hend Houts].
  split; [|exact Houts].
  intros Hsome. apply Hend in Hsome. vm_compute in Hsome. discriminate.
Defined.
